(** * BusTub buffer pool: LRU replacer, buffer pool instance, parallel pool

    A shallow embedding of [src/buffer/lru_replacer.cpp],
    [src/buffer/buffer_pool_manager_instance.cpp] and
    [src/buffer/parallel_buffer_pool_manager.cpp], followed by the
    properties of the buffer pool that the specification states.

    Conventions.
    - The latches ([std::lock_guard]) serialise the public operations; the
      model is sequential and every operation is an atomic state transformer.
    - Out parameters and returned pointers become return values: a
      [Page *] into [pages_] is the frame index, [nullptr] is [None].
    - A [std::list] is a [list] whose head is the front; a
      [std::unordered_map] is a [gmap]. *)

From Stdlib Require Import ZArith Lia.
From Stdlib.Strings Require Import Byte.
From stdpp Require Import gmap list.

Open Scope Z_scope.

(** ** Types declared in headers that are not part of the sources *)

(** Modelled from the spec: [page_id_t] ([common/config.h]) is "a signed
    integer", [INVALID_PAGE_ID] is the sentinel [-1]. The typedef, in a
    header outside the sources, is [int32_t]: a page id is an integer in
    [[-2^31, 2^31)]. *)
Abbreviation page_id_t := Z.
Definition INVALID_PAGE_ID : Z := -1.

(** The value of an integer once stored in a [page_id_t]: reduced modulo
    [2^32] into [[-2^31, 2^31)]. *)
Definition wrap_page_id (z : Z) : page_id_t := (z + 2 ^ 31) `mod` 2 ^ 32 - 2 ^ 31.

(** Modelled from the spec: [frame_id_t] ([common/config.h]) is "a small
    non-negative integer in [[0, pool_size)]" identifying a slot of
    [pages_]. *)
Abbreviation frame_id_t := nat.

(** Modelled from the spec: [PAGE_SIZE] ([common/config.h]), "conventionally
    4096" octets. *)
Definition PAGE_SIZE : nat := 4096.

(** ** LRUReplacer *)

Module LRUReplacer.

(** [lru_list_] is the [std::list<frame_id_t>]; [lru_map_] maps a frame id
    to the iterator of its node in [lru_list_]. An iterator is determined
    by the node it designates, so the map is kept as its key set. *)
Record t := mk {
  lru_list_ : list frame_id_t;
  lru_map_ : gset frame_id_t;
  capacity_ : nat
}.

(** [LRUReplacer::LRUReplacer(size_t num_pages)] *)
Definition new (num_pages : nat) : t := mk [] ∅ num_pages.

(** [LRUReplacer::Size] *)
Definition Size (r : t) : nat := length (lru_list_ r).

(** [lru_list_.erase(it)] where [it] designates a node holding [f]: exactly
    one node is unlinked. *)
Fixpoint erase_node (f : frame_id_t) (l : list frame_id_t) : list frame_id_t :=
  match l with
  | [] => []
  | x :: l' => if decide (x = f) then l' else x :: erase_node f l'
  end.

(** [LRUReplacer::Victim]. The result is the value left in [*frame_id] on a
    [true] return and [None] on a [false] return. [lru_list_.back()] on an
    empty list is undefined in C++; the model answers "no victim" there. *)
Definition Victim (r : t) : option frame_id_t * t :=
  if decide (lru_map_ r = ∅) then (None, r)
  else match last (lru_list_ r) with
       | Some f =>
           (Some f, mk (removelast (lru_list_ r)) (lru_map_ r ∖ {[f]}) (capacity_ r))
       | None => (None, r)
       end.

(** [LRUReplacer::Pin] *)
Definition Pin (frame_id : frame_id_t) (r : t) : t :=
  if decide (frame_id ∈ lru_map_ r)
  then mk (erase_node frame_id (lru_list_ r)) (lru_map_ r ∖ {[frame_id]}) (capacity_ r)
  else r.

(** The capacity guard of [Unpin]: drop the back element. *)
Definition drop_back (r : t) : t :=
  match last (lru_list_ r) with
  | Some b => mk (removelast (lru_list_ r)) (lru_map_ r ∖ {[b]}) (capacity_ r)
  | None => r
  end.

(** [LRUReplacer::Unpin] *)
Definition Unpin (frame_id : frame_id_t) (r : t) : t :=
  if decide (frame_id ∈ lru_map_ r) then r
  else
    let r1 := if decide (capacity_ r ≤ Size r)%nat then drop_back r else r in
    mk (frame_id :: lru_list_ r1) ({[frame_id]} ∪ lru_map_ r1) (capacity_ r1).

(** A run of [Unpin] calls, in the order of the list. *)
Definition unpin_all (fs : list frame_id_t) (r : t) : t :=
  foldl (λ acc f, Unpin f acc) r fs.

(** [n] successive [Victim] calls: the answers in call order and the final
    replacer. *)
Fixpoint victims (n : nat) (r : t) : list (option frame_id_t) * t :=
  match n with
  | O => ([], r)
  | S n' =>
      let '(v, r1) := Victim r in
      let '(vs, r2) := victims n' r1 in
      (v :: vs, r2)
  end.

(** The list and its index agree, and no frame is listed twice. *)
Definition wf (r : t) : Prop :=
  NoDup (lru_list_ r) ∧ ∀ f, f ∈ lru_map_ r ↔ f ∈ lru_list_ r.

(** Calls on a replacer, and runs of calls. *)
Inductive op :=
| OpVictim
| OpPin (frame_id : frame_id_t)
| OpUnpin (frame_id : frame_id_t).

Definition call (r : t) (o : op) : t :=
  match o with
  | OpVictim => (Victim r).2
  | OpPin f => Pin f r
  | OpUnpin f => Unpin f r
  end.

Definition run (ops : list op) (r : t) : t := foldl call r ops.

End LRUReplacer.

(** ** Page and disk manager *)

(** Modelled from the spec: [class Page] ([storage/page/page.h]) is "a
    fixed-width byte buffer of [PAGE_SIZE] octets plus three metadata
    fields": the owning page id, the pin count (an integer, which the code
    increments, decrements and compares with 0) and the dirty flag. *)
Record Page := mkPage {
  page_id_ : page_id_t;
  pin_count_ : Z;
  is_dirty_ : bool;
  data_ : list byte
}.

(** The buffer after [memset(data, 0, PAGE_SIZE)]. *)
Definition zero_data : list byte := replicate PAGE_SIZE x00.

(** Modelled from the spec: [Page::ResetMemory] ([storage/page/page.h])
    leaves the "buffer zeroed"; so does the [Page] constructor. *)
Definition ResetMemory (p : Page) : Page :=
  mkPage (page_id_ p) (pin_count_ p) (is_dirty_ p) zero_data.

#[global] Instance Page_inhabited : Inhabited Page :=
  populate (mkPage INVALID_PAGE_ID 0 false zero_data).

(** Field assignments on a [Page]. *)
Definition set_page_id (v : page_id_t) (p : Page) : Page :=
  mkPage v (pin_count_ p) (is_dirty_ p) (data_ p).
Definition set_pin_count (v : Z) (p : Page) : Page :=
  mkPage (page_id_ p) v (is_dirty_ p) (data_ p).
Definition set_is_dirty (v : bool) (p : Page) : Page :=
  mkPage (page_id_ p) (pin_count_ p) v (data_ p).
Definition set_data (v : list byte) (p : Page) : Page :=
  mkPage (page_id_ p) (pin_count_ p) (is_dirty_ p) v.

(** What the core asks of the disk manager, most recent request first. *)
Inductive DiskEvent :=
| EvWritePage (page_id : page_id_t) (buf : list byte)
| EvReadPage (page_id : page_id_t)
| EvDeallocatePage (page_id : page_id_t).

(** Modelled from the spec: the disk manager is an external collaborator;
    [WritePage] "persists [buf] as the new contents of [page_id]",
    [ReadPage] "fills [buf] with the on-disk contents of [page_id]" (a page
    never written reads as zeroes), and [DeallocatePage] "may be a no-op at
    the disk layer". Every request is recorded in [disk_log]. *)
Record DiskManager := mkDisk {
  disk_pages : gmap page_id_t (list byte);
  disk_log : list DiskEvent
}.

Definition WritePage (page_id : page_id_t) (buf : list byte) (d : DiskManager)
  : DiskManager :=
  mkDisk (<[page_id := buf]> (disk_pages d)) (EvWritePage page_id buf :: disk_log d).

Definition ReadPage (page_id : page_id_t) (d : DiskManager)
  : list byte * DiskManager :=
  (default zero_data (disk_pages d !! page_id),
   mkDisk (disk_pages d) (EvReadPage page_id :: disk_log d)).

Definition DeallocatePage (page_id : page_id_t) (d : DiskManager) : DiskManager :=
  mkDisk (disk_pages d) (EvDeallocatePage page_id :: disk_log d).

(** ** BufferPoolManagerInstance *)

(** The members of the instance. [num_instances_] and [instance_index_] are
    the [uint32_t] constructor arguments; [next_page_id_] is a page id. The
    disk manager is held by pointer and is shared by all instances of a pool,
    so it is threaded next to the instance rather than stored in it. *)
Record Instance := mkInstance {
  pool_size_ : nat;
  num_instances_ : Z;
  instance_index_ : Z;
  next_page_id_ : page_id_t;
  pages_ : list Page;
  replacer_ : LRUReplacer.t;
  free_list_ : list frame_id_t;
  page_table_ : gmap page_id_t frame_id_t
}.

Definition set_next_page_id (v : page_id_t) (s : Instance) : Instance :=
  mkInstance (pool_size_ s) (num_instances_ s) (instance_index_ s) v
             (pages_ s) (replacer_ s) (free_list_ s) (page_table_ s).
Definition set_pages (v : list Page) (s : Instance) : Instance :=
  mkInstance (pool_size_ s) (num_instances_ s) (instance_index_ s) (next_page_id_ s)
             v (replacer_ s) (free_list_ s) (page_table_ s).
Definition set_replacer (v : LRUReplacer.t) (s : Instance) : Instance :=
  mkInstance (pool_size_ s) (num_instances_ s) (instance_index_ s) (next_page_id_ s)
             (pages_ s) v (free_list_ s) (page_table_ s).
Definition set_free_list (v : list frame_id_t) (s : Instance) : Instance :=
  mkInstance (pool_size_ s) (num_instances_ s) (instance_index_ s) (next_page_id_ s)
             (pages_ s) (replacer_ s) v (page_table_ s).
Definition set_page_table (v : gmap page_id_t frame_id_t) (s : Instance) : Instance :=
  mkInstance (pool_size_ s) (num_instances_ s) (instance_index_ s) (next_page_id_ s)
             (pages_ s) (replacer_ s) (free_list_ s) v.

(** [pages_[f]]; an index outside the array is undefined in C++ and reads the
    default page here. *)
Definition page_at (s : Instance) (f : frame_id_t) : Page := pages_ s !!! f.

(** [pages_[f] = p] *)
Definition store_page (f : frame_id_t) (p : Page) (s : Instance) : Instance :=
  set_pages (<[f := p]> (pages_ s)) s.

(** The constructor: every frame starts in the free list, in index order,
    with [page_id_ = INVALID_PAGE_ID], [pin_count_ = 0], [is_dirty_ = false].
    [next_page_id_(instance_index)] stores the [uint32_t] argument in the
    [page_id_t] counter. The two assertions ([num_instances > 0],
    [instance_index < num_instances]) are preconditions of the properties
    that need them. *)
Definition BufferPoolManagerInstance
    (pool_size : nat) (num_instances instance_index : Z) : Instance :=
  mkInstance pool_size num_instances instance_index (wrap_page_id instance_index)
             (replicate pool_size (mkPage INVALID_PAGE_ID 0 false zero_data))
             (LRUReplacer.new pool_size)
             (seq 0 pool_size)
             ∅.

(** [ValidatePageId]: the condition of the [assert]. [num_instances_] is a
    [uint32_t], so the remainder is taken after [page_id] is converted to
    [uint32_t]. *)
Definition ValidatePageId (s : Instance) (page_id : page_id_t) : Prop :=
  (page_id `mod` 2 ^ 32) `mod` num_instances_ s = instance_index_ s.

(** [AllocatePage]. [next_page_id_ += num_instances_] is stored back in the
    [page_id_t] counter, so the sum wraps to 32 bits. The [assert] of
    [ValidatePageId] does not change the result. *)
Definition AllocatePage (s : Instance) : page_id_t * Instance :=
  let next_page_id := next_page_id_ s in
  (next_page_id,
   set_next_page_id (wrap_page_id (next_page_id_ s + num_instances_ s)) s).

(** [FindPage]: a frame from the front of the free list, else a victim of the
    replacer, written back when dirty and unmapped from the page table. *)
Definition FindPage (s : Instance) (d : DiskManager)
  : option frame_id_t * Instance * DiskManager :=
  match free_list_ s with
  | frame_id :: rest => (Some frame_id, set_free_list rest s, d)
  | [] =>
      match LRUReplacer.Victim (replacer_ s) with
      | (None, r) => (None, set_replacer r s, d)
      | (Some frame_id, r) =>
          let s1 := set_replacer r s in
          let page := page_at s1 frame_id in
          let d1 := if is_dirty_ page
                    then WritePage (page_id_ page) (data_ page) d else d in
          (Some frame_id, set_page_table (delete (page_id_ page) (page_table_ s1)) s1, d1)
      end
  end.

(** [FlushPgImp] *)
Definition FlushPgImp (page_id : page_id_t) (s : Instance) (d : DiskManager)
  : bool * Instance * DiskManager :=
  match page_table_ s !! page_id with
  | None => (false, s, d)
  | Some frame_id =>
      if decide (page_id = INVALID_PAGE_ID) then (false, s, d)
      else
        let d1 := WritePage page_id (data_ (page_at s frame_id)) d in
        (true, store_page frame_id (set_is_dirty false (page_at s frame_id)) s, d1)
  end.

(** [FlushAllPgsImp]. The iteration order of a [std::unordered_map] is
    unspecified; the model visits the entries in the order of
    [map_to_list]. *)
Definition FlushAllPgsImp (s : Instance) (d : DiskManager)
  : Instance * DiskManager :=
  foldl (λ '(s1, d1) '(page_id, frame_id),
           (store_page frame_id (set_is_dirty false (page_at s1 frame_id)) s1,
            WritePage page_id (data_ (page_at s1 frame_id)) d1))
        (s, d) (map_to_list (page_table_ s)).

(** [NewPgImp]: the new page id and the frame handed out. *)
Definition NewPgImp (s : Instance) (d : DiskManager)
  : option (page_id_t * frame_id_t) * Instance * DiskManager :=
  match FindPage s d with
  | (None, s1, d1) => (None, s1, d1)
  | (Some victim_frame_id, s1, d1) =>
      let '(page_id, s2) := AllocatePage s1 in
      let new_page := page_at s2 victim_frame_id in
      let new_page := set_page_id page_id new_page in
      let new_page := set_is_dirty false new_page in
      let new_page := set_pin_count (pin_count_ new_page + 1) new_page in
      let new_page := set_data zero_data new_page in
      let s3 := store_page victim_frame_id new_page s2 in
      let s4 := set_page_table (<[page_id := victim_frame_id]> (page_table_ s3)) s3 in
      let s5 := set_replacer (LRUReplacer.Pin victim_frame_id (replacer_ s4)) s4 in
      (Some (page_id, victim_frame_id), s5, WritePage page_id (data_ new_page) d1)
  end.

(** [FetchPgImp] *)
Definition FetchPgImp (page_id : page_id_t) (s : Instance) (d : DiskManager)
  : option frame_id_t * Instance * DiskManager :=
  match page_table_ s !! page_id with
  | Some frame_id =>
      let page := page_at s frame_id in
      let s1 := store_page frame_id (set_pin_count (pin_count_ page + 1) page) s in
      (Some frame_id, set_replacer (LRUReplacer.Pin frame_id (replacer_ s1)) s1, d)
  | None =>
      match FindPage s d with
      | (None, s1, d1) => (None, s1, d1)
      | (Some replace_fid, s1, d1) =>
          let replace_page := page_at s1 replace_fid in
          let d2 := if is_dirty_ replace_page
                    then WritePage (page_id_ replace_page) (data_ replace_page) d1
                    else d1 in
          let s2 := set_page_table (delete (page_id_ replace_page) (page_table_ s1)) s1 in
          let s3 := set_page_table (<[page_id := replace_fid]> (page_table_ s2)) s2 in
          let '(buf, d3) := ReadPage page_id d2 in
          let replace_page := set_data buf replace_page in
          let replace_page := set_page_id page_id replace_page in
          let replace_page := set_pin_count (pin_count_ replace_page + 1) replace_page in
          let replace_page := set_is_dirty false replace_page in
          let s4 := store_page replace_fid replace_page s3 in
          (Some replace_fid,
           set_replacer (LRUReplacer.Pin replace_fid (replacer_ s4)) s4, d3)
      end
  end.

(** [DeletePgImp]. [BufferPoolManagerInstance::DeallocatePage] is declared in
    a header that is not part of the sources; the request is recorded on the
    disk manager. *)
Definition DeletePgImp (page_id : page_id_t) (s : Instance) (d : DiskManager)
  : bool * Instance * DiskManager :=
  match page_table_ s !! page_id with
  | None => (true, s, d)
  | Some frame_id =>
      let page := page_at s frame_id in
      if decide (0 < pin_count_ page) then (false, s, d)
      else
        let d1 := if is_dirty_ page then WritePage page_id (data_ page) d else d in
        let d2 := DeallocatePage page_id d1 in
        let s1 := set_page_table (delete page_id (page_table_ s)) s in
        let page := ResetMemory page in
        let page := set_page_id INVALID_PAGE_ID page in
        let page := set_pin_count 0 page in
        let page := set_is_dirty false page in
        let s2 := store_page frame_id page s1 in
        (true, set_free_list (free_list_ s2 ++ [frame_id]) s2, d2)
  end.

(** [UnpinPgImp] *)
Definition UnpinPgImp (page_id : page_id_t) (is_dirty : bool)
    (s : Instance) (d : DiskManager) : bool * Instance * DiskManager :=
  match page_table_ s !! page_id with
  | None => (false, s, d)
  | Some unpinned_fid =>
      let page := page_at s unpinned_fid in
      let page := if is_dirty then set_is_dirty true page else page in
      let s1 := store_page unpinned_fid page s in
      if decide (pin_count_ page = 0) then (false, s1, d)
      else
        let page := set_pin_count (pin_count_ page - 1) page in
        let s2 := store_page unpinned_fid page s1 in
        let s3 := if decide (pin_count_ page = 0)
                  then set_replacer (LRUReplacer.Unpin unpinned_fid (replacer_ s2)) s2
                  else s2 in
        (true, s3, d)
  end.

(** ** Runs of public operations on one instance *)

Inductive Op :=
| OpNewPage
| OpFetchPage (page_id : page_id_t)
| OpUnpinPage (page_id : page_id_t) (is_dirty : bool)
| OpFlushPage (page_id : page_id_t)
| OpFlushAllPages
| OpDeletePage (page_id : page_id_t)
| OpWriteData (frame_id : frame_id_t) (buf : list byte).

(** One public call; the returned value is dropped. [OpWriteData] is the
    caller filling the buffer of a frame it holds pinned, through the
    [Page *] it was handed; the metadata is not touched. *)
Definition step (sd : Instance * DiskManager) (o : Op) : Instance * DiskManager :=
  let '(s, d) := sd in
  match o with
  | OpNewPage => let '(_, s1, d1) := NewPgImp s d in (s1, d1)
  | OpFetchPage p => let '(_, s1, d1) := FetchPgImp p s d in (s1, d1)
  | OpUnpinPage p b => let '(_, s1, d1) := UnpinPgImp p b s d in (s1, d1)
  | OpFlushPage p => let '(_, s1, d1) := FlushPgImp p s d in (s1, d1)
  | OpFlushAllPages => FlushAllPgsImp s d
  | OpDeletePage p => let '(_, s1, d1) := DeletePgImp p s d in (s1, d1)
  | OpWriteData f buf =>
      if decide (0 < pin_count_ (page_at s f))
      then (store_page f (set_data buf (page_at s f)) s, d)
      else (s, d)
  end.

Definition run (ops : list Op) (sd : Instance * DiskManager) : Instance * DiskManager :=
  foldl step sd ops.

(** What a public call answers. *)
Inductive Ret :=
| RetNewPage (r : option (page_id_t * frame_id_t))
| RetFetchPage (r : option frame_id_t)
| RetBool (b : bool)
| RetVoid.

Definition answer (sd : Instance * DiskManager) (o : Op) : Ret :=
  let '(s, d) := sd in
  match o with
  | OpNewPage => RetNewPage (NewPgImp s d).1.1
  | OpFetchPage p => RetFetchPage (FetchPgImp p s d).1.1
  | OpUnpinPage p b => RetBool (UnpinPgImp p b s d).1.1
  | OpFlushPage p => RetBool (FlushPgImp p s d).1.1
  | OpFlushAllPages => RetVoid
  | OpDeletePage p => RetBool (DeletePgImp p s d).1.1
  | OpWriteData _ _ => RetVoid
  end.

(** The answers of a run, in call order. *)
Fixpoint answers (ops : list Op) (sd : Instance * DiskManager) : list Ret :=
  match ops with
  | [] => []
  | o :: ops' => answer sd o :: answers ops' (step sd o)
  end.

(** The states an instance can be in: some run of public calls from a
    freshly constructed instance, whose constructor assertions hold. *)
Definition reachable (s : Instance) (d : DiskManager) : Prop :=
  ∃ pool_size num_instances instance_index d0 ops,
    0 < num_instances ∧ 0 ≤ instance_index < num_instances ∧
    run ops (BufferPoolManagerInstance pool_size num_instances instance_index, d0) = (s, d).

(** The page ids handed out by the successful [NewPage] calls of a run, in
    call order. *)
Fixpoint allocated (ops : list Op) (sd : Instance * DiskManager) : list page_id_t :=
  match ops with
  | [] => []
  | o :: ops' =>
      match o, NewPgImp sd.1 sd.2 with
      | OpNewPage, (Some (page_id, _), _, _) => page_id :: allocated ops' (step sd o)
      | _, _ => allocated ops' (step sd o)
      end
  end.

(** [f] is resident: some page-table entry maps to it. *)
Definition resident (s : Instance) (f : frame_id_t) : Prop :=
  ∃ page_id, page_table_ s !! page_id = Some f.

(** [f] is tracked by the replacer. *)
Definition in_replacer (s : Instance) (f : frame_id_t) : Prop :=
  f ∈ LRUReplacer.lru_list_ (replacer_ s).

(** The bookkeeping that every public call of an instance maintains. *)
Record inv (s : Instance) : Prop := mkInv {
  inv_pages : length (pages_ s) = pool_size_ s;
  inv_free_nodup : NoDup (free_list_ s);
  inv_free : ∀ f, f ∈ free_list_ s →
    (f < pool_size_ s)%nat ∧ pin_count_ (page_at s f) = 0 ∧ ¬ resident s f;
  inv_table : ∀ page_id f, page_table_ s !! page_id = Some f →
    (f < pool_size_ s)%nat ∧ page_id_ (page_at s f) = page_id;
  inv_replacer_wf : LRUReplacer.wf (replacer_ s);
  inv_replacer : ∀ f, in_replacer s f →
    (f < pool_size_ s)%nat ∧ pin_count_ (page_at s f) = 0
}.

(** A frame as the constructor and [DeletePgImp] leave it. *)
Definition blank_page : Page := mkPage INVALID_PAGE_ID 0 false zero_data.

(** What the public calls maintain beyond [inv]: pin counts stay
    non-negative, the replacer keeps the capacity it was built with, free
    frames are blank, and every resident frame with pin count 0 is tracked
    by the replacer. *)
Record inv_frames (s : Instance) : Prop := mkInvFrames {
  inv_pin : ∀ f, 0 ≤ pin_count_ (page_at s f);
  inv_capacity : LRUReplacer.capacity_ (replacer_ s) = pool_size_ s;
  inv_blank : ∀ f, f ∈ free_list_ s → page_at s f = blank_page;
  inv_tracked : ∀ f, resident s f → pin_count_ (page_at s f) = 0 → in_replacer s f
}.

#[global] Instance Instance_inhabited : Inhabited Instance :=
  populate (BufferPoolManagerInstance 0 1 0).

(** ** ParallelBufferPoolManager *)

Module ParallelBufferPoolManager.

(** [buffers_], the round-robin cursor, and the one disk manager that every
    instance points to. *)
Record t := mk {
  buffers_ : list Instance;
  last_alloc_index_ : nat;
  disk_manager : DiskManager
}.

(** The constructor: instance [i] is built with [(num_instances, i)]. The
    [size_t] arguments reach the instance constructor as [uint32_t]; the
    model is of pools of fewer than [2^32] instances. *)
Definition new (num_instances pool_size : nat) (d : DiskManager) : t :=
  mk ((λ i : nat, BufferPoolManagerInstance pool_size (Z.of_nat num_instances) (Z.of_nat i))
        <$> seq 0 num_instances)
     0 d.

(** The [for] loop of [NewPgImp] with [k] iterations left and loop variable
    [i]. The cursor is written on both exits. [i] is a [uint32_t] in the
    source; it stays below twice the number of instances. *)
Fixpoint probe (k : nat) (i : nat) (p : t)
  : option (page_id_t * (nat * frame_id_t)) * t :=
  match k with
  | O =>
      (None,
       mk (buffers_ p) ((last_alloc_index_ p + 1) `mod` length (buffers_ p))%nat
          (disk_manager p))
  | S k' =>
      let start_index := (i `mod` length (buffers_ p))%nat in
      match buffers_ p !! start_index with
      | None => (None, p)
      | Some b =>
          match NewPgImp b (disk_manager p) with
          | (Some (page_id, frame_id), b1, d1) =>
              (Some (page_id, (start_index, frame_id)),
               mk (<[start_index := b1]> (buffers_ p))
                  ((last_alloc_index_ p + 1) `mod` length (buffers_ p))%nat
                  d1)
          | (None, b1, d1) =>
              probe k' (S i)
                    (mk (<[start_index := b1]> (buffers_ p)) (last_alloc_index_ p) d1)
          end
      end
  end.

(** [ParallelBufferPoolManager::NewPgImp]: the page id, the instance that
    produced it and the frame inside that instance. *)
Definition NewPgImp (p : t) : option (page_id_t * (nat * frame_id_t)) * t :=
  probe (length (buffers_ p)) (last_alloc_index_ p) p.

(** [GetPoolSize]: [buffers_.size() * buffers_[0]->GetPoolSize()]; the
    instance's [GetPoolSize] returns [pool_size_]. *)
Definition GetPoolSize (p : t) : nat :=
  (length (buffers_ p) * pool_size_ (buffers_ p !!! 0%nat))%nat.

(** [GetBufferPoolManager]: the index [page_id % buffers_.size()] of the
    responsible instance. The operands are brought to [size_t] (taken as 64
    bits), so a negative page id wraps before the remainder is taken. *)
Definition GetBufferPoolManager (page_id : page_id_t) (p : t) : nat :=
  Z.to_nat ((page_id `mod` 2 ^ 64) `mod` Z.of_nat (length (buffers_ p))).

(** [FetchPgImp]: the instance and the frame in it. *)
Definition FetchPgImp (page_id : page_id_t) (p : t) : option (nat * frame_id_t) * t :=
  let i := GetBufferPoolManager page_id p in
  match buffers_ p !! i with
  | None => (None, p)
  | Some b =>
      let '(r, b1, d1) := FetchPgImp page_id b (disk_manager p) in
      ((λ f, (i, f)) <$> r, mk (<[i := b1]> (buffers_ p)) (last_alloc_index_ p) d1)
  end.

(** [UnpinPgImp] *)
Definition UnpinPgImp (page_id : page_id_t) (is_dirty : bool) (p : t) : bool * t :=
  let i := GetBufferPoolManager page_id p in
  match buffers_ p !! i with
  | None => (false, p)
  | Some b =>
      let '(r, b1, d1) := UnpinPgImp page_id is_dirty b (disk_manager p) in
      (r, mk (<[i := b1]> (buffers_ p)) (last_alloc_index_ p) d1)
  end.

(** [FlushPgImp] *)
Definition FlushPgImp (page_id : page_id_t) (p : t) : bool * t :=
  let i := GetBufferPoolManager page_id p in
  match buffers_ p !! i with
  | None => (false, p)
  | Some b =>
      let '(r, b1, d1) := FlushPgImp page_id b (disk_manager p) in
      (r, mk (<[i := b1]> (buffers_ p)) (last_alloc_index_ p) d1)
  end.

(** [DeletePgImp] *)
Definition DeletePgImp (page_id : page_id_t) (p : t) : bool * t :=
  let i := GetBufferPoolManager page_id p in
  match buffers_ p !! i with
  | None => (false, p)
  | Some b =>
      let '(r, b1, d1) := DeletePgImp page_id b (disk_manager p) in
      (r, mk (<[i := b1]> (buffers_ p)) (last_alloc_index_ p) d1)
  end.

(** The loop of [FlushAllPgsImp] over [buffers_], threading the disk. *)
Fixpoint flush_each (bs : list Instance) (d : DiskManager)
  : list Instance * DiskManager :=
  match bs with
  | [] => ([], d)
  | b :: bs' =>
      let '(b1, d1) := FlushAllPgsImp b d in
      let '(bs1, d2) := flush_each bs' d1 in
      (b1 :: bs1, d2)
  end.

(** [FlushAllPgsImp] *)
Definition FlushAllPgsImp (p : t) : t :=
  let '(bs, d) := flush_each (buffers_ p) (disk_manager p) in
  mk bs (last_alloc_index_ p) d.

(** Public calls on the pool, and runs of calls. *)
Inductive op :=
| OpNewPage
| OpFetchPage (page_id : page_id_t)
| OpUnpinPage (page_id : page_id_t) (is_dirty : bool)
| OpFlushPage (page_id : page_id_t)
| OpFlushAllPages
| OpDeletePage (page_id : page_id_t).

Definition step (p : t) (o : op) : t :=
  match o with
  | OpNewPage => (NewPgImp p).2
  | OpFetchPage page_id => (FetchPgImp page_id p).2
  | OpUnpinPage page_id is_dirty => (UnpinPgImp page_id is_dirty p).2
  | OpFlushPage page_id => (FlushPgImp page_id p).2
  | OpFlushAllPages => FlushAllPgsImp p
  | OpDeletePage page_id => (DeletePgImp page_id p).2
  end.

Definition run (ops : list op) (p : t) : t := foldl step p ops.

(** The page ids handed out by the successful [NewPage] calls of a run, each
    with the index of the instance that produced it, in call order. *)
Fixpoint allocated (ops : list op) (p : t) : list (page_id_t * nat) :=
  match ops with
  | [] => []
  | o :: ops' =>
      match o, (NewPgImp p).1 with
      | OpNewPage, Some (page_id, (i, _)) => (page_id, i) :: allocated ops' (step p o)
      | _, _ => allocated ops' (step p o)
      end
  end.

(** Every instance keeps the configuration the constructor gave it. *)
Definition configured (num_instances pool_size : nat) (p : t) : Prop :=
  length (buffers_ p) = num_instances ∧
  ∀ (i : nat) b, buffers_ p !! i = Some b →
    pool_size_ b = pool_size ∧
    num_instances_ b = Z.of_nat num_instances ∧
    instance_index_ b = Z.of_nat i.

(** The allocators of a pool that can still serve [calls] further calls
    without wrapping: each counter is non-negative, in the residue class of
    its instance, and at least [calls] allocations below [2^31]. *)
Definition within_budget (num_instances calls : nat) (p : t) : Prop :=
  ∀ (i : nat) b, buffers_ p !! i = Some b →
    0 ≤ next_page_id_ b ∧
    next_page_id_ b `mod` Z.of_nat num_instances = Z.of_nat i ∧
    next_page_id_ b + Z.of_nat calls * Z.of_nat num_instances < 2 ^ 31.

End ParallelBufferPoolManager.

(** What a public call may do to the configuration of an instance: nothing,
    except that a successful [NewPage] advances the allocator. *)
Definition same_config (b b1 : Instance) : Prop :=
  pool_size_ b1 = pool_size_ b ∧
  num_instances_ b1 = num_instances_ b ∧
  instance_index_ b1 = instance_index_ b ∧
  (next_page_id_ b1 = next_page_id_ b ∨
   next_page_id_ b1 = wrap_page_id (next_page_id_ b + num_instances_ b)).

(** ** Concrete runs used as examples *)

Definition empty_disk : DiskManager := mkDisk ∅ [].

(** A single instance with one frame, not part of a pool. *)
Definition one_frame : Instance * DiskManager :=
  (BufferPoolManagerInstance 1 1 0, empty_disk).

(** [NewPage] hands out page 0 in frame 0, pinned once. *)
Definition one_frame_pinned : Instance * DiskManager :=
  run [OpNewPage] one_frame.

(** Page 0 is then unpinned: resident with pin count 0. *)
Definition one_frame_unpinned : Instance * DiskManager :=
  run [OpNewPage; OpUnpinPage 0 false] one_frame.

(** Page 0 is then deleted. *)
Definition one_frame_deleted : Instance * DiskManager :=
  run [OpNewPage; OpUnpinPage 0 false; OpDeletePage 0] one_frame.

(** * Properties *)

(** ** The replacer *)

Section replacer_facts.
Import LRUReplacer.

Lemma elem_of_erase_node f x l :
  NoDup l → x ∈ erase_node f l ↔ x ∈ l ∧ x ≠ f.
Proof.
  induction 1 as [|y l Hy Hl IH]; simpl.
  - set_solver.
  - case_decide as Hd.
    + subst y. rewrite elem_of_cons. split.
      * intros Hx. split; [by right|]. intros ->. done.
      * intros [[->|Hx] Hne]; done.
    + rewrite !elem_of_cons, IH. naive_solver.
Qed.

Lemma NoDup_erase_node f l : NoDup l → NoDup (erase_node f l).
Proof.
  induction 1 as [|y l Hy Hl IH]; simpl; [constructor|].
  case_decide; [done|]. constructor; [|done].
  rewrite elem_of_erase_node by done. tauto.
Qed.

Lemma wf_new n : wf (new n).
Proof. split; simpl; [constructor|set_solver]. Qed.

Lemma wf_empty_iff r : wf r → lru_map_ r = ∅ ↔ lru_list_ r = [].
Proof.
  intros [_ Hm]. split; intros He.
  - destruct (lru_list_ r) as [|x l] eqn:El; [done|].
    assert (x ∈ lru_map_ r) as Hx by (apply Hm; left).
    rewrite He in Hx. set_solver.
  - apply leibniz_equiv. intros f. rewrite Hm, He. set_solver.
Qed.

Lemma wf_snoc r l b :
  wf r → lru_list_ r = l ++ [b] →
  wf (mk l (lru_map_ r ∖ {[b]}) (capacity_ r)).
Proof.
  intros [Hnd Hm] El. rewrite El in Hnd, Hm.
  apply NoDup_app in Hnd as (Hl & Hdisj & _).
  split; simpl; [done|].
  intros f. rewrite elem_of_difference, Hm, elem_of_app, elem_of_singleton.
  rewrite list_elem_of_singleton.
  split; [tauto|]. intros Hf. split; [by left|].
  intros ->. apply (Hdisj b Hf). left.
Qed.

Lemma Victim_empty r : wf r → lru_list_ r = [] → Victim r = (None, r).
Proof.
  intros Hwf El. unfold Victim.
  apply (wf_empty_iff r Hwf) in El. case_decide; done.
Qed.

Lemma Victim_snoc r l b :
  wf r → lru_list_ r = l ++ [b] →
  Victim r = (Some b, mk l (lru_map_ r ∖ {[b]}) (capacity_ r)).
Proof.
  intros Hwf El. unfold Victim.
  case_decide as He.
  - apply (wf_empty_iff r Hwf) in He. rewrite El in He.
    by destruct l.
  - by rewrite El, last_snoc, removelast_last.
Qed.

Lemma wf_drop_back r : wf r → wf (drop_back r).
Proof.
  intros Hwf. unfold drop_back.
  destruct (last (lru_list_ r)) as [b|] eqn:El; [|done].
  apply last_Some in El as [l El].
  rewrite El, removelast_last. by apply wf_snoc.
Qed.

Lemma wf_Pin f r : wf r → wf (Pin f r).
Proof.
  intros [Hnd Hm]. unfold Pin. case_decide; [|done].
  split; simpl; [by apply NoDup_erase_node|].
  intros x. rewrite elem_of_difference, elem_of_singleton, Hm.
  by rewrite elem_of_erase_node.
Qed.

Lemma Pin_absent f r : wf r → f ∉ lru_list_ (Pin f r).
Proof.
  intros [Hnd Hm]. unfold Pin. case_decide as Hf; simpl.
  - rewrite elem_of_erase_node by done. tauto.
  - by rewrite <- Hm.
Qed.

Lemma Pin_elem_of f x r : wf r → x ∈ lru_list_ (Pin f r) ↔ x ∈ lru_list_ r ∧ x ≠ f.
Proof.
  intros [Hnd Hm]. unfold Pin. case_decide as Hf; simpl.
  - by rewrite elem_of_erase_node.
  - rewrite Hm in Hf. split; [|tauto]. intros Hx. split; [done|]. by intros ->.
Qed.

Lemma drop_back_elem_of x r : x ∈ lru_list_ (drop_back r) → x ∈ lru_list_ r.
Proof.
  unfold drop_back. destruct (last (lru_list_ r)) as [b|] eqn:El; [|done].
  apply last_Some in El as [l El]. simpl.
  rewrite El, removelast_last, elem_of_app. tauto.
Qed.

Lemma wf_Unpin f r : wf r → wf (Unpin f r).
Proof.
  intros Hwf. unfold Unpin. case_decide as Hf; [done|].
  set (r1 := if decide (capacity_ r ≤ Size r)%nat then drop_back r else r).
  assert (wf r1) as [Hnd1 Hm1].
  { unfold r1. case_decide; [by apply wf_drop_back|done]. }
  assert (f ∉ lru_list_ r1) as Hf1.
  { intros Hin. apply Hf, Hwf. unfold r1 in Hin.
    case_decide; [by apply drop_back_elem_of|done]. }
  split; simpl.
  - by constructor.
  - intros x. rewrite elem_of_union, elem_of_singleton, elem_of_cons, Hm1. done.
Qed.

Lemma Unpin_elem_of f x r :
  x ∈ lru_list_ (Unpin f r) → x = f ∨ x ∈ lru_list_ r.
Proof.
  unfold Unpin. case_decide; [by right|]. simpl.
  rewrite elem_of_cons. intros [->|Hx]; [by left|right].
  case_decide; [by apply drop_back_elem_of|done].
Qed.

(** Below capacity, [Unpin] of an absent frame is a push at the front. *)
Lemma Unpin_push f r :
  wf r → f ∉ lru_list_ r → (Size r < capacity_ r)%nat →
  Unpin f r = mk (f :: lru_list_ r) ({[f]} ∪ lru_map_ r) (capacity_ r).
Proof.
  intros [_ Hm] Hf Hlt. unfold Unpin.
  case_decide as Hin; [by apply Hm in Hin|].
  case_decide; [lia|done].
Qed.

Lemma unpin_all_push fs : ∀ r,
  wf r → NoDup fs → (∀ f, f ∈ fs → f ∉ lru_list_ r) →
  (Size r + length fs ≤ capacity_ r)%nat →
  wf (unpin_all fs r) ∧
  lru_list_ (unpin_all fs r) = rev fs ++ lru_list_ r ∧
  capacity_ (unpin_all fs r) = capacity_ r.
Proof.
  induction fs as [|f fs IH]; intros r Hwf Hnd Habs Hcap; simpl in *.
  - done.
  - apply NoDup_cons in Hnd as [Hf Hnd].
    assert (f ∉ lru_list_ r) as Hfr by (apply Habs; left).
    unfold Size in *.
    rewrite Unpin_push by (done || unfold Size; lia).
    set (r1 := mk _ _ _).
    destruct (IH r1) as (Hw & Hl & Hc).
    + unfold r1. rewrite <- Unpin_push by (done || unfold Size; lia).
      by apply wf_Unpin.
    + done.
    + intros x Hx. simpl. rewrite not_elem_of_cons. split.
      * by intros ->.
      * apply Habs. by right.
    + simpl. lia.
    + split; [done|]. split; [|done].
      rewrite Hl. simpl. by rewrite <- app_assoc.
Qed.

(** Draining a well-formed replacer answers its list from the back. *)
Lemma victims_drain l : ∀ r,
  wf r → lru_list_ r = l →
  (victims (length l) r).1 = Some <$> rev l ∧
  lru_list_ (victims (length l) r).2 = [].
Proof.
  induction l as [|b l IH] using rev_ind; intros r Hwf El.
  - simpl. done.
  - rewrite length_app, Nat.add_comm. simpl.
    rewrite (Victim_snoc r l b Hwf El).
    set (r1 := mk _ _ _).
    destruct (IH r1) as [Hv Hl]; [by eapply wf_snoc|done|].
    destruct (victims (length l) r1) as [vs r2]. simpl in *.
    rewrite rev_app_distr. simpl. by rewrite Hv.
Qed.

(** Frame ids below the capacity always fit: the guard of [Unpin] does not
    fire when the replacer is used for the frames of a pool of that size. *)
Lemma valid_frames_fit r fs :
  wf r → NoDup fs → (∀ f, f ∈ fs → f ∉ lru_list_ r) →
  (∀ f, f ∈ fs ∨ f ∈ lru_list_ r → (f < capacity_ r)%nat) →
  (Size r + length fs ≤ capacity_ r)%nat.
Proof.
  intros [Hnd _] Hfs Habs Hlt. unfold Size.
  assert (NoDup (fs ++ lru_list_ r)) as Hall.
  { apply NoDup_app. split; [done|]. split; [|done]. intros f Hf. by apply Habs. }
  assert (fs ++ lru_list_ r ⊆+ seq 0 (capacity_ r)) as Hsub.
  { apply NoDup_submseteq; [done|]. intros f Hf. apply elem_of_seq.
    apply elem_of_app in Hf. specialize (Hlt f Hf). lia. }
  apply submseteq_length in Hsub.
  rewrite length_app, length_seq in Hsub. lia.
Qed.

End replacer_facts.

(** C6. [Victim] answers "no victim" exactly on an empty list and otherwise
    unlinks and answers the back element. On a replacer used for the frames
    of its pool (every frame id is below the capacity, which is the pool
    size), a run of [Unpin] calls on distinct absent frames in the order of
    [fs], followed by a drain, answers the frames tracked before (back
    first) and then [fs] in the same order; on a replacer that was empty the
    [length fs] calls of the drain answer exactly [fs] and leave it empty. *)
Theorem LRU_victim_order_within_capacity (r : LRUReplacer.t) (fs : list frame_id_t) :
  LRUReplacer.wf r →
  NoDup fs →
  (∀ f, f ∈ fs → f ∉ LRUReplacer.lru_list_ r) →
  (∀ f, f ∈ fs ∨ f ∈ LRUReplacer.lru_list_ r → (f < LRUReplacer.capacity_ r)%nat) →
  ((LRUReplacer.Victim r).1 = None ↔ LRUReplacer.lru_list_ r = []) ∧
  (∀ l b, LRUReplacer.lru_list_ r = l ++ [b] →
          (LRUReplacer.Victim r).1 = Some b ∧
          LRUReplacer.lru_list_ (LRUReplacer.Victim r).2 = l ∧
          LRUReplacer.wf (LRUReplacer.Victim r).2) ∧
  (LRUReplacer.victims (LRUReplacer.Size r + length fs) (LRUReplacer.unpin_all fs r)).1
    = Some <$> (rev (LRUReplacer.lru_list_ r) ++ fs) ∧
  (LRUReplacer.lru_list_ r = [] →
   (LRUReplacer.victims (length fs) (LRUReplacer.unpin_all fs r)).1 = Some <$> fs ∧
   LRUReplacer.lru_list_ (LRUReplacer.victims (length fs) (LRUReplacer.unpin_all fs r)).2 = []).
Proof.
  intros Hwf Hnd Habs Hdom.
  pose proof (valid_frames_fit r fs Hwf Hnd Habs Hdom) as Hcap.
  destruct (unpin_all_push fs r Hwf Hnd Habs Hcap) as (Hw & Hl & _).
  assert (length (LRUReplacer.lru_list_ (LRUReplacer.unpin_all fs r))
          = (LRUReplacer.Size r + length fs)%nat) as Hlen.
  { rewrite Hl, length_app, length_rev. unfold LRUReplacer.Size. lia. }
  destruct (victims_drain _ _ Hw eq_refl) as [Hv He].
  rewrite Hlen in Hv, He.
  split; [|split; [|split]].
  - split.
    + intros Hn. destruct (LRUReplacer.lru_list_ r) as [|x l] eqn:El using rev_ind; [done|].
      rewrite (Victim_snoc r l x Hwf El) in Hn. done.
    + intros El. by rewrite Victim_empty.
  - intros l b El. rewrite (Victim_snoc r l b Hwf El). simpl.
    split; [done|]. split; [done|]. by apply wf_snoc.
  - rewrite Hv, Hl, rev_app_distr, rev_involutive. done.
  - intros El. unfold LRUReplacer.Size in *. rewrite El in *. simpl in *.
    rewrite Hv, Hl, app_nil_r, rev_involutive. done.
Qed.

Lemma LRU_victim_order_within_capacity_witness :
  (LRUReplacer.victims 3 (LRUReplacer.unpin_all [5; 1; 3]%nat (LRUReplacer.new 7))).1
  = [Some 5; Some 1; Some 3]%nat.
Proof.
  refine (proj1 (proj2 (proj2 (proj2
    (LRU_victim_order_within_capacity (LRUReplacer.new 7) [5; 1; 3]%nat
       (wf_new 7) _ _ _))) eq_refl)).
  - compute_done.
  - intros f _. simpl. apply not_elem_of_nil.
  - intros f [Hf|Hf]; simpl in *.
    + repeat (apply elem_of_cons in Hf as [->|Hf]; [lia|]).
      by apply not_elem_of_nil in Hf.
    + by apply not_elem_of_nil in Hf.
Defined.

(** ** The invariant of an instance *)

Lemma page_at_store f g p s :
  page_at (store_page f p s) g
  = if decide (g = f ∧ (f < length (pages_ s))%nat) then p else page_at s g.
Proof.
  unfold page_at, store_page. simpl. case_decide as Hd.
  - destruct Hd as [-> Hlt]. by apply list_lookup_total_insert_eq.
  - destruct (decide (g = f)) as [->|Hne].
    + rewrite list_insert_ge; [done|]. apply Nat.nlt_ge. intros Hlt. by apply Hd.
    + by apply list_lookup_total_insert_ne.
Qed.

Lemma page_at_store_eq f p s :
  (f < length (pages_ s))%nat → page_at (store_page f p s) f = p.
Proof. intros Hlt. rewrite page_at_store. case_decide; [done|]. naive_solver. Qed.

Lemma page_at_store_ne f g p s :
  g ≠ f → page_at (store_page f p s) g = page_at s g.
Proof. intros Hne. rewrite page_at_store. case_decide; [|done]. naive_solver. Qed.

Lemma inv_fresh pool_size n i : inv (BufferPoolManagerInstance pool_size n i).
Proof.
  split; simpl.
  - by rewrite length_replicate.
  - apply NoDup_seq.
  - intros f Hf. apply elem_of_seq in Hf. split; [lia|]. split.
    + unfold page_at. simpl. rewrite lookup_total_replicate_2 by lia. done.
    + intros [p Hp]. simpl in Hp. by rewrite lookup_empty in Hp.
  - intros p f Hp. by rewrite lookup_empty in Hp.
  - apply wf_new.
  - intros f Hf. unfold in_replacer in Hf. simpl in Hf. by apply not_elem_of_nil in Hf.
Qed.

(** What [FindPage] hands out: an unpinned, unmapped frame outside the free
    list, with the frame array untouched. *)
Lemma FindPage_Some s d f s1 d1 :
  inv s → FindPage s d = (Some f, s1, d1) →
  inv s1 ∧ (f < pool_size_ s1)%nat ∧ pin_count_ (page_at s1 f) = 0 ∧
  ¬ resident s1 f ∧ f ∉ free_list_ s1 ∧
  pages_ s1 = pages_ s ∧ pool_size_ s1 = pool_size_ s ∧
  num_instances_ s1 = num_instances_ s ∧ instance_index_ s1 = instance_index_ s ∧
  next_page_id_ s1 = next_page_id_ s.
Proof.
  intros Hinv Hfp. unfold FindPage in Hfp.
  destruct (free_list_ s) as [|f0 rest] eqn:Efl.
  - destruct (LRUReplacer.Victim (replacer_ s)) as [[v|] r] eqn:Ev; [|done].
    injection Hfp as <- <- <-. simpl.
    destruct (LRUReplacer.lru_list_ (replacer_ s)) as [|b l _] eqn:El using rev_ind.
    { rewrite Victim_empty in Ev by (done || apply Hinv). done. }
    rewrite (Victim_snoc _ l b) in Ev by (done || apply Hinv).
    injection Ev as <- <-.
    assert (in_replacer s b) as Hb.
    { unfold in_replacer. rewrite El. apply elem_of_app. right. left. }
    destruct (inv_replacer s Hinv b Hb) as [Hlt Hpin].
    split; [|split; [done|split; [done|split; [|split]]]].
    + split; simpl.
      * apply Hinv.
      * rewrite Efl. constructor.
      * rewrite Efl. intros f Hf. by apply not_elem_of_nil in Hf.
      * intros p f Hp. apply lookup_delete_Some in Hp as [_ Hp].
        by apply (inv_table s Hinv).
      * eapply wf_snoc; [apply Hinv|done].
      * intros f Hf. apply (inv_replacer s Hinv). unfold in_replacer in *. simpl in Hf.
        rewrite El. apply elem_of_app. by left.
    + intros [p Hp]. simpl in Hp. apply lookup_delete_Some in Hp as [Hne Hp].
      apply (inv_table s Hinv) in Hp as [_ Hp]. done.
    + simpl. rewrite Efl. apply not_elem_of_nil.
    + done.
  - injection Hfp as <- <- <-. simpl.
    pose proof (inv_free_nodup s Hinv) as Hnd. rewrite Efl in Hnd.
    apply NoDup_cons in Hnd as [Hf0 Hnd].
    destruct (inv_free s Hinv f0) as (Hlt & Hpin & Hres); [rewrite Efl; left|].
    split; [|done].
    split; simpl; try apply Hinv; [done|].
    intros f Hf. apply (inv_free s Hinv). rewrite Efl. by right.
Qed.

Lemma FindPage_None s d s1 d1 :
  FindPage s d = (None, s1, d1) →
  s1 = s ∧ d1 = d ∧ free_list_ s = [] ∧ (LRUReplacer.Victim (replacer_ s)).1 = None.
Proof.
  unfold FindPage. destruct (free_list_ s) as [|f0 rest]; [|done].
  destruct (LRUReplacer.Victim (replacer_ s)) as [[v|] r] eqn:Ev; [done|].
  intros [= <- <-]. split; [|done].
  assert (r = replacer_ s) as ->.
  { unfold LRUReplacer.Victim in Ev. case_decide; [congruence|].
    destruct (last _); congruence. }
  by destruct s.
Qed.

(** Rewriting one frame of a state that satisfies the invariant. The frame
    keeps its [page_id_] when mapped and its pin count when free or tracked
    by the replacer. *)
Lemma inv_store_page f p s :
  inv s →
  (resident s f → page_id_ p = page_id_ (page_at s f)) →
  (f ∈ free_list_ s ∨ in_replacer s f → pin_count_ p = 0) →
  inv (store_page f p s).
Proof.
  intros Hinv Hid Hpin. split; simpl.
  - rewrite length_insert. apply Hinv.
  - apply Hinv.
  - intros g Hg. destruct (inv_free s Hinv g Hg) as (Hlt & Hp & Hres).
    split; [done|]. split; [|done].
    rewrite page_at_store. case_decide as Hd; [|done].
    destruct Hd as [-> _]. apply Hpin. by left.
  - intros q g Hq. destruct (inv_table s Hinv q g Hq) as (Hlt & Hp).
    split; [done|]. rewrite page_at_store. case_decide as Hd; [|done].
    destruct Hd as [-> _]. rewrite Hid; [done|]. by exists q.
  - apply Hinv.
  - intros g Hg. destruct (inv_replacer s Hinv g Hg) as (Hlt & Hp).
    split; [done|]. rewrite page_at_store. case_decide as Hd; [|done].
    destruct Hd as [-> _]. apply Hpin. by right.
Qed.

(** Handing a frame obtained from [FindPage] to page [page_id]. *)
Lemma inv_install f page_id p s :
  inv s → (f < pool_size_ s)%nat → ¬ resident s f → f ∉ free_list_ s →
  page_id_ p = page_id →
  inv (set_replacer
         (LRUReplacer.Pin f (replacer_ s))
         (set_page_table (<[page_id := f]> (page_table_ s)) (store_page f p s))).
Proof.
  intros Hinv Hlt Hres Hfree Hp.
  assert (length (pages_ s) = pool_size_ s) as Hlen by apply Hinv.
  split; simpl.
  - rewrite length_insert. apply Hinv.
  - apply Hinv.
  - intros g Hg. destruct (inv_free s Hinv g Hg) as (Hglt & Hgp & Hgres).
    assert (g ≠ f) as Hne by (by intros ->).
    split; [done|]. split.
    + change (pin_count_ (page_at (store_page f p s) g) = 0).
      by rewrite page_at_store_ne.
    + intros [q Hq]. simpl in Hq. apply lookup_insert_Some in Hq as [[_ ->]|[_ Hq]].
      * done.
      * apply Hgres. by exists q.
  - intros q g Hq. apply lookup_insert_Some in Hq as [[<- <-]|[Hne Hq]].
    + split; [done|].
      change (page_id_ (page_at (store_page f p s) f) = page_id).
      rewrite page_at_store_eq; [done|lia].
    + destruct (inv_table s Hinv q g Hq) as (Hglt & Hgp). split; [done|].
      change (page_id_ (page_at (store_page f p s) g) = q).
      rewrite page_at_store_ne; [done|]. intros ->. apply Hres. by exists q.
  - apply wf_Pin, Hinv.
  - intros g Hg. unfold in_replacer in Hg. simpl in Hg.
    apply Pin_elem_of in Hg as [Hg Hne]; [|apply Hinv].
    destruct (inv_replacer s Hinv g Hg) as (Hglt & Hgp). split; [done|].
    change (pin_count_ (page_at (store_page f p s) g) = 0).
    by rewrite page_at_store_ne.
Qed.

Lemma inv_unmap page_id s :
  inv s → inv (set_page_table (delete page_id (page_table_ s)) s).
Proof.
  intros Hinv. split; simpl; try apply Hinv.
  - intros g Hg. destruct (inv_free s Hinv g Hg) as (Hglt & Hgp & Hgres).
    split; [done|]. split; [done|]. intros [q Hq]. simpl in Hq.
    apply lookup_delete_Some in Hq as [_ Hq]. apply Hgres. by exists q.
  - intros q g Hq. apply lookup_delete_Some in Hq as [_ Hq].
    by apply (inv_table s Hinv).
Qed.

Lemma resident_unmap page_id s f :
  resident (set_page_table (delete page_id (page_table_ s)) s) f → resident s f.
Proof.
  intros [q Hq]. simpl in Hq. apply lookup_delete_Some in Hq as [_ Hq]. by exists q.
Qed.

Lemma inv_NewPgImp s d : inv s → inv (NewPgImp s d).1.2.
Proof.
  intros Hinv. unfold NewPgImp.
  destruct (FindPage s d) as [[[f|] s1] d1] eqn:Efp; simpl.
  - apply FindPage_Some in Efp as (Hinv1 & Hlt & Hpin & Hres & Hfree & _); [|done].
    assert (inv (set_next_page_id (wrap_page_id (next_page_id_ s1 + num_instances_ s1)) s1))
      as Hinv2.
    { destruct Hinv1. by split. }
    by apply (inv_install f (next_page_id_ s1) _ _ Hinv2).
  - apply FindPage_None in Efp as (-> & _). done.
Qed.

(** Rewriting one frame and taking it out of the replacer. *)
Lemma inv_store_Pin f p s :
  inv s →
  (resident s f → page_id_ p = page_id_ (page_at s f)) →
  (f ∈ free_list_ s → pin_count_ p = 0) →
  inv (set_replacer (LRUReplacer.Pin f (replacer_ s)) (store_page f p s)).
Proof.
  intros Hinv Hid Hpin. split; simpl.
  - rewrite length_insert. apply Hinv.
  - apply Hinv.
  - intros g Hg. destruct (inv_free s Hinv g Hg) as (Hlt & Hp & Hres).
    split; [done|]. split; [|done].
    change (pin_count_ (page_at (store_page f p s) g) = 0).
    rewrite page_at_store. case_decide as Hd; [|done].
    destruct Hd as [-> _]. by apply Hpin.
  - intros q g Hq. destruct (inv_table s Hinv q g Hq) as (Hlt & Hp).
    split; [done|].
    change (page_id_ (page_at (store_page f p s) g) = q).
    rewrite page_at_store. case_decide as Hd; [|done].
    destruct Hd as [-> _]. rewrite Hid; [done|]. by exists q.
  - apply wf_Pin, Hinv.
  - intros g Hg. unfold in_replacer in Hg. simpl in Hg.
    apply Pin_elem_of in Hg as [Hg Hne]; [|apply Hinv].
    destruct (inv_replacer s Hinv g Hg) as (Hlt & Hp). split; [done|].
    change (pin_count_ (page_at (store_page f p s) g) = 0).
    by rewrite page_at_store_ne.
Qed.

Lemma inv_FetchPgImp page_id s d : inv s → inv (FetchPgImp page_id s d).1.2.
Proof.
  intros Hinv. unfold FetchPgImp.
  destruct (page_table_ s !! page_id) as [f|] eqn:Ept; simpl.
  - apply inv_store_Pin; [done|done|].
    intros Hf. destruct (inv_free s Hinv f Hf) as (_ & _ & Hres).
    destruct Hres. by exists page_id.
  - destruct (FindPage s d) as [[[f|] s1] d1] eqn:Efp; simpl.
    + apply FindPage_Some in Efp as (Hinv1 & Hlt & Hpin & Hres & Hfree & _); [|done].
      set (old := page_id_ (page_at s1 f)).
      match goal with
      | |- inv (set_replacer _ (store_page _ ?p _)) =>
          exact (inv_install f page_id p
                   (set_page_table (delete old (page_table_ s1)) s1)
                   (inv_unmap old s1 Hinv1) Hlt
                   (λ Hr, Hres (resident_unmap old s1 f Hr)) Hfree eq_refl)
      end.
    + apply FindPage_None in Efp as (-> & _). done.
Qed.

Lemma inv_UnpinPgImp page_id is_dirty s d :
  inv s → inv (UnpinPgImp page_id is_dirty s d).1.2.
Proof.
  intros Hinv. unfold UnpinPgImp.
  destruct (page_table_ s !! page_id) as [f|] eqn:Ept; simpl; [|done].
  destruct (inv_table s Hinv page_id f Ept) as [Hlt Hid].
  assert (length (pages_ s) = pool_size_ s) as Hlen by apply Hinv.
  set (p1 := if is_dirty then set_is_dirty true (page_at s f) else page_at s f).
  assert (page_id_ p1 = page_id_ (page_at s f) ∧
          pin_count_ p1 = pin_count_ (page_at s f)) as [Hp1 Hp1'].
  { unfold p1. by destruct is_dirty. }
  assert (inv (store_page f p1 s)) as Hinv1.
  { apply inv_store_page; [done|done|].
    intros [Hf|Hf]; rewrite Hp1'.
    - by apply (inv_free s Hinv).
    - by apply (inv_replacer s Hinv). }
  case_decide as Hz; simpl; [done|].
  assert (f ∉ free_list_ s) as Hfree.
  { intros Hf. destruct (inv_free s Hinv f Hf) as (_ & _ & Hres).
    apply Hres. by exists page_id. }
  assert (¬ in_replacer s f) as Hrep.
  { intros Hf. apply (inv_replacer s Hinv) in Hf as [_ Hf]. congruence. }
  set (p2 := set_pin_count (pin_count_ p1 - 1) p1).
  assert (inv (store_page f p2 (store_page f p1 s))) as Hinv2.
  { apply inv_store_page; [done| |].
    - intros _. rewrite page_at_store_eq by lia. done.
    - intros [Hf|Hf]; done. }
  case_decide as Hz2; [|done].
  split; simpl; try apply Hinv2.
  - apply wf_Unpin, Hinv2.
  - intros g Hg. unfold in_replacer in Hg. simpl in Hg.
    apply Unpin_elem_of in Hg as [->|Hg].
    + split; [done|].
      change (pin_count_ (page_at (store_page f p2 (store_page f p1 s)) f) = 0).
      rewrite page_at_store_eq; [done|]. simpl. rewrite length_insert. lia.
    + by apply (inv_replacer _ Hinv2).
Qed.

Lemma inv_FlushPgImp page_id s d : inv s → inv (FlushPgImp page_id s d).1.2.
Proof.
  intros Hinv. unfold FlushPgImp.
  destruct (page_table_ s !! page_id) as [f|] eqn:Ept; simpl; [|done].
  case_decide; simpl; [done|].
  apply inv_store_page; [done|done|].
  intros [Hf|Hf]; simpl.
  - by apply (inv_free s Hinv).
  - by apply (inv_replacer s Hinv).
Qed.

Lemma inv_FlushAllPgsImp s d : inv s → inv (FlushAllPgsImp s d).1.
Proof.
  unfold FlushAllPgsImp. generalize (map_to_list (page_table_ s)). intros l.
  revert s d. induction l as [|[q f] l IH]; intros s d Hinv; simpl; [done|].
  apply IH. apply inv_store_page; [done|done|].
  intros [Hf|Hf]; simpl.
  - by apply (inv_free s Hinv).
  - by apply (inv_replacer s Hinv).
Qed.

Lemma inv_DeletePgImp page_id s d : inv s → inv (DeletePgImp page_id s d).1.2.
Proof.
  intros Hinv. unfold DeletePgImp.
  destruct (page_table_ s !! page_id) as [f|] eqn:Ept; simpl; [|done].
  case_decide as Hpin; simpl; [done|].
  destruct (inv_table s Hinv page_id f Ept) as [Hlt Hid].
  assert (length (pages_ s) = pool_size_ s) as Hlen by apply Hinv.
  assert (f ∉ free_list_ s) as Hfree.
  { intros Hf. destruct (inv_free s Hinv f Hf) as (_ & _ & Hres).
    apply Hres. by exists page_id. }
  assert (¬ resident (set_page_table (delete page_id (page_table_ s)) s) f) as Hres.
  { intros [q Hq]. simpl in Hq. apply lookup_delete_Some in Hq as [Hne Hq].
    apply (inv_table s Hinv) in Hq as [_ Hq]. congruence. }
  set (s1 := set_page_table (delete page_id (page_table_ s)) s) in *.
  set (p := set_is_dirty false _).
  assert (inv (store_page f p s1)) as Hinv2.
  { apply inv_store_page; [by apply inv_unmap|done|done]. }
  split; simpl; try apply Hinv2.
  - apply NoDup_app. split; [apply Hinv|]. split.
    + intros x Hx Hx'. apply list_elem_of_singleton in Hx' as ->. done.
    + apply NoDup_singleton.
  - intros g Hg. apply elem_of_app in Hg as [Hg|Hg].
    + by apply (inv_free _ Hinv2).
    + apply list_elem_of_singleton in Hg as ->. split; [done|]. split.
      * change (pin_count_ (page_at (store_page f p s1) f) = 0).
        rewrite page_at_store_eq; [done|]. simpl. lia.
      * done.
Qed.

Lemma inv_step sd o : inv sd.1 → inv (step sd o).1.
Proof.
  destruct sd as [s d]. simpl. intros Hinv. destruct o; simpl.
  - pose proof (inv_NewPgImp s d Hinv). by destruct (NewPgImp s d) as [[? ?] ?].
  - pose proof (inv_FetchPgImp page_id s d Hinv).
    by destruct (FetchPgImp page_id s d) as [[? ?] ?].
  - pose proof (inv_UnpinPgImp page_id is_dirty s d Hinv).
    by destruct (UnpinPgImp page_id is_dirty s d) as [[? ?] ?].
  - pose proof (inv_FlushPgImp page_id s d Hinv).
    by destruct (FlushPgImp page_id s d) as [[? ?] ?].
  - by apply inv_FlushAllPgsImp.
  - pose proof (inv_DeletePgImp page_id s d Hinv).
    by destruct (DeletePgImp page_id s d) as [[? ?] ?].
  - case_decide as Hpin; simpl; [|done].
    apply inv_store_page; [done|done|].
    intros [Hf|Hf]; simpl.
    + by apply (inv_free s Hinv).
    + by apply (inv_replacer s Hinv).
Qed.

Lemma inv_run ops : ∀ sd, inv sd.1 → inv (run ops sd).1.
Proof.
  induction ops as [|o ops IH]; intros sd Hinv; simpl; [done|].
  apply IH. by apply inv_step.
Qed.

Lemma reachable_inv s d : reachable s d → inv s.
Proof.
  intros (ps & n & i & d0 & ops & _ & _ & Hrun).
  pose proof (inv_run ops (BufferPoolManagerInstance ps n i, d0) (inv_fresh ps n i)) as H.
  by rewrite Hrun in H.
Qed.

Lemma reachable_run ops pool_size n i d0 :
  0 < n → 0 ≤ i < n →
  reachable (run ops (BufferPoolManagerInstance pool_size n i, d0)).1
            (run ops (BufferPoolManagerInstance pool_size n i, d0)).2.
Proof.
  intros Hn Hi. exists pool_size, n, i, d0, ops.
  split; [done|]. split; [done|]. by destruct (run _ _).
Qed.

(** ** The scenarios of the specification, run on the model *)

(** S1, fill and evict, with three frames: three pages are handed out, the
    fourth [NewPage] fails, and after [UnpinPage(0, false)] a new page takes
    frame 0; page 0 is gone and cannot be fetched while every frame is
    pinned. *)
Example scenario_fill_and_evict :
  answers [OpNewPage; OpNewPage; OpNewPage; OpNewPage;
           OpUnpinPage 0 false; OpNewPage; OpFetchPage 0]
          (BufferPoolManagerInstance 3 1 0, empty_disk)
  = [RetNewPage (Some (0, 0%nat)); RetNewPage (Some (1, 1%nat));
     RetNewPage (Some (2, 2%nat)); RetNewPage None;
     RetBool true; RetNewPage (Some (3, 0%nat)); RetFetchPage None].
Proof. vm_compute. reflexivity. Qed.

(** S3, delete pinned: the delete is refused while the page is pinned and
    goes through after the unpin; the page can be fetched again. *)
Example scenario_delete_pinned :
  answers [OpNewPage; OpDeletePage 0; OpUnpinPage 0 false; OpDeletePage 0; OpFetchPage 0]
          (BufferPoolManagerInstance 3 1 0, empty_disk)
  = [RetNewPage (Some (0, 0%nat)); RetBool false; RetBool true; RetBool true;
     RetFetchPage (Some 1%nat)].
Proof. vm_compute. reflexivity. Qed.

(** S2, dirty write-back, with one frame: the bytes written into page 0 come
    back after page 0 was evicted by page 1 and fetched again. *)
Example scenario_dirty_writeback :
  let buf := replicate PAGE_SIZE "A"%byte in
  let sd := run [OpNewPage; OpWriteData 0%nat buf; OpUnpinPage 0 true;
                 OpNewPage; OpUnpinPage 1 false; OpFetchPage 0]
                (BufferPoolManagerInstance 1 1 0, empty_disk) in
  pages_ sd.1 !! 0%nat = Some (mkPage 0 1 false buf).
Proof. vm_compute. reflexivity. Qed.

(** S6, unpin of a page the pool never saw. *)
Example scenario_unpin_non_resident :
  UnpinPgImp 42 false (BufferPoolManagerInstance 3 1 0) empty_disk
  = (false, BufferPoolManagerInstance 3 1 0, empty_disk).
Proof. vm_compute. reflexivity. Qed.

(** ** C1: replacer membership *)

(** C1 on the run [NewPage; UnpinPage(0, false); DeletePage(0)] of a
    one-frame instance: [DeletePgImp] pushes frame 0 on the free list and
    leaves it in the replacer, so frame 0 is tracked by the replacer although
    it is not resident. *)
Theorem DeletePage_leaves_frame_in_replacer :
  let s := one_frame_deleted.1 in
  reachable s one_frame_deleted.2 ∧
  in_replacer s 0%nat ∧
  free_list_ s = [0%nat] ∧
  ¬ resident s 0%nat ∧
  ¬ (in_replacer s 0%nat ↔ resident s 0%nat ∧ pin_count_ (page_at s 0%nat) = 0).
Proof.
  assert (page_table_ one_frame_deleted.1 = ∅) as Hpt by (vm_compute; reflexivity).
  assert (in_replacer one_frame_deleted.1 0%nat) as Hrep.
  { unfold in_replacer.
    replace (LRUReplacer.lru_list_ (replacer_ one_frame_deleted.1)) with [0%nat]
      by (vm_compute; reflexivity).
    left. }
  assert (¬ resident one_frame_deleted.1 0%nat) as Hres.
  { intros [p Hp]. rewrite Hpt in Hp. by rewrite lookup_empty in Hp. }
  simpl. split; [|split; [done|split; [|split; [done|]]]].
  - apply reachable_run; lia.
  - vm_compute. reflexivity.
  - intros [Hiff _]. by apply Hres, Hiff.
Qed.

(** ** C2: the round-robin cursor *)

Lemma probe_cursor k : ∀ i p,
  ParallelBufferPoolManager.buffers_ p ≠ [] →
  ParallelBufferPoolManager.last_alloc_index_ (ParallelBufferPoolManager.probe k i p).2
  = ((ParallelBufferPoolManager.last_alloc_index_ p + 1)
       `mod` length (ParallelBufferPoolManager.buffers_ p))%nat ∧
  length (ParallelBufferPoolManager.buffers_ (ParallelBufferPoolManager.probe k i p).2)
  = length (ParallelBufferPoolManager.buffers_ p).
Proof.
  induction k as [|k IH]; intros i p Hne; simpl; [done|].
  assert (length (ParallelBufferPoolManager.buffers_ p) ≠ 0)%nat as Hlen.
  { destruct (ParallelBufferPoolManager.buffers_ p); [done|simpl; lia]. }
  set (n := length (ParallelBufferPoolManager.buffers_ p)) in *.
  destruct (lookup_lt_is_Some_2 (ParallelBufferPoolManager.buffers_ p) (i `mod` n)%nat)
    as [b Hb].
  { apply Nat.mod_upper_bound. done. }
  rewrite Hb.
  destruct (NewPgImp b (ParallelBufferPoolManager.disk_manager p))
    as [[[[page_id frame_id]|] b1] d1]; simpl.
  - by rewrite length_insert.
  - destruct (IH (S i)
      (ParallelBufferPoolManager.mk
         (<[(i `mod` n)%nat := b1]> (ParallelBufferPoolManager.buffers_ p))
         (ParallelBufferPoolManager.last_alloc_index_ p) d1)) as [Hc Hl].
    + simpl. intros Hnil. apply (f_equal length) in Hnil.
      rewrite length_insert in Hnil. simpl in Hnil. done.
    + simpl in *. rewrite length_insert in Hc, Hl. done.
Qed.

(** C2. With at least one instance, every call of the pool's [NewPgImp]
    leaves the cursor at [(last_alloc_index_ + 1) mod num_instances],
    whatever the outcome of the call, and keeps the number of instances. *)
Theorem Pool_NewPage_advances_cursor_by_one (p : ParallelBufferPoolManager.t) :
  ParallelBufferPoolManager.buffers_ p ≠ [] →
  ParallelBufferPoolManager.last_alloc_index_ (ParallelBufferPoolManager.NewPgImp p).2
  = ((ParallelBufferPoolManager.last_alloc_index_ p + 1)
       `mod` length (ParallelBufferPoolManager.buffers_ p))%nat ∧
  length (ParallelBufferPoolManager.buffers_ (ParallelBufferPoolManager.NewPgImp p).2)
  = length (ParallelBufferPoolManager.buffers_ p).
Proof. intros Hne. by apply probe_cursor. Qed.

Lemma Pool_NewPage_advances_cursor_by_one_witness :
  let p := ParallelBufferPoolManager.new 2 1 empty_disk in
  ParallelBufferPoolManager.last_alloc_index_ (ParallelBufferPoolManager.NewPgImp p).2
  = ((ParallelBufferPoolManager.last_alloc_index_ p + 1)
       `mod` length (ParallelBufferPoolManager.buffers_ p))%nat ∧
  length (ParallelBufferPoolManager.buffers_ (ParallelBufferPoolManager.NewPgImp p).2)
  = length (ParallelBufferPoolManager.buffers_ p).
Proof.
  apply (Pool_NewPage_advances_cursor_by_one
           (ParallelBufferPoolManager.new 2 1 empty_disk)).
  simpl. discriminate.
Defined.

(** The cursor over three calls on a pool of two one-frame instances: the
    first two calls succeed (in instances 0 and 1), the third finds every
    frame pinned; the cursor reads 1, 0, 1. *)
Example pool_cursor_trace :
  let p0 := ParallelBufferPoolManager.new 2 1 empty_disk in
  let r1 := ParallelBufferPoolManager.NewPgImp p0 in
  let r2 := ParallelBufferPoolManager.NewPgImp r1.2 in
  let r3 := ParallelBufferPoolManager.NewPgImp r2.2 in
  (r1.1, ParallelBufferPoolManager.last_alloc_index_ r1.2) = (Some (0, (0%nat, 0%nat)), 1%nat) ∧
  (r2.1, ParallelBufferPoolManager.last_alloc_index_ r2.2) = (Some (1, (1%nat, 0%nat)), 0%nat) ∧
  (r3.1, ParallelBufferPoolManager.last_alloc_index_ r3.2) = (None, 1%nat).
Proof. vm_compute. done. Qed.

(** ** C3: UnpinPage *)

(** C3, as stated, fails on a resident page whose pin count is already zero:
    [UnpinPgImp] sets the dirty bit before it tests the pin count, so
    [UnpinPage(0, true)] answers [false] and yet turns the clean frame 0
    dirty. *)
Lemma UnpinPage_false_sets_dirty_counterexample :
  let s := one_frame_unpinned.1 in
  let d := one_frame_unpinned.2 in
  reachable s d ∧
  page_table_ s !! 0 = Some 0%nat ∧
  pin_count_ (page_at s 0%nat) = 0 ∧
  is_dirty_ (page_at s 0%nat) = false ∧
  (UnpinPgImp 0 true s d).1.1 = false ∧
  is_dirty_ (page_at (UnpinPgImp 0 true s d).1.2 0%nat) = true ∧
  (UnpinPgImp 0 true s d).1.2 ≠ s.
Proof.
  assert (is_dirty_ (page_at one_frame_unpinned.1 0%nat) = false) as Hc
    by (vm_compute; reflexivity).
  assert (is_dirty_ (page_at (UnpinPgImp 0 true one_frame_unpinned.1
                                one_frame_unpinned.2).1.2 0%nat) = true) as Hd
    by (vm_compute; reflexivity).
  simpl. split; [apply reachable_run; lia|].
  split; [vm_compute; reflexivity|]. split; [vm_compute; reflexivity|].
  split; [done|]. split; [vm_compute; reflexivity|]. split; [done|].
  intros Heq. rewrite Heq in Hd. congruence.
Qed.

(** C3, as the code has it. In a reachable state [UnpinPgImp] answers [false]
    exactly when the page is not resident or its frame has pin count zero.
    A call on a page that is not resident changes nothing. A call on a
    resident page with pin count zero answers [false] and changes nothing
    but the dirty bit of the frame, which becomes [is_dirty_ || is_dirty].
    A call that answers [true] leaves the frame with the flag OR-ed into its
    dirty bit and its pin count decremented, puts the frame in the replacer
    when the pin count has reached zero, and leaves the replacer alone
    otherwise; page table, free list, allocator and disk are unchanged. *)
Theorem UnpinPage_behaviour (page_id : page_id_t) (is_dirty : bool)
    (s : Instance) (d : DiskManager) :
  reachable s d →
  let r := UnpinPgImp page_id is_dirty s d in
  (r.1.1 = false ↔
     page_table_ s !! page_id = None ∨
     ∃ f, page_table_ s !! page_id = Some f ∧ pin_count_ (page_at s f) = 0) ∧
  (page_table_ s !! page_id = None → r = (false, s, d)) ∧
  (∀ f, page_table_ s !! page_id = Some f → pin_count_ (page_at s f) = 0 →
     r = (false,
          store_page f (set_is_dirty (is_dirty_ (page_at s f) || is_dirty) (page_at s f)) s,
          d)) ∧
  (r.1.1 = true →
     ∃ f, page_table_ s !! page_id = Some f ∧
       let old := page_at s f in
       let new := mkPage (page_id_ old) (pin_count_ old - 1)
                         (is_dirty_ old || is_dirty) (data_ old) in
       pages_ r.1.2 = <[f := new]> (pages_ s) ∧
       pages_ r.1.2 !! f = Some new ∧
       (pin_count_ new = 0 →
          replacer_ r.1.2 = LRUReplacer.Unpin f (replacer_ s) ∧ in_replacer r.1.2 f) ∧
       (pin_count_ new ≠ 0 → replacer_ r.1.2 = replacer_ s) ∧
       page_table_ r.1.2 = page_table_ s ∧
       free_list_ r.1.2 = free_list_ s ∧
       next_page_id_ r.1.2 = next_page_id_ s ∧
       r.2 = d).
Proof.
  intros Hreach. apply reachable_inv in Hreach as Hinv. intros r. subst r.
  unfold UnpinPgImp.
  destruct (page_table_ s !! page_id) as [f|] eqn:Ept.
  2:{ simpl. split; [naive_solver|]. split; [done|]. split; [done|]. done. }
  destruct (inv_table s Hinv page_id f Ept) as [Hlt Hid].
  assert (length (pages_ s) = pool_size_ s) as Hlen by apply Hinv.
  set (old := page_at s f).
  set (p1 := if is_dirty then set_is_dirty true old else old).
  assert (p1 = set_is_dirty (is_dirty_ old || is_dirty) old) as Hp1.
  { unfold p1. destruct is_dirty.
    - by rewrite orb_true_r.
    - rewrite orb_false_r. by destruct old. }
  assert (pin_count_ p1 = pin_count_ old) as Hpin1 by (by rewrite Hp1).
  case_decide as Hz; simpl.
  - rewrite Hpin1 in Hz. split; [|split; [done|split; [|done]]].
    + split; [|done]. intros _. right. by exists f.
    + intros f' [= <-] _. by rewrite Hp1.
  - rewrite Hpin1 in Hz. split; [|split; [done|split]].
    + split; [done|]. intros [?|(f' & [= <-] & ?)]; done.
    + intros f' [= <-] ?. done.
    + intros _. exists f. split; [done|].
      assert (set_pin_count (pin_count_ p1 - 1) p1
              = mkPage (page_id_ old) (pin_count_ old - 1)
                       (is_dirty_ old || is_dirty) (data_ old)) as Hnew.
      { by rewrite Hp1. }
      rewrite Hnew. clear Hnew. fold old p1.
      set (new := mkPage _ _ _ _).
      set (s2 := store_page f new (store_page f p1 s)).
      assert (pages_ s2 = <[f := new]> (pages_ s)) as Hpages.
      { unfold s2. simpl. by rewrite list_insert_insert_eq. }
      assert (LRUReplacer.wf (replacer_ s)) as Hwf by apply Hinv.
      assert (<[f := new]> (pages_ s) !! f = Some new) as Hnew.
      { apply list_lookup_insert_eq. lia. }
      case_decide as Hz2; simpl in Hz2; rewrite Hpin1 in Hz2;
        simpl; rewrite list_insert_insert_eq.
      * split; [done|]. split; [done|]. split; [|split; [intros Hnz; by destruct Hnz|done]].
        intros _. split; [done|].
        unfold in_replacer. simpl. unfold LRUReplacer.Unpin.
        case_decide as Hin; [by apply Hwf in Hin|]. simpl. left.
      * split; [done|]. split; [done|]. split; [intros Hz3; by destruct Hz2|done].
Qed.

Lemma UnpinPage_behaviour_witness :
  (UnpinPgImp 0 true one_frame_pinned.1 one_frame_pinned.2).1.1 = false ↔
  page_table_ one_frame_pinned.1 !! 0 = None ∨
  ∃ f, page_table_ one_frame_pinned.1 !! 0 = Some f ∧
       pin_count_ (page_at one_frame_pinned.1 f) = 0.
Proof.
  refine (proj1 (UnpinPage_behaviour 0 true one_frame_pinned.1 one_frame_pinned.2 _)).
  apply reachable_run; lia.
Defined.

(** ** C4 and C9: NewPage *)

Lemma NewPgImp_None_iff s d :
  (NewPgImp s d).1.1 = None ↔
  free_list_ s = [] ∧ (LRUReplacer.Victim (replacer_ s)).1 = None.
Proof.
  unfold NewPgImp, FindPage.
  destruct (free_list_ s) as [|f0 rest]; simpl.
  - destruct (LRUReplacer.Victim (replacer_ s)) as [[v|] r]; simpl; naive_solver.
  - naive_solver.
Qed.

(** C4. In a reachable state, a successful [NewPgImp] answers the id that
    [AllocatePage] hands out in that state and a frame which afterwards holds
    that id with pin count exactly 1, a clean dirty bit and an all-zero
    buffer, is the page-table entry of the new id, and is absent from the
    replacer (list and index); the zeroed page is the last write sent to the
    disk manager and is what the disk holds for the new id. [NewPgImp]
    answers [None] exactly when the free list is empty and the replacer has
    no victim. *)
Theorem NewPage_success_state (s : Instance) (d : DiskManager) :
  reachable s d →
  ((NewPgImp s d).1.1 = None ↔
     free_list_ s = [] ∧ (LRUReplacer.Victim (replacer_ s)).1 = None) ∧
  (∀ page_id f s' d', NewPgImp s d = (Some (page_id, f), s', d') →
     page_id = (AllocatePage s).1 ∧
     pages_ s' !! f = Some (mkPage page_id 1 false (replicate PAGE_SIZE x00)) ∧
     page_table_ s' !! page_id = Some f ∧
     ¬ in_replacer s' f ∧
     f ∉ LRUReplacer.lru_map_ (replacer_ s') ∧
     head (disk_log d') = Some (EvWritePage page_id (replicate PAGE_SIZE x00)) ∧
     disk_pages d' !! page_id = Some (replicate PAGE_SIZE x00)).
Proof.
  intros Hreach. apply reachable_inv in Hreach as Hinv.
  split; [apply NewPgImp_None_iff|].
  intros page_id f s' d' Hnew. unfold NewPgImp in Hnew.
  destruct (FindPage s d) as [[[f0|] s1] d1] eqn:Efp; [|done].
  apply FindPage_Some in Efp
    as (Hinv1 & Hlt & Hpin & Hres & Hfree & Hpages & Hps & _ & _ & Hnext); [|done].
  simpl in Hnew. injection Hnew as <- <- <- <-.
  assert (length (pages_ s1) = pool_size_ s1) as Hlen by apply Hinv1.
  assert (LRUReplacer.wf (replacer_ s1)) as Hwf by apply Hinv1.
  fold zero_data. simpl.
  split; [done|]. split; [|split; [|split; [|split; [|split]]]].
  - unfold page_at in *. simpl in *. rewrite Hpin. simpl.
    apply list_lookup_insert_eq. lia.
  - apply lookup_insert_eq.
  - unfold in_replacer. simpl. by apply Pin_absent.
  - intros Hin. apply (wf_Pin f0) in Hwf as Hwf'. apply Hwf' in Hin.
    by apply (Pin_absent f0 (replacer_ s1)).
  - done.
  - apply lookup_insert_eq.
Qed.

Lemma NewPage_success_state_witness :
  let r := NewPgImp one_frame_unpinned.1 one_frame_unpinned.2 in
  r.1.1 = Some (1, 0%nat) ∧
  pages_ r.1.2 !! 0%nat = Some (mkPage 1 1 false (replicate PAGE_SIZE x00)) ∧
  page_table_ r.1.2 !! 1 = Some 0%nat ∧
  ¬ in_replacer r.1.2 0%nat ∧
  disk_pages r.2 !! 1 = Some (replicate PAGE_SIZE x00).
Proof.
  assert (NewPgImp one_frame_unpinned.1 one_frame_unpinned.2
          = (Some (1, 0%nat),
             (NewPgImp one_frame_unpinned.1 one_frame_unpinned.2).1.2,
             (NewPgImp one_frame_unpinned.1 one_frame_unpinned.2).2)) as Hcall
    by (vm_compute; reflexivity).
  destruct (proj2 (NewPage_success_state one_frame_unpinned.1 one_frame_unpinned.2
                     (reachable_run [OpNewPage; OpUnpinPage 0 false] 1 1 0 empty_disk
                        eq_refl (conj (Z.le_refl 0) eq_refl)))
                  1 0%nat _ _ Hcall)
    as (_ & Hpage & Htable & Hrep & _ & _ & Hdisk).
  cbv zeta. split; [by rewrite Hcall|]. done.
Defined.

(** C9. A [NewPgImp] that answers [None] returns the instance and the disk
    manager it was given: no page id is consumed and the page table, the free
    list, the replacer and every frame are as before. *)
Theorem NewPage_failure_is_atomic (s s' : Instance) (d d' : DiskManager) :
  NewPgImp s d = (None, s', d') →
  s' = s ∧ d' = d ∧
  next_page_id_ s' = next_page_id_ s ∧
  page_table_ s' = page_table_ s ∧
  free_list_ s' = free_list_ s ∧
  replacer_ s' = replacer_ s ∧
  pages_ s' = pages_ s.
Proof.
  unfold NewPgImp. intros Hnew.
  destruct (FindPage s d) as [[[f0|] s1] d1] eqn:Efp; [done|].
  injection Hnew as <- <-.
  apply FindPage_None in Efp as (-> & -> & _). done.
Qed.

Lemma NewPage_failure_is_atomic_witness :
  (NewPgImp one_frame_pinned.1 one_frame_pinned.2).1.2 = one_frame_pinned.1 ∧
  (NewPgImp one_frame_pinned.1 one_frame_pinned.2).2 = one_frame_pinned.2.
Proof.
  destruct (NewPage_failure_is_atomic
              one_frame_pinned.1
              (NewPgImp one_frame_pinned.1 one_frame_pinned.2).1.2
              one_frame_pinned.2
              (NewPgImp one_frame_pinned.1 one_frame_pinned.2).2)
    as (Hs & Hd & _).
  - vm_compute. reflexivity.
  - by split.
Defined.

(** ** C5: the page-id allocator *)

Lemma FindPage_allocator s d :
  num_instances_ (FindPage s d).1.2 = num_instances_ s ∧
  instance_index_ (FindPage s d).1.2 = instance_index_ s ∧
  next_page_id_ (FindPage s d).1.2 = next_page_id_ s.
Proof.
  unfold FindPage. destruct (free_list_ s); [|done].
  by destruct (LRUReplacer.Victim (replacer_ s)) as [[v|] r].
Qed.

Lemma FlushAllPgsImp_allocator s d :
  num_instances_ (FlushAllPgsImp s d).1 = num_instances_ s ∧
  instance_index_ (FlushAllPgsImp s d).1 = instance_index_ s ∧
  next_page_id_ (FlushAllPgsImp s d).1 = next_page_id_ s.
Proof.
  unfold FlushAllPgsImp. generalize (map_to_list (page_table_ s)). intros l.
  revert s d. induction l as [|[q f] l IH]; intros s d; simpl; [done|].
  destruct (IH (store_page f (set_is_dirty false (page_at s f)) s)
               (WritePage q (data_ (page_at s f)) d)) as (-> & -> & ->).
  done.
Qed.

(** Only a successful [NewPage] moves the allocator, by [num_instances_]
    wrapped to the width of a page id. *)
Lemma step_allocator sd o :
  num_instances_ (step sd o).1 = num_instances_ sd.1 ∧
  instance_index_ (step sd o).1 = instance_index_ sd.1 ∧
  next_page_id_ (step sd o).1 =
    match o, (NewPgImp sd.1 sd.2).1.1 with
    | OpNewPage, Some _ => wrap_page_id (next_page_id_ sd.1 + num_instances_ sd.1)
    | _, _ => next_page_id_ sd.1
    end.
Proof.
  destruct sd as [s d]. destruct o; simpl.
  - unfold NewPgImp. pose proof (FindPage_allocator s d) as (Hn & Hi & Hx).
    destruct (FindPage s d) as [[[f|] s1] d1]; simpl in *; [|done].
    by rewrite Hn, Hx.
  - unfold FetchPgImp. destruct (page_table_ s !! page_id); [done|].
    pose proof (FindPage_allocator s d) as (Hn & Hi & Hx).
    by destruct (FindPage s d) as [[[f|] s1] d1].
  - unfold UnpinPgImp. destruct (page_table_ s !! page_id); [|done].
    repeat case_decide; done.
  - unfold FlushPgImp. destruct (page_table_ s !! page_id); [|done].
    by case_decide.
  - apply FlushAllPgsImp_allocator.
  - unfold DeletePgImp. destruct (page_table_ s !! page_id); [|done].
    by case_decide.
  - by case_decide.
Qed.

Lemma NewPgImp_page_id s d page_id f s' d' :
  NewPgImp s d = (Some (page_id, f), s', d') → page_id = next_page_id_ s.
Proof.
  unfold NewPgImp. pose proof (FindPage_allocator s d) as (_ & _ & Hx).
  destruct (FindPage s d) as [[[f0|] s1] d1]; [|done].
  simpl in *. by intros [= <- _ _ _].
Qed.

Lemma wrap_page_id_small z : - 2 ^ 31 ≤ z < 2 ^ 31 → wrap_page_id z = z.
Proof.
  intros Hz. unfold wrap_page_id.
  change (2 ^ 31) with 2147483648 in *. change (2 ^ 32) with 4294967296.
  rewrite Z.mod_small; lia.
Qed.

(** While the counter stays below [2^31] the ids of a run form an arithmetic
    progression. *)
Lemma allocated_progression ops : ∀ sd,
  let ids := allocated ops sd in
  0 ≤ num_instances_ sd.1 →
  - 2 ^ 31 ≤ next_page_id_ sd.1 →
  next_page_id_ sd.1 + Z.of_nat (length ids) * num_instances_ sd.1 < 2 ^ 31 →
  ids = (λ k : nat, next_page_id_ sd.1 + Z.of_nat k * num_instances_ sd.1)
          <$> seq 0 (length ids) ∧
  num_instances_ (run ops sd).1 = num_instances_ sd.1 ∧
  instance_index_ (run ops sd).1 = instance_index_ sd.1 ∧
  next_page_id_ (run ops sd).1
  = next_page_id_ sd.1 + Z.of_nat (length ids) * num_instances_ sd.1.
Proof.
  induction ops as [|o ops IH]; intros sd ids Hn0 Hlo Hhi.
  { simpl. split; [done|]. split; [done|]. split; [done|]. lia. }
  destruct (step_allocator sd o) as (Hn1 & Hi1 & Hx1).
  assert (∀ x, next_page_id_ (step sd o).1 = x →
               0 ≤ num_instances_ (step sd o).1 ∧ - 2 ^ 31 ≤ x →
               x + Z.of_nat (length (allocated ops (step sd o))) * num_instances_ sd.1
                 < 2 ^ 31 →
               allocated ops (step sd o)
               = (λ k : nat, x + Z.of_nat k * num_instances_ sd.1)
                   <$> seq 0 (length (allocated ops (step sd o))) ∧
               num_instances_ (run (o :: ops) sd).1 = num_instances_ sd.1 ∧
               instance_index_ (run (o :: ops) sd).1 = instance_index_ sd.1 ∧
               next_page_id_ (run (o :: ops) sd).1
               = x + Z.of_nat (length (allocated ops (step sd o))) * num_instances_ sd.1)
    as Hrest.
  { intros x Hx [Hn0' Hlo'] Hhi'. subst x.
    destruct (IH (step sd o)) as (Hids & Hn & Hi & Hx); [done|done|by rewrite Hn1|].
    simpl. rewrite Hn, Hi, Hx, Hn1, Hi1. rewrite Hn1 in Hids. done. }
  rewrite Hn1 in Hrest. unfold ids in *. clear ids IH.
  cbn [allocated] in *.
  destruct o; cbn [fst snd] in *;
    try (apply (Hrest _ Hx1); [done|by rewrite Hx1 in *]).
  destruct (NewPgImp sd.1 sd.2) as [[[[page_id f]|] s1] d1] eqn:Enew; cbn [fst snd] in *.
  - apply NewPgImp_page_id in Enew as ->.
    cbn [length] in Hhi. rewrite Nat2Z.inj_succ in Hhi.
    set (m := length (allocated ops (step sd OpNewPage))) in *.
    assert (0 ≤ Z.of_nat m * num_instances_ sd.1) as Hm by nia.
    rewrite wrap_page_id_small in Hx1 by lia.
    destruct (Hrest _ Hx1) as (Hids & Hn & Hi & Hx); [split; [done|lia]|lia|].
    split; [|split; [done|split; [done|]]].
    + cbn [length seq fmap list_fmap]. fold m.
      f_equal; [simpl; lia|].
      rewrite <- fmap_S_seq, <- list_fmap_compose. rewrite Hids at 1.
      apply list_fmap_ext. intros _ k _. simpl. lia.
    + rewrite Hx. cbn [length]. fold m. lia.
  - apply (Hrest _ Hx1); [done|by rewrite Hx1 in *].
Qed.

(** C5, as stated, fails when the 32-bit counter wraps. The instance
    constructed with [(num_instances, instance_index) = (2147483647, 0)] hands
    out 0, then 2147483647, then -2: the third id is smaller than the second
    and is not the second plus [num_instances]. The instance constructed with
    [(2147483648, 0)] hands out 0, then -2147483648, then 0 again: allocation
    is not injective. *)
Lemma AllocatePage_wraps_counterexample :
  let instance_index := 0 in
  let ids := allocated [OpNewPage; OpNewPage; OpNewPage]
               (BufferPoolManagerInstance 3 2147483647 instance_index, empty_disk) in
  let ids' := allocated [OpNewPage; OpNewPage; OpNewPage]
                (BufferPoolManagerInstance 3 2147483648 instance_index, empty_disk) in
  0 ≤ instance_index < 2147483647 ∧
  ids = [0; 2147483647; -2] ∧
  ¬ (2147483647 < -2) ∧
  -2 ≠ 2147483647 + 2147483647 ∧
  ids' = [0; -2147483648; 0] ∧
  ¬ NoDup ids'.
Proof.
  cbv zeta. split; [done|].
  split; [vm_compute; reflexivity|]. split; [lia|]. split; [lia|].
  assert (allocated [OpNewPage; OpNewPage; OpNewPage]
            (BufferPoolManagerInstance 3 2147483648 0, empty_disk)
          = [0; -2147483648; 0]) as -> by (vm_compute; reflexivity).
  split; [done|].
  intros Hnd. apply NoDup_cons in Hnd as [Hnotin _]. apply Hnotin. set_solver.
Qed.

(** C5, as the code has it. Take the instance constructed with
    [(num_instances, instance_index)], [0 ≤ instance_index < num_instances],
    and any run of public calls after which the counter
    [instance_index + m * num_instances], [m] being the number of ids handed
    out, is still below [2^31]. The ids handed out along the run are
    [instance_index + k * num_instances] for [k = 0, 1, ...] in call order:
    each is the previous one plus [num_instances] (so strictly larger), each
    is non-negative and congruent to [instance_index], and no id is handed
    out twice. In the state after the run the assertion of [ValidatePageId]
    holds for the next [AllocatePage], and two [AllocatePage] calls in a row
    differ by [num_instances] while the counter stays below [2^31]. *)
Theorem AllocatePage_progression
    (pool_size : nat) (num_instances instance_index : Z) (d0 : DiskManager)
    (ops : list Op) :
  0 < num_instances → 0 ≤ instance_index < num_instances →
  let sd0 := (BufferPoolManagerInstance pool_size num_instances instance_index, d0) in
  let ids := allocated ops sd0 in
  let s := (run ops sd0).1 in
  instance_index + Z.of_nat (length ids) * num_instances < 2 ^ 31 →
  (∀ k p, ids !! k = Some p → p = instance_index + Z.of_nat k * num_instances) ∧
  (∀ k p q, ids !! k = Some p → ids !! S k = Some q →
            q = p + num_instances ∧ p < q) ∧
  (∀ p, p ∈ ids → 0 ≤ p ∧ p `mod` num_instances = instance_index) ∧
  NoDup ids ∧
  (AllocatePage s).1 = instance_index + Z.of_nat (length ids) * num_instances ∧
  ValidatePageId s (AllocatePage s).1 ∧
  (instance_index + (Z.of_nat (length ids) + 1) * num_instances < 2 ^ 31 →
   (AllocatePage (AllocatePage s).2).1 = (AllocatePage s).1 + num_instances).
Proof.
  intros Hn Hi sd0 ids s Hbound.
  assert (- 2 ^ 31 ≤ 0) as Hneg by done.
  assert (next_page_id_ sd0.1 = instance_index) as Hx0.
  { apply wrap_page_id_small. nia. }
  destruct (allocated_progression ops sd0) as (Hids & Hrn & Hri & Hrx);
    [simpl; lia|rewrite Hx0; lia|by rewrite Hx0|].
  rewrite Hx0 in Hids, Hrx.
  fold ids in Hids, Hrx. fold s in Hrn, Hri, Hrx. simpl in Hids, Hrn, Hri, Hrx.
  assert (∀ k p, ids !! k = Some p → p = instance_index + Z.of_nat k * num_instances)
    as Hnth.
  { intros k p Hk. rewrite Hids in Hk. apply list_lookup_fmap_Some in Hk.
    destruct Hk as (j & -> & Hj). apply lookup_seq in Hj as [-> _]. done. }
  split; [done|]. split; [|split; [|split; [|split; [|split]]]].
  - intros k p q Hp Hq. apply Hnth in Hp, Hq. subst p q. lia.
  - intros p Hp. apply list_elem_of_lookup in Hp as [k Hk]. apply Hnth in Hk as ->.
    split; [nia|]. rewrite Z_mod_plus_full. apply Z.mod_small. done.
  - apply NoDup_alt. intros j k p Hj Hk. apply Hnth in Hj, Hk. subst p.
    assert (Z.of_nat j * num_instances = Z.of_nat k * num_instances) as Heq by lia.
    apply Z.mul_cancel_r in Heq; lia.
  - simpl. done.
  - unfold ValidatePageId. simpl. rewrite Hrn, Hri, Hrx.
    assert (0 ≤ Z.of_nat (length ids) * num_instances) by nia.
    rewrite (Z.mod_small _ (2 ^ 32)).
    + rewrite Z_mod_plus_full. apply Z.mod_small. done.
    + change (2 ^ 32) with 4294967296. change (2 ^ 31) with 2147483648 in Hbound. lia.
  - intros Hbound2. simpl. rewrite Hrn, Hrx.
    assert (0 ≤ Z.of_nat (length ids) * num_instances) by nia.
    apply wrap_page_id_small. lia.
Qed.

Lemma AllocatePage_progression_witness :
  allocated [OpNewPage; OpNewPage; OpFetchPage 7; OpNewPage]
            (BufferPoolManagerInstance 4 4 1, empty_disk) !! 2%nat = Some 9 ∧
  9 = 1 + Z.of_nat 2 * 4.
Proof.
  assert (allocated [OpNewPage; OpNewPage; OpFetchPage 7; OpNewPage]
            (BufferPoolManagerInstance 4 4 1, empty_disk) !! 2%nat = Some 9) as Hk
    by (vm_compute; reflexivity).
  split; [exact Hk|].
  refine (proj1 (AllocatePage_progression 4 4 1 empty_disk
                   [OpNewPage; OpNewPage; OpFetchPage 7; OpNewPage]
                   eq_refl (conj (Z.lt_le_incl 0 1 eq_refl) eq_refl) _) 2%nat 9 Hk).
  vm_compute. reflexivity.
Defined.

(** The ids of that run: instance 1 of 4 hands out 1, 5 and 9. *)
Example allocated_ids :
  allocated [OpNewPage; OpNewPage; OpFetchPage 7; OpNewPage]
            (BufferPoolManagerInstance 4 4 1, empty_disk) = [1; 5; 9].
Proof. vm_compute. reflexivity. Qed.

(** ** C7: FlushPage *)

(** C7. In a reachable state [FlushPgImp] answers [false] exactly when
    [page_id] is [INVALID_PAGE_ID] or not resident, and then changes nothing.
    When it answers [true] the buffer of the page's frame has been sent to
    the disk manager under [page_id], the frame's dirty bit is clear, and the
    frame's [page_id_], pin count and buffer, the other frames, the page
    table, the free list, the replacer and the allocator are as before. *)
Theorem FlushPage_behaviour (page_id : page_id_t) (s : Instance) (d : DiskManager) :
  reachable s d →
  let r := FlushPgImp page_id s d in
  (r.1.1 = false ↔ page_id = INVALID_PAGE_ID ∨ page_table_ s !! page_id = None) ∧
  (r.1.1 = false → r = (false, s, d)) ∧
  (r.1.1 = true →
     ∃ f, page_table_ s !! page_id = Some f ∧
       let old := page_at s f in
       r.2 = WritePage page_id (data_ old) d ∧
       pages_ r.1.2 = <[f := set_is_dirty false old]> (pages_ s) ∧
       pages_ r.1.2 !! f
         = Some (mkPage (page_id_ old) (pin_count_ old) false (data_ old)) ∧
       page_id_ old = page_id ∧
       page_table_ r.1.2 = page_table_ s ∧
       free_list_ r.1.2 = free_list_ s ∧
       replacer_ r.1.2 = replacer_ s ∧
       next_page_id_ r.1.2 = next_page_id_ s).
Proof.
  intros Hreach. apply reachable_inv in Hreach as Hinv. intros r. subst r.
  unfold FlushPgImp.
  destruct (page_table_ s !! page_id) as [f|] eqn:Ept; simpl.
  2:{ split; [naive_solver|]. split; done. }
  destruct (inv_table s Hinv page_id f Ept) as [Hlt Hid].
  assert (length (pages_ s) = pool_size_ s) as Hlen by apply Hinv.
  case_decide as Hinvalid; simpl.
  - split; [naive_solver|]. split; done.
  - split; [|split; [done|]].
    + split; [done|]. intros [?|?]; done.
    + intros _. exists f. split; [done|]. simpl.
      split; [done|]. split; [done|]. split; [|done].
      apply list_lookup_insert_eq. lia.
Qed.

Lemma FlushPage_behaviour_witness :
  let r := FlushPgImp 0 one_frame_pinned.1 one_frame_pinned.2 in
  r.1.1 = false ↔
  0 = INVALID_PAGE_ID ∨ page_table_ one_frame_pinned.1 !! 0 = None.
Proof.
  refine (proj1 (FlushPage_behaviour 0 one_frame_pinned.1 one_frame_pinned.2 _)).
  apply reachable_run; lia.
Defined.

Example FlushPage_resident :
  (FlushPgImp 0 one_frame_pinned.1 one_frame_pinned.2).1.1 = true ∧
  (FlushPgImp (-1) one_frame_pinned.1 one_frame_pinned.2).1.1 = false ∧
  (FlushPgImp 42 one_frame_pinned.1 one_frame_pinned.2).1.1 = false.
Proof. vm_compute. done. Qed.

(** ** C8: DeletePage *)

(** C8. In a reachable state [DeletePgImp] answers [true] and changes nothing
    when the page is not resident, answers [false] and changes nothing when
    the page is resident with a positive pin count, and otherwise answers
    [true] after these steps: the frame's buffer is written to disk under
    [page_id] when the frame is dirty, [DeallocatePage] is requested, the
    page-table entry is removed, the frame is reset ([INVALID_PAGE_ID], pin
    count 0, clean, all-zero buffer) and appended at the back of the free
    list. The replacer and the allocator are not touched. *)
Theorem DeletePage_behaviour (page_id : page_id_t) (s : Instance) (d : DiskManager) :
  reachable s d →
  let r := DeletePgImp page_id s d in
  (page_table_ s !! page_id = None → r = (true, s, d)) ∧
  (∀ f, page_table_ s !! page_id = Some f → 0 < pin_count_ (page_at s f) →
        r = (false, s, d)) ∧
  (∀ f, page_table_ s !! page_id = Some f → ¬ 0 < pin_count_ (page_at s f) →
     let old := page_at s f in
     r.1.1 = true ∧
     r.2 = DeallocatePage page_id
             (if is_dirty_ old then WritePage page_id (data_ old) d else d) ∧
     page_table_ r.1.2 = delete page_id (page_table_ s) ∧
     page_table_ r.1.2 !! page_id = None ∧
     pages_ r.1.2
       = <[f := mkPage INVALID_PAGE_ID 0 false (replicate PAGE_SIZE x00)]> (pages_ s) ∧
     pages_ r.1.2 !! f
       = Some (mkPage INVALID_PAGE_ID 0 false (replicate PAGE_SIZE x00)) ∧
     free_list_ r.1.2 = free_list_ s ++ [f] ∧
     replacer_ r.1.2 = replacer_ s ∧
     next_page_id_ r.1.2 = next_page_id_ s).
Proof.
  intros Hreach. apply reachable_inv in Hreach as Hinv. intros r. subst r.
  unfold DeletePgImp.
  destruct (page_table_ s !! page_id) as [f|] eqn:Ept; simpl.
  2:{ split; [done|]. split; done. }
  destruct (inv_table s Hinv page_id f Ept) as [Hlt Hid].
  assert (length (pages_ s) = pool_size_ s) as Hlen by apply Hinv.
  split; [done|]. split.
  - intros f' [= <-] Hpin. case_decide; done.
  - intros f' [= <-] Hpin. case_decide; [done|]. simpl.
    split; [done|]. split; [done|]. split; [done|].
    split; [apply lookup_delete_eq|]. split; [done|]. split; [|done].
    apply list_lookup_insert_eq. lia.
Qed.

Lemma DeletePage_behaviour_witness :
  let s := one_frame_unpinned.1 in
  let r := DeletePgImp 0 s one_frame_unpinned.2 in
  r.1.1 = true ∧
  page_table_ r.1.2 !! 0 = None ∧
  pages_ r.1.2 !! 0%nat = Some (mkPage INVALID_PAGE_ID 0 false (replicate PAGE_SIZE x00)) ∧
  free_list_ r.1.2 = free_list_ s ++ [0%nat].
Proof.
  destruct (proj2 (proj2 (DeletePage_behaviour 0 one_frame_unpinned.1 one_frame_unpinned.2
                            (reachable_run [OpNewPage; OpUnpinPage 0 false] 1 1 0 empty_disk
                               eq_refl (conj (Z.le_refl 0) eq_refl))))
                  0%nat)
    as (Hret & _ & _ & Htable & _ & Hpage & Hfree & _).
  - vm_compute. reflexivity.
  - vm_compute. discriminate.
  - done.
Defined.

(** ** C10: FetchPage on a resident page *)

(** C10. In a reachable state, [FetchPgImp] on a page resident in frame [f]
    answers [f] and sends nothing to the disk manager. The frame's pin count
    is one more than before; its [page_id_], dirty bit and buffer and all
    other frames are as before. The replacer is the old one after [Pin f]:
    [f] is absent from it and the membership of every other frame is as
    before. Page table, free list and allocator are unchanged. *)
Theorem FetchPage_resident (page_id : page_id_t) (f : frame_id_t)
    (s : Instance) (d : DiskManager) :
  reachable s d →
  page_table_ s !! page_id = Some f →
  let r := FetchPgImp page_id s d in
  let old := page_at s f in
  r.1.1 = Some f ∧
  r.2 = d ∧
  pages_ r.1.2 !! f
    = Some (mkPage (page_id_ old) (pin_count_ old + 1) (is_dirty_ old) (data_ old)) ∧
  (∀ g, g ≠ f → pages_ r.1.2 !! g = pages_ s !! g) ∧
  replacer_ r.1.2 = LRUReplacer.Pin f (replacer_ s) ∧
  ¬ in_replacer r.1.2 f ∧
  (∀ g, g ≠ f → in_replacer r.1.2 g ↔ in_replacer s g) ∧
  page_table_ r.1.2 = page_table_ s ∧
  free_list_ r.1.2 = free_list_ s ∧
  next_page_id_ r.1.2 = next_page_id_ s.
Proof.
  intros Hreach Ept. apply reachable_inv in Hreach as Hinv. intros r old. subst r.
  unfold FetchPgImp. rewrite Ept. simpl.
  destruct (inv_table s Hinv page_id f Ept) as [Hlt Hid].
  assert (length (pages_ s) = pool_size_ s) as Hlen by apply Hinv.
  assert (LRUReplacer.wf (replacer_ s)) as Hwf by apply Hinv.
  split; [done|]. split; [done|]. split; [|split; [|split; [done|split; [|split]]]].
  - apply list_lookup_insert_eq. lia.
  - intros g Hg. by apply list_lookup_insert_ne.
  - unfold in_replacer. simpl. by apply Pin_absent.
  - intros g Hg. unfold in_replacer. simpl. rewrite Pin_elem_of by done. tauto.
  - done.
Qed.

Lemma FetchPage_resident_witness :
  let r := FetchPgImp 0 one_frame_unpinned.1 one_frame_unpinned.2 in
  r.1.1 = Some 0%nat ∧
  r.2 = one_frame_unpinned.2 ∧
  pin_count_ <$> pages_ r.1.2 !! 0%nat = Some 1 ∧
  ¬ in_replacer r.1.2 0%nat.
Proof.
  destruct (FetchPage_resident 0 0%nat one_frame_unpinned.1 one_frame_unpinned.2)
    as (Hret & Hdisk & Hpage & _ & _ & Hrep & _).
  - apply reachable_run; lia.
  - vm_compute. reflexivity.
  - cbv zeta. split; [done|]. split; [done|]. split; [|done].
    rewrite Hpage. vm_compute. reflexivity.
Defined.

(** * Further properties of the code *)

(** ** The replacer on its own *)

Section replacer_runs.
Import LRUReplacer.

Lemma length_erase_node f (l : list frame_id_t) :
  (length (erase_node f l) ≤ length l)%nat.
Proof.
  induction l as [|x l IH]; simpl; [done|]. case_decide; simpl; lia.
Qed.

Lemma filter_ne_absent (f : frame_id_t) (l : list frame_id_t) :
  f ∉ l → filter (λ x, x ≠ f) l = l.
Proof.
  induction l as [|x l IH]; [done|].
  rewrite not_elem_of_cons. intros [Hne Hf].
  rewrite filter_cons_True by done. by rewrite IH.
Qed.

Lemma erase_node_filter f l :
  NoDup l → erase_node f l = filter (λ x, x ≠ f) l.
Proof.
  induction 1 as [|x l Hx Hl IH]; simpl; [done|].
  case_decide as Hd.
  - subst x. rewrite filter_cons_False by (intros Hne; by apply Hne).
    by rewrite filter_ne_absent.
  - rewrite filter_cons_True by done. by rewrite IH.
Qed.

Lemma capacity_Pin f r : capacity_ (Pin f r) = capacity_ r.
Proof. unfold Pin. by case_decide. Qed.

Lemma capacity_drop_back r : capacity_ (drop_back r) = capacity_ r.
Proof. unfold drop_back. by destruct (last _). Qed.

Lemma capacity_Unpin f r : capacity_ (Unpin f r) = capacity_ r.
Proof.
  unfold Unpin. case_decide; [done|]. simpl.
  case_decide; [apply capacity_drop_back|done].
Qed.

Lemma capacity_Victim r : capacity_ (Victim r).2 = capacity_ r.
Proof.
  unfold Victim. case_decide; [done|]. by destruct (last _).
Qed.

Lemma wf_Victim r : wf r → wf (Victim r).2.
Proof.
  intros Hwf. unfold Victim. case_decide; [done|].
  destruct (last (lru_list_ r)) as [b|] eqn:El; [|done].
  apply last_Some in El as [l El]. simpl.
  rewrite El, removelast_last. by apply wf_snoc.
Qed.

Lemma Size_Victim r : (Size (Victim r).2 ≤ Size r)%nat.
Proof.
  unfold Victim, Size. case_decide; [done|].
  destruct (last (lru_list_ r)) as [b|] eqn:El; [|done].
  apply last_Some in El as [l El]. simpl.
  rewrite El, removelast_last, length_app. lia.
Qed.

Lemma Size_Pin f r : (Size (Pin f r) ≤ Size r)%nat.
Proof. unfold Pin, Size. case_decide; [|done]. apply length_erase_node. Qed.

Lemma Size_Unpin f r :
  (0 < capacity_ r)%nat → (Size r ≤ capacity_ r)%nat →
  (Size (Unpin f r) ≤ capacity_ r)%nat.
Proof.
  intros Hcap Hsz. unfold Unpin, Size in *. case_decide; [done|]. simpl.
  case_decide as Hfull; [|lia].
  unfold drop_back. destruct (last (lru_list_ r)) as [b|] eqn:El.
  - apply last_Some in El as [l El]. simpl.
    rewrite El, removelast_last. rewrite El, length_app in Hsz. simpl in Hsz. lia.
  - apply last_None in El. rewrite El in Hfull. simpl in Hfull. lia.
Qed.

(** X1. A replacer built by the constructor with a positive capacity stays
    consistent under every run of [Victim], [Pin] and [Unpin] calls, with any
    frame ids: no frame is listed twice, the list and its index hold the same
    frames, the capacity is the one given to the constructor and the number
    of tracked frames never exceeds it. *)
Theorem replacer_run_consistent (num_pages : nat) (ops : list op) :
  (0 < num_pages)%nat →
  let r := run ops (new num_pages) in
  NoDup (lru_list_ r) ∧
  (∀ f, f ∈ lru_map_ r ↔ f ∈ lru_list_ r) ∧
  capacity_ r = num_pages ∧
  (Size r ≤ num_pages)%nat.
Proof.
  intros Hpos.
  assert (∀ ops r, wf r → capacity_ r = num_pages → (Size r ≤ num_pages)%nat →
            wf (run ops r) ∧ capacity_ (run ops r) = num_pages ∧
            (Size (run ops r) ≤ num_pages)%nat) as Hrun.
  { clear ops. induction ops as [|o ops IH]; intros r Hwf Hcap Hsz; simpl; [done|].
    apply IH; destruct o; simpl.
    - by apply wf_Victim.
    - by apply wf_Pin.
    - by apply wf_Unpin.
    - by rewrite capacity_Victim.
    - by rewrite capacity_Pin.
    - by rewrite capacity_Unpin.
    - etrans; [apply Size_Victim|done].
    - etrans; [apply Size_Pin|done].
    - rewrite <- Hcap. apply Size_Unpin; lia. }
  destruct (Hrun ops (new num_pages)) as ([Hnd Hm] & Hcap & Hsz).
  - apply wf_new.
  - done.
  - unfold Size. simpl. lia.
  - done.
Qed.

Lemma replacer_run_consistent_witness :
  let r := run [OpUnpin 8; OpUnpin 9; OpUnpin 8; OpPin 3; OpUnpin 4; OpVictim]%nat (new 2) in
  NoDup (lru_list_ r) ∧
  (∀ f, f ∈ lru_map_ r ↔ f ∈ lru_list_ r) ∧
  capacity_ r = 2%nat ∧
  (Size r ≤ 2)%nat.
Proof.
  apply (replacer_run_consistent 2
           [OpUnpin 8; OpUnpin 9; OpUnpin 8; OpPin 3; OpUnpin 4; OpVictim]%nat).
  lia.
Defined.

Lemma unpin_all_snoc fs x r : unpin_all (fs ++ [x]) r = Unpin x (unpin_all fs r).
Proof. unfold unpin_all. by rewrite foldl_app. Qed.

Lemma bounded_NoDup_length (l : list frame_id_t) n :
  NoDup l → (∀ f, f ∈ l → (f < n)%nat) → (length l ≤ n)%nat.
Proof.
  intros Hnd Hlt.
  assert (l ⊆+ seq 0 n) as Hsub.
  { apply NoDup_submseteq; [done|]. intros f Hf. apply elem_of_seq.
    specialize (Hlt f Hf). lia. }
  apply submseteq_length in Hsub. by rewrite length_seq in Hsub.
Qed.

Lemma elem_of_rev_list (x : frame_id_t) (l : list frame_id_t) : x ∈ rev l ↔ x ∈ l.
Proof. rewrite !list_elem_of_In. symmetry. apply in_rev. Qed.

Lemma unpin_all_remove_dups num_pages fs :
  (∀ f, f ∈ fs → (f < num_pages)%nat) →
  wf (unpin_all fs (new num_pages)) ∧
  capacity_ (unpin_all fs (new num_pages)) = num_pages ∧
  lru_list_ (unpin_all fs (new num_pages)) = remove_dups (rev fs).
Proof.
  induction fs as [|x fs IH] using rev_ind; intros Hlt.
  - split; [apply wf_new|done].
  - destruct IH as (Hwf & Hcap & Hl).
    { intros f Hf. apply Hlt. apply elem_of_app. by left. }
    rewrite unpin_all_snoc, rev_app_distr. simpl.
    split; [by apply wf_Unpin|]. split; [by rewrite capacity_Unpin|].
    set (r := unpin_all fs (new num_pages)) in *.
    assert (x ∈ lru_list_ r ↔ x ∈ rev fs) as Hx.
    { rewrite Hl. apply elem_of_remove_dups. }
    case_decide as Hin.
    + unfold Unpin. case_decide as Hm; [done|].
      destruct Hm. apply Hwf, Hx. done.
    + assert (x ∉ lru_list_ r) as Hxr by (by rewrite Hx).
      rewrite Unpin_push; [simpl; by rewrite Hl|done|done|].
      assert (length (x :: lru_list_ r) ≤ num_pages)%nat as Hfit.
      { apply bounded_NoDup_length.
        - constructor; [done|]. apply Hwf.
        - intros f Hf. apply Hlt. apply elem_of_cons in Hf as [->|Hf].
          + apply elem_of_app. right. left.
          + apply elem_of_app. left. apply (proj1 (elem_of_rev_list f fs)).
            apply (proj1 (elem_of_remove_dups (rev fs) f)). by rewrite <- Hl. }
      unfold Size. simpl in Hfit. rewrite Hcap. lia.
Qed.

(** X2. Repeated [Unpin] calls do not refresh a frame: after any sequence of
    [Unpin] calls with frame ids below the capacity on a new replacer, the
    list holds each frame once, ordered by its first [Unpin] (most recent
    first unpin at the front), and a drain answers the frames in the order of
    their first [Unpin] and leaves the replacer empty. *)
Theorem unpin_order_is_first_unpin (num_pages : nat) (fs : list frame_id_t) :
  (∀ f, f ∈ fs → (f < num_pages)%nat) →
  let r := unpin_all fs (new num_pages) in
  lru_list_ r = remove_dups (rev fs) ∧
  (victims (Size r) r).1 = Some <$> rev (remove_dups (rev fs)) ∧
  lru_list_ (victims (Size r) r).2 = [].
Proof.
  intros Hlt r. destruct (unpin_all_remove_dups num_pages fs Hlt) as (Hwf & _ & Hl).
  fold r in Hwf, Hl. split; [done|].
  destruct (victims_drain (lru_list_ r) r Hwf eq_refl) as [Hv He].
  unfold Size. by rewrite Hv, He, Hl.
Qed.

Lemma unpin_order_is_first_unpin_witness :
  let r := unpin_all [5; 1; 5; 3; 1]%nat (new 7) in
  lru_list_ r = [3; 1; 5]%nat ∧
  (victims (Size r) r).1 = [Some 5; Some 1; Some 3]%nat.
Proof.
  destruct (unpin_order_is_first_unpin 7 [5; 1; 5; 3; 1]%nat) as (Hl & Hv & _).
  - intros f Hf. repeat (apply elem_of_cons in Hf as [->|Hf]; [lia|]).
    by apply not_elem_of_nil in Hf.
  - cbv zeta. split; [exact Hl|]. rewrite Hv. reflexivity.
Defined.

(** X3. [Pin] undoes [Unpin]: on a consistent replacer below its capacity,
    unpinning a frame that is not tracked and pinning it again gives back
    the very same replacer, list and index. *)
Theorem Pin_undoes_Unpin (f : frame_id_t) (r : t) :
  wf r → f ∉ lru_list_ r → (Size r < capacity_ r)%nat →
  Pin f (Unpin f r) = r.
Proof.
  intros Hwf Hf Hlt. rewrite Unpin_push by done.
  assert (f ∉ lru_map_ r) as Hm by (by rewrite (proj2 Hwf)).
  unfold Pin. simpl. case_decide as Hin; [|set_solver].
  case_decide; [|done]. destruct r as [l m c]. simpl in *. f_equal.
  apply leibniz_equiv. set_solver.
Qed.

Lemma Pin_undoes_Unpin_witness :
  Pin 4 (Unpin 4 (unpin_all [2; 6]%nat (new 7))) = unpin_all [2; 6]%nat (new 7).
Proof.
  apply Pin_undoes_Unpin.
  - apply (unpin_all_remove_dups 7 [2; 6]%nat).
    intros f Hf. repeat (apply elem_of_cons in Hf as [->|Hf]; [lia|]).
    by apply not_elem_of_nil in Hf.
  - vm_compute. intros Hf. repeat (apply elem_of_cons in Hf as [Hf|Hf]; [lia|]).
    by apply not_elem_of_nil in Hf.
  - vm_compute. lia.
Defined.

(** X4. The capacity guard of [Unpin]: when a consistent replacer of positive
    capacity is full, unpinning a frame that is not tracked silently drops
    the back (least-recently-unpinned) frame, puts the new frame at the
    front, and keeps the size. *)
Theorem Unpin_at_capacity_drops_back (f b : frame_id_t) (l : list frame_id_t) (r : t) :
  wf r → f ∉ lru_list_ r → lru_list_ r = l ++ [b] →
  (capacity_ r ≤ Size r)%nat →
  lru_list_ (Unpin f r) = f :: l ∧
  b ∉ lru_list_ (Unpin f r) ∧
  Size (Unpin f r) = Size r ∧
  wf (Unpin f r).
Proof.
  intros Hwf Hf El Hfull.
  assert (lru_list_ (Unpin f r) = f :: l) as Hl.
  { unfold Unpin. case_decide as Hin; [by apply Hwf in Hin|].
    case_decide; [|lia]. unfold drop_back.
    by rewrite El, last_snoc, removelast_last. }
  split; [done|]. split; [|split; [|by apply wf_Unpin]].
  - rewrite Hl. destruct Hwf as [Hnd _]. rewrite El in Hnd, Hf.
    apply NoDup_app in Hnd as (_ & Hdisj & _).
    rewrite not_elem_of_cons. split.
    + intros ->. apply Hf. apply elem_of_app. right. left.
    + intros Hb. apply (Hdisj b Hb). left.
  - unfold Size. rewrite Hl, El, length_app. simpl. lia.
Qed.

Lemma Unpin_at_capacity_drops_back_witness :
  let r := unpin_all [0; 1]%nat (new 2) in
  lru_list_ (Unpin 7 r) = [7; 1]%nat ∧ 0%nat ∉ lru_list_ (Unpin 7 r).
Proof.
  destruct (Unpin_at_capacity_drops_back 7 0 [1]%nat (unpin_all [0; 1]%nat (new 2)))
    as (Hl & Hb & _).
  - apply (unpin_all_remove_dups 2 [0; 1]%nat).
    intros f Hf. repeat (apply elem_of_cons in Hf as [->|Hf]; [lia|]).
    by apply not_elem_of_nil in Hf.
  - vm_compute. intros Hf. repeat (apply elem_of_cons in Hf as [Hf|Hf]; [lia|]).
    by apply not_elem_of_nil in Hf.
  - vm_compute. reflexivity.
  - vm_compute. lia.
  - by split.
Defined.

(** X5. [Pin] followed by [Unpin] refreshes a frame: on a consistent replacer
    within its capacity, a tracked frame moves to the front of the list and
    the other frames keep their relative order, so the frame becomes the last
    of them to be evicted. [Pin] alone removes exactly that frame. *)
Theorem Pin_then_Unpin_moves_to_front (f : frame_id_t) (r : t) :
  wf r → f ∈ lru_list_ r → (Size r ≤ capacity_ r)%nat →
  lru_list_ (Pin f r) = filter (λ x, x ≠ f) (lru_list_ r) ∧
  lru_list_ (Unpin f (Pin f r)) = f :: filter (λ x, x ≠ f) (lru_list_ r) ∧
  S (Size (Pin f r)) = Size r.
Proof.
  intros Hwf Hf Hsz.
  assert (lru_list_ (Pin f r) = filter (λ x, x ≠ f) (lru_list_ r)) as Hl.
  { unfold Pin. case_decide as Hin; simpl.
    - apply erase_node_filter, Hwf.
    - destruct Hin. by apply Hwf. }
  assert (S (Size (Pin f r)) = Size r) as Hlen.
  { unfold Size. rewrite Hl. clear -Hwf Hf. destruct Hwf as [Hnd _].
    induction Hnd as [|x l Hx Hnd IH]; [by apply not_elem_of_nil in Hf|].
    apply elem_of_cons in Hf as [->|Hf].
    - rewrite filter_cons_False by (intros Hne; by apply Hne).
      by rewrite filter_ne_absent.
    - rewrite filter_cons_True by (by intros ->). simpl. by rewrite IH. }
  split; [done|]. split; [|done].
  rewrite Unpin_push.
  - simpl. by rewrite Hl.
  - by apply wf_Pin.
  - by apply Pin_absent.
  - rewrite capacity_Pin. lia.
Qed.

Lemma Pin_then_Unpin_moves_to_front_witness :
  let r := unpin_all [0; 1; 2]%nat (new 3) in
  lru_list_ r = [2; 1; 0]%nat ∧
  lru_list_ (Unpin 0 (Pin 0 r)) = [0; 2; 1]%nat.
Proof.
  destruct (Pin_then_Unpin_moves_to_front 0 (unpin_all [0; 1; 2]%nat (new 3)))
    as (_ & Hl & _).
  - apply (unpin_all_remove_dups 3 [0; 1; 2]%nat).
    intros f Hf. repeat (apply elem_of_cons in Hf as [->|Hf]; [lia|]).
    by apply not_elem_of_nil in Hf.
  - vm_compute. right. right. left.
  - vm_compute. lia.
  - cbv zeta. split; [vm_compute; reflexivity|]. rewrite Hl. vm_compute. reflexivity.
Defined.

End replacer_runs.

(** ** More bookkeeping of an instance *)

Lemma inv_frames_fresh pool_size n i :
  inv_frames (BufferPoolManagerInstance pool_size n i).
Proof.
  split; simpl.
  - intros f. unfold page_at. simpl.
    destruct (decide (f < pool_size)%nat).
    + rewrite lookup_total_replicate_2 by done. done.
    + rewrite list_lookup_total_alt, lookup_ge_None_2; [done|].
      rewrite length_replicate. lia.
  - done.
  - intros f Hf. apply elem_of_seq in Hf. unfold page_at. simpl.
    rewrite lookup_total_replicate_2 by lia. done.
  - intros f [p Hp]. simpl in Hp. by rewrite lookup_empty in Hp.
Qed.

(** The three ways [FindPage] can go. *)
Lemma FindPage_free s d f rest :
  free_list_ s = f :: rest → FindPage s d = (Some f, set_free_list rest s, d).
Proof. intros Hfl. unfold FindPage. by rewrite Hfl. Qed.

Lemma FindPage_exhausted s d :
  LRUReplacer.wf (replacer_ s) → free_list_ s = [] →
  LRUReplacer.lru_list_ (replacer_ s) = [] →
  FindPage s d = (None, s, d).
Proof.
  intros Hwf Hfl Hl. unfold FindPage. rewrite Hfl, Victim_empty by done.
  by destruct s.
Qed.

Lemma FindPage_victim s d l f :
  LRUReplacer.wf (replacer_ s) → free_list_ s = [] →
  LRUReplacer.lru_list_ (replacer_ s) = l ++ [f] →
  FindPage s d =
    (Some f,
     set_page_table
       (delete (page_id_ (page_at s f)) (page_table_ s))
       (set_replacer
          (LRUReplacer.mk l (LRUReplacer.lru_map_ (replacer_ s) ∖ {[f]})
                          (LRUReplacer.capacity_ (replacer_ s))) s),
     if is_dirty_ (page_at s f)
     then WritePage (page_id_ (page_at s f)) (data_ (page_at s f)) d else d).
Proof.
  intros Hwf Hfl Hl. unfold FindPage. rewrite Hfl, (Victim_snoc _ l f) by done.
  done.
Qed.

Lemma inv_frames_FindPage s d f s1 d1 :
  inv s → inv_frames s → FindPage s d = (Some f, s1, d1) → inv_frames s1.
Proof.
  intros Hinv Hfr Hfp.
  destruct (free_list_ s) as [|f0 rest] eqn:Efl.
  - destruct (LRUReplacer.lru_list_ (replacer_ s)) as [|b l _] eqn:El using rev_ind.
    { rewrite FindPage_exhausted in Hfp by (done || apply Hinv). done. }
    rewrite (FindPage_victim s d l b) in Hfp by (done || apply Hinv).
    injection Hfp as <- <- <-.
    split; simpl.
    + apply Hfr.
    + apply Hfr.
    + rewrite Efl. intros g Hg. by apply not_elem_of_nil in Hg.
    + intros g [q Hq] Hpin. simpl in Hq. apply lookup_delete_Some in Hq as [Hne Hq].
      assert (in_replacer s g) as Hg by (apply (inv_tracked s Hfr); [by exists q|done]).
      unfold in_replacer in *. simpl. rewrite El in Hg.
      apply elem_of_app in Hg as [Hg|Hg]; [done|].
      apply list_elem_of_singleton in Hg as ->.
      apply (inv_table s Hinv) in Hq as [_ Hq]. done.
  - rewrite (FindPage_free s d f0 rest Efl) in Hfp. injection Hfp as <- <- <-.
    split; simpl; try apply Hfr.
    intros g Hg. apply (inv_blank s Hfr). rewrite Efl. by right.
Qed.

Lemma inv_frames_store_page f p s :
  inv s → inv_frames s →
  0 ≤ pin_count_ p →
  (f ∈ free_list_ s → p = blank_page) →
  (resident s f → pin_count_ p = 0 → in_replacer s f) →
  inv_frames (store_page f p s).
Proof.
  intros Hinv Hfr Hpin Hblank Htr. split; simpl.
  - intros g. rewrite page_at_store. case_decide; [done|apply Hfr].
  - apply Hfr.
  - intros g Hg. rewrite page_at_store. case_decide as Hd.
    + destruct Hd as [-> _]. by apply Hblank.
    + by apply (inv_blank s Hfr).
  - intros g Hres. rewrite page_at_store. case_decide as Hd.
    + destruct Hd as [-> _]. intros Hz. by apply Htr.
    + by apply (inv_tracked s Hfr).
Qed.

Lemma inv_frames_unmap page_id s :
  inv_frames s → inv_frames (set_page_table (delete page_id (page_table_ s)) s).
Proof.
  intros Hfr. split; simpl; try apply Hfr.
  intros g Hres. apply (inv_tracked s Hfr). by apply (resident_unmap page_id).
Qed.

Lemma inv_frames_install f page_id p s :
  inv s → inv_frames s → (f < pool_size_ s)%nat → f ∉ free_list_ s →
  0 < pin_count_ p →
  inv_frames (set_replacer
                (LRUReplacer.Pin f (replacer_ s))
                (set_page_table (<[page_id := f]> (page_table_ s)) (store_page f p s))).
Proof.
  intros Hinv Hfr Hlt Hfree Hpin.
  assert (length (pages_ s) = pool_size_ s) as Hlen by apply Hinv.
  assert (∀ g, page_at (set_replacer
                (LRUReplacer.Pin f (replacer_ s))
                (set_page_table (<[page_id := f]> (page_table_ s)) (store_page f p s))) g
               = page_at (store_page f p s) g) as Hpage by done.
  split.
  - intros g. rewrite Hpage, page_at_store. case_decide; [lia|apply Hfr].
  - simpl. rewrite capacity_Pin. apply Hfr.
  - intros g Hg. simpl in Hg. rewrite Hpage, page_at_store_ne by (by intros ->).
    by apply (inv_blank s Hfr).
  - intros g [q Hq]. rewrite Hpage. simpl in Hq.
    destruct (decide (g = f)) as [->|Hne].
    { rewrite page_at_store_eq by lia. lia. }
    rewrite page_at_store_ne by done. intros Hz.
    apply lookup_insert_Some in Hq as [[_ ->]|[_ Hq]]; [done|].
    unfold in_replacer. simpl. apply Pin_elem_of; [apply Hinv|]. split; [|done].
    apply (inv_tracked s Hfr); [by exists q|done].
Qed.

Lemma inv_frames_NewPgImp s d : inv s → inv_frames s → inv_frames (NewPgImp s d).1.2.
Proof.
  intros Hinv Hfr. unfold NewPgImp.
  destruct (FindPage s d) as [[[f|] s1] d1] eqn:Efp; simpl.
  - pose proof (inv_frames_FindPage s d f s1 d1 Hinv Hfr Efp) as Hfr1.
    apply FindPage_Some in Efp as (Hinv1 & Hlt & Hpin & Hres & Hfree & _); [|done].
    assert (inv (set_next_page_id (wrap_page_id (next_page_id_ s1 + num_instances_ s1)) s1))
      as Hinv2.
    { destruct Hinv1. by split. }
    assert (inv_frames (set_next_page_id
                          (wrap_page_id (next_page_id_ s1 + num_instances_ s1)) s1))
      as Hfr2.
    { destruct Hfr1. by split. }
    apply (inv_frames_install f (next_page_id_ s1) _ _ Hinv2 Hfr2); try done.
    change (0 < pin_count_ (page_at s1 f) + 1). rewrite Hpin. lia.
  - apply FindPage_None in Efp as (-> & _). done.
Qed.

Lemma inv_frames_FetchPgImp page_id s d :
  inv s → inv_frames s → inv_frames (FetchPgImp page_id s d).1.2.
Proof.
  intros Hinv Hfr. unfold FetchPgImp.
  destruct (page_table_ s !! page_id) as [f|] eqn:Ept; simpl.
  - destruct (inv_table s Hinv page_id f Ept) as [Hlt Hid].
    assert (length (pages_ s) = pool_size_ s) as Hlen by apply Hinv.
    pose proof (inv_pin s Hfr f) as Hpin.
    set (p := set_pin_count _ _).
    assert (∀ g, page_at (set_replacer (LRUReplacer.Pin f (replacer_ s))
                            (store_page f p s)) g
                 = page_at (store_page f p s) g) as Hpage by done.
    split.
    + intros g. rewrite Hpage, page_at_store. case_decide; [simpl; lia|apply Hfr].
    + simpl. rewrite capacity_Pin. apply Hfr.
    + intros g Hg. simpl in Hg. rewrite Hpage, page_at_store_ne.
      * by apply (inv_blank s Hfr).
      * intros ->. destruct (inv_free s Hinv f Hg) as (_ & _ & Hres).
        apply Hres. by exists page_id.
    + intros g Hres. rewrite Hpage.
      destruct (decide (g = f)) as [->|Hne].
      { rewrite page_at_store_eq by lia. simpl. lia. }
      rewrite page_at_store_ne by done. intros Hz.
      unfold in_replacer. simpl. apply Pin_elem_of; [apply Hinv|]. split; [|done].
      by apply (inv_tracked s Hfr).
  - destruct (FindPage s d) as [[[f|] s1] d1] eqn:Efp; simpl.
    + pose proof (inv_frames_FindPage s d f s1 d1 Hinv Hfr Efp) as Hfr1.
      apply FindPage_Some in Efp as (Hinv1 & Hlt & Hpin & Hres & Hfree & _); [|done].
      set (old := page_id_ (page_at s1 f)).
      match goal with
      | |- inv_frames (set_replacer _ (store_page _ ?p _)) =>
          refine (inv_frames_install f page_id p
                   (set_page_table (delete old (page_table_ s1)) s1)
                   (inv_unmap old s1 Hinv1) (inv_frames_unmap old s1 Hfr1)
                   Hlt Hfree _)
      end.
      change (0 < pin_count_ (page_at s1 f) + 1). rewrite Hpin. lia.
    + apply FindPage_None in Efp as (-> & _). done.
Qed.

(** In a state that satisfies [inv] and [inv_frames], a frame that is not
    tracked always has room in the replacer. *)
Lemma replacer_has_room s f :
  inv s → inv_frames s → (f < pool_size_ s)%nat → ¬ in_replacer s f →
  (LRUReplacer.Size (replacer_ s) < LRUReplacer.capacity_ (replacer_ s))%nat.
Proof.
  intros Hinv Hfr Hlt Hf.
  pose proof (valid_frames_fit (replacer_ s) [f]) as Hfit.
  simpl in Hfit. rewrite Nat.add_1_r in Hfit. apply Hfit.
  - apply Hinv.
  - apply NoDup_singleton.
  - intros g Hg. apply list_elem_of_singleton in Hg as ->. done.
  - rewrite (inv_capacity s Hfr). intros g [Hg|Hg].
    + apply list_elem_of_singleton in Hg as ->. done.
    + by apply (inv_replacer s Hinv).
Qed.

Lemma inv_frames_UnpinPgImp page_id is_dirty s d :
  inv s → inv_frames s → inv_frames (UnpinPgImp page_id is_dirty s d).1.2.
Proof.
  intros Hinv Hfr. unfold UnpinPgImp.
  destruct (page_table_ s !! page_id) as [f|] eqn:Ept; simpl; [|done].
  destruct (inv_table s Hinv page_id f Ept) as [Hlt Hid].
  assert (length (pages_ s) = pool_size_ s) as Hlen by apply Hinv.
  assert (f ∉ free_list_ s) as Hfree.
  { intros Hf. destruct (inv_free s Hinv f Hf) as (_ & _ & Hres).
    apply Hres. by exists page_id. }
  set (p1 := if is_dirty then set_is_dirty true (page_at s f) else page_at s f).
  assert (page_id_ p1 = page_id_ (page_at s f) ∧
          pin_count_ p1 = pin_count_ (page_at s f)) as [Hp1 Hp1'].
  { unfold p1. by destruct is_dirty. }
  pose proof (inv_pin s Hfr f) as Hpin.
  assert (inv (store_page f p1 s)) as Hinv1.
  { apply inv_store_page; [done|done|].
    intros [Hf|Hf]; rewrite Hp1'.
    - by apply (inv_free s Hinv).
    - by apply (inv_replacer s Hinv). }
  assert (inv_frames (store_page f p1 s)) as Hfr1.
  { apply inv_frames_store_page; [done|done|lia|done|].
    intros Hres Hz. rewrite Hp1' in Hz. by apply (inv_tracked s Hfr). }
  case_decide as Hz; simpl; [done|].
  rewrite Hp1' in Hz.
  assert (¬ in_replacer s f) as Hrep.
  { intros Hf. apply (inv_replacer s Hinv) in Hf as [_ Hf]. congruence. }
  set (p2 := set_pin_count (pin_count_ p1 - 1) p1).
  set (s2 := store_page f p2 (store_page f p1 s)).
  assert (∀ g, page_at s2 g = if decide (g = f) then p2 else page_at s g) as Hpage.
  { intros g. unfold s2. rewrite !page_at_store. simpl. rewrite length_insert.
    repeat case_decide; naive_solver lia. }
  assert (inv s2) as Hinv2.
  { apply inv_store_page; [done| |].
    - intros _. rewrite page_at_store_eq by lia. done.
    - intros [Hf|Hf]; done. }
  case_decide as Hz2.
  - assert (LRUReplacer.Unpin f (replacer_ s)
            = LRUReplacer.mk (f :: LRUReplacer.lru_list_ (replacer_ s))
                             ({[f]} ∪ LRUReplacer.lru_map_ (replacer_ s))
                             (LRUReplacer.capacity_ (replacer_ s))) as Hpush.
    { apply Unpin_push; [apply Hinv|done|]. by apply (replacer_has_room s f). }
    split.
    + intros g. change (0 ≤ pin_count_ (page_at s2 g)). rewrite Hpage.
      case_decide; [simpl; lia|apply Hfr].
    + simpl. rewrite Hpush. simpl. apply Hfr.
    + intros g Hg. simpl in Hg. change (page_at s2 g = blank_page).
      rewrite Hpage. case_decide; [by subst g|]. by apply (inv_blank s Hfr).
    + intros g Hres. change (pin_count_ (page_at s2 g) = 0 → g ∈ LRUReplacer.lru_list_
        (LRUReplacer.Unpin f (replacer_ s))).
      rewrite Hpush, Hpage. simpl.
      case_decide as Hg; [subst g; intros _; left|].
      intros Hz3. right. by apply (inv_tracked s Hfr).
  - split.
    + intros g. rewrite Hpage. case_decide; [simpl; lia|apply Hfr].
    + apply Hfr.
    + intros g Hg. simpl in Hg. rewrite Hpage.
      case_decide; [by subst g|]. by apply (inv_blank s Hfr).
    + intros g Hres. rewrite Hpage. case_decide as Hg.
      * subst g. intros Hz3. done.
      * intros Hz3. by apply (inv_tracked s Hfr).
Qed.

Lemma inv_frames_clean f s :
  inv s → inv_frames s → resident s f →
  inv_frames (store_page f (set_is_dirty false (page_at s f)) s).
Proof.
  intros Hinv Hfr Hres. apply inv_frames_store_page; [done|done| | |].
  - apply Hfr.
  - intros Hf. by destruct (inv_free s Hinv f Hf) as (_ & _ & []).
  - intros _. apply (inv_tracked s Hfr). done.
Qed.

Lemma inv_frames_FlushPgImp page_id s d :
  inv s → inv_frames s → inv_frames (FlushPgImp page_id s d).1.2.
Proof.
  intros Hinv Hfr. unfold FlushPgImp.
  destruct (page_table_ s !! page_id) as [f|] eqn:Ept; simpl; [|done].
  case_decide; simpl; [done|].
  apply inv_frames_clean; [done|done|]. by exists page_id.
Qed.

(** The loop of [FlushAllPgsImp] over any list of page-table entries. *)
Lemma flush_fold_inv l : ∀ s d,
  inv s → inv_frames s →
  (∀ q f, (q, f) ∈ l → page_table_ s !! q = Some f) →
  let r := foldl (λ '(s1, d1) '(page_id, frame_id),
                    (store_page frame_id (set_is_dirty false (page_at s1 frame_id)) s1,
                     WritePage page_id (data_ (page_at s1 frame_id)) d1))
                 (s, d) l in
  inv r.1 ∧ inv_frames r.1.
Proof.
  induction l as [|[q f] l IH]; intros s d Hinv Hfr Hl; simpl; [done|].
  apply IH.
  - apply inv_store_page; [done|done|].
    intros [Hf|Hf]; simpl.
    + by apply (inv_free s Hinv).
    + by apply (inv_replacer s Hinv).
  - apply inv_frames_clean; [done|done|]. exists q. apply Hl. left.
  - intros q' f' Hin. simpl. apply Hl. by right.
Qed.

Lemma inv_frames_FlushAllPgsImp s d :
  inv s → inv_frames s → inv_frames (FlushAllPgsImp s d).1.
Proof.
  intros Hinv Hfr. unfold FlushAllPgsImp.
  apply (flush_fold_inv (map_to_list (page_table_ s)) s d Hinv Hfr).
  intros q f Hin. by apply elem_of_map_to_list.
Qed.

Lemma inv_frames_DeletePgImp page_id s d :
  inv s → inv_frames s → inv_frames (DeletePgImp page_id s d).1.2.
Proof.
  intros Hinv Hfr. unfold DeletePgImp.
  destruct (page_table_ s !! page_id) as [f|] eqn:Ept; simpl; [|done].
  case_decide as Hpin; simpl; [done|].
  destruct (inv_table s Hinv page_id f Ept) as [Hlt Hid].
  assert (length (pages_ s) = pool_size_ s) as Hlen by apply Hinv.
  set (s1 := set_page_table (delete page_id (page_table_ s)) s).
  assert (¬ resident s1 f) as Hres.
  { intros [q Hq]. simpl in Hq. apply lookup_delete_Some in Hq as [Hne Hq].
    apply (inv_table s Hinv) in Hq as [_ Hq]. congruence. }
  match goal with
  | |- inv_frames (set_free_list _ (store_page _ ?p _)) => set (pg := p)
  end.
  assert (pg = blank_page) as Hpg by done.
  assert (∀ g, page_at (set_free_list (free_list_ s ++ [f]) (store_page f pg s1)) g
               = if decide (g = f) then blank_page else page_at s g) as Hpage.
  { intros g. transitivity (page_at (store_page f pg s1) g); [done|].
    rewrite page_at_store. simpl. rewrite Hpg.
    repeat case_decide; naive_solver lia. }
  split.
  - intros g. rewrite Hpage. case_decide; [done|apply Hfr].
  - apply Hfr.
  - intros g Hg. rewrite Hpage. case_decide; [done|].
    simpl in Hg. apply elem_of_app in Hg as [Hg|Hg].
    + by apply (inv_blank s Hfr).
    + by apply list_elem_of_singleton in Hg.
  - intros g Hg. rewrite Hpage. case_decide as Hgf.
    + subst g. destruct Hres. destruct Hg as [q Hq]. by exists q.
    + intros Hz. apply (inv_tracked s Hfr); [|done].
      by apply (resident_unmap page_id).
Qed.

Lemma inv_frames_step sd o : inv sd.1 → inv_frames sd.1 → inv_frames (step sd o).1.
Proof.
  destruct sd as [s d]. simpl. intros Hinv Hfr. destruct o; simpl.
  - pose proof (inv_frames_NewPgImp s d Hinv Hfr). by destruct (NewPgImp s d) as [[? ?] ?].
  - pose proof (inv_frames_FetchPgImp page_id s d Hinv Hfr).
    by destruct (FetchPgImp page_id s d) as [[? ?] ?].
  - pose proof (inv_frames_UnpinPgImp page_id is_dirty s d Hinv Hfr).
    by destruct (UnpinPgImp page_id is_dirty s d) as [[? ?] ?].
  - pose proof (inv_frames_FlushPgImp page_id s d Hinv Hfr).
    by destruct (FlushPgImp page_id s d) as [[? ?] ?].
  - by apply inv_frames_FlushAllPgsImp.
  - pose proof (inv_frames_DeletePgImp page_id s d Hinv Hfr).
    by destruct (DeletePgImp page_id s d) as [[? ?] ?].
  - case_decide as Hpin; simpl; [|done].
    apply inv_frames_store_page; [done|done| | |].
    + apply Hfr.
    + intros Hf. apply (inv_free s Hinv) in Hf as (_ & Hz & _). lia.
    + simpl. intros _ Hz. lia.
Qed.

Lemma inv_frames_run ops : ∀ sd,
  inv sd.1 → inv_frames sd.1 → inv_frames (run ops sd).1.
Proof.
  induction ops as [|o ops IH]; intros sd Hinv Hfr; simpl; [done|].
  apply IH; [by apply inv_step|by apply inv_frames_step].
Qed.

Lemma reachable_inv_frames s d : reachable s d → inv_frames s.
Proof.
  intros (ps & n & i & d0 & ops & _ & _ & Hrun).
  pose proof (inv_frames_run ops (BufferPoolManagerInstance ps n i, d0)
                (inv_fresh ps n i) (inv_frames_fresh ps n i)) as H.
  by rewrite Hrun in H.
Qed.

Lemma page_at_lookup s f pg : pages_ s !! f = Some pg → page_at s f = pg.
Proof. intros Hf. unfold page_at. by apply list_lookup_total_correct. Qed.

Lemma lookup_page_at s f :
  (f < length (pages_ s))%nat → pages_ s !! f = Some (page_at s f).
Proof. intros Hf. unfold page_at. by apply list_lookup_lookup_total_lt. Qed.

(** X6. In every state reachable by public calls the page table is
    injective and agrees with the frames: an entry points inside the frame
    array, the frame it points to carries the entry's page id, and two page
    ids are never mapped to the same frame. *)
Theorem page_table_is_injective (s : Instance) (d : DiskManager) :
  reachable s d →
  length (pages_ s) = pool_size_ s ∧
  (∀ page_id f, page_table_ s !! page_id = Some f →
     (f < pool_size_ s)%nat ∧ page_id_ <$> pages_ s !! f = Some page_id) ∧
  (∀ p q f, page_table_ s !! p = Some f → page_table_ s !! q = Some f → p = q).
Proof.
  intros Hreach. apply reachable_inv in Hreach as Hinv.
  assert (length (pages_ s) = pool_size_ s) as Hlen by apply Hinv.
  split; [done|]. split.
  - intros p f Hp. destruct (inv_table s Hinv p f Hp) as [Hlt Hid].
    split; [done|]. rewrite lookup_page_at by lia. simpl. by rewrite Hid.
  - intros p q f Hp Hq.
    apply (inv_table s Hinv) in Hp as [_ Hp], Hq as [_ Hq]. congruence.
Qed.

Lemma page_table_is_injective_witness :
  let s := (run [OpNewPage; OpFetchPage 7; OpNewPage; OpUnpinPage 7 true; OpFetchPage 9]
                (BufferPoolManagerInstance 3 1 0, empty_disk)).1 in
  page_table_ s !! 9 = Some 1%nat ∧
  (1 < pool_size_ s)%nat ∧ page_id_ <$> pages_ s !! 1%nat = Some 9.
Proof.
  assert (page_table_
            (run [OpNewPage; OpFetchPage 7; OpNewPage; OpUnpinPage 7 true; OpFetchPage 9]
                 (BufferPoolManagerInstance 3 1 0, empty_disk)).1 !! 9 = Some 1%nat)
    as Hp by (vm_compute; reflexivity).
  split; [exact Hp|].
  refine (proj1 (proj2 (page_table_is_injective _ _ _)) 9 1%nat Hp).
  apply reachable_run; lia.
Defined.

(** X7. In every reachable state the free list has no duplicates, and a
    frame in it lies inside the frame array, is not resident and is blank:
    [INVALID_PAGE_ID], pin count 0, clean, all-zero buffer. *)
Theorem free_frames_are_blank (s : Instance) (d : DiskManager) :
  reachable s d →
  NoDup (free_list_ s) ∧
  ∀ f, f ∈ free_list_ s →
    (f < pool_size_ s)%nat ∧ ¬ resident s f ∧
    pages_ s !! f = Some (mkPage INVALID_PAGE_ID 0 false (replicate PAGE_SIZE x00)).
Proof.
  intros Hreach. apply reachable_inv in Hreach as Hinv.
  apply reachable_inv_frames in Hreach as Hfr.
  assert (length (pages_ s) = pool_size_ s) as Hlen by apply Hinv.
  split; [apply Hinv|]. intros f Hf.
  destruct (inv_free s Hinv f Hf) as (Hlt & _ & Hres).
  split; [done|]. split; [done|].
  rewrite lookup_page_at by lia. by rewrite (inv_blank s Hfr f Hf).
Qed.

Lemma free_frames_are_blank_witness :
  let s := one_frame_deleted.1 in
  pages_ s !! 0%nat = Some (mkPage INVALID_PAGE_ID 0 false (replicate PAGE_SIZE x00)).
Proof.
  refine (proj2 (proj2 (proj2 (free_frames_are_blank one_frame_deleted.1
                                 one_frame_deleted.2 _) 0%nat _))).
  - apply reachable_run; lia.
  - vm_compute. left.
Defined.

(** X8. No run of public calls drives a pin count below zero. *)
Theorem pin_counts_are_non_negative (s : Instance) (d : DiskManager) :
  reachable s d → ∀ pg, pg ∈ pages_ s → 0 ≤ pin_count_ pg.
Proof.
  intros Hreach pg Hpg. apply reachable_inv_frames in Hreach as Hfr.
  apply list_elem_of_lookup in Hpg as [f Hf].
  rewrite <- (page_at_lookup s f pg Hf). apply Hfr.
Qed.

Lemma pin_counts_are_non_negative_witness :
  let s := (run [OpNewPage; OpUnpinPage 0 false; OpUnpinPage 0 false;
                 OpDeletePage 0; OpUnpinPage 0 true]
                (BufferPoolManagerInstance 2 1 0, empty_disk)).1 in
  0 ≤ pin_count_ (page_at s 0%nat).
Proof.
  refine (pin_counts_are_non_negative _
            (run [OpNewPage; OpUnpinPage 0 false; OpUnpinPage 0 false;
                  OpDeletePage 0; OpUnpinPage 0 true]
                 (BufferPoolManagerInstance 2 1 0, empty_disk)).2 _ _ _).
  - apply reachable_run; lia.
  - apply list_elem_of_lookup. exists 0%nat. apply lookup_page_at.
    vm_compute. lia.
Defined.

(** X9. In every reachable state every resident frame with pin count 0 is
    tracked by the replacer, every tracked frame lies inside the frame array
    and has pin count 0, the replacer still has the capacity [pool_size_]
    and tracks at most that many frames. (A tracked frame need not be
    resident.) *)
Theorem replacer_tracks_unpinned_frames (s : Instance) (d : DiskManager) :
  reachable s d →
  (∀ f, resident s f → pin_count_ (page_at s f) = 0 → in_replacer s f) ∧
  (∀ f, in_replacer s f → (f < pool_size_ s)%nat ∧ pin_count_ (page_at s f) = 0) ∧
  LRUReplacer.capacity_ (replacer_ s) = pool_size_ s ∧
  (LRUReplacer.Size (replacer_ s) ≤ pool_size_ s)%nat.
Proof.
  intros Hreach. apply reachable_inv in Hreach as Hinv.
  apply reachable_inv_frames in Hreach as Hfr.
  split; [apply Hfr|]. split; [apply Hinv|]. split; [apply Hfr|].
  apply bounded_NoDup_length; [apply Hinv|].
  intros f Hf. by apply (inv_replacer s Hinv).
Qed.

Lemma replacer_tracks_unpinned_frames_witness :
  in_replacer one_frame_unpinned.1 0%nat.
Proof.
  refine (proj1 (replacer_tracks_unpinned_frames one_frame_unpinned.1
                   one_frame_unpinned.2 _) 0%nat _ _).
  - apply reachable_run; lia.
  - exists 0. vm_compute. reflexivity.
  - vm_compute. reflexivity.
Defined.

(** X10. Inside an instance the capacity guard of the replacer never fires:
    in a reachable state, when [UnpinPgImp] takes the last pin of a page, its
    frame is put at the front of the replacer list and every frame tracked
    before is still tracked, in the same order. *)
Theorem UnpinPage_last_pin_pushes_front (page_id : page_id_t) (is_dirty : bool)
    (f : frame_id_t) (s : Instance) (d : DiskManager) :
  reachable s d →
  page_table_ s !! page_id = Some f →
  pin_count_ (page_at s f) = 1 →
  let r := UnpinPgImp page_id is_dirty s d in
  r.1.1 = true ∧
  LRUReplacer.lru_list_ (replacer_ r.1.2) = f :: LRUReplacer.lru_list_ (replacer_ s).
Proof.
  intros Hreach Ept Hone. apply reachable_inv in Hreach as Hinv.
  apply reachable_inv_frames in Hreach as Hfr. intros r. subst r.
  destruct (inv_table s Hinv page_id f Ept) as [Hlt Hid].
  assert (¬ in_replacer s f) as Hrep.
  { intros Hf. apply (inv_replacer s Hinv) in Hf as [_ Hf]. congruence. }
  unfold UnpinPgImp. rewrite Ept.
  set (p1 := if is_dirty then set_is_dirty true (page_at s f) else page_at s f).
  assert (pin_count_ p1 = 1) as Hp1 by (unfold p1; by destruct is_dirty).
  simpl. rewrite Hp1. simpl.
  rewrite Unpin_push; [done|apply Hinv|done|]. by apply (replacer_has_room s f).
Qed.

Lemma UnpinPage_last_pin_pushes_front_witness :
  let s := (run [OpNewPage; OpNewPage; OpUnpinPage 1 false]
                (BufferPoolManagerInstance 2 1 0, empty_disk)) in
  LRUReplacer.lru_list_ (replacer_ (UnpinPgImp 0 true s.1 s.2).1.2) = [0; 1]%nat.
Proof.
  destruct (UnpinPage_last_pin_pushes_front 0 true 0%nat
              (run [OpNewPage; OpNewPage; OpUnpinPage 1 false]
                   (BufferPoolManagerInstance 2 1 0, empty_disk)).1
              (run [OpNewPage; OpNewPage; OpUnpinPage 1 false]
                   (BufferPoolManagerInstance 2 1 0, empty_disk)).2) as [_ Hl].
  - apply reachable_run; lia.
  - vm_compute. reflexivity.
  - vm_compute. reflexivity.
  - cbv zeta. rewrite Hl. vm_compute. reflexivity.
Defined.

(** Which frame [FindPage] picks, and what it leaves behind. *)
Lemma FindPage_pick s d f s1 d1 :
  inv s → inv_frames s → FindPage s d = (Some f, s1, d1) →
  (head (free_list_ s) = Some f ∧ page_at s f = blank_page ∧ d1 = d ∧
   s1 = set_free_list (tail (free_list_ s)) s) ∨
  (free_list_ s = [] ∧ last (LRUReplacer.lru_list_ (replacer_ s)) = Some f ∧
   d1 = (if is_dirty_ (page_at s f)
         then WritePage (page_id_ (page_at s f)) (data_ (page_at s f)) d else d) ∧
   page_table_ s1 = delete (page_id_ (page_at s f)) (page_table_ s) ∧
   LRUReplacer.lru_list_ (replacer_ s1) = removelast (LRUReplacer.lru_list_ (replacer_ s)) ∧
   free_list_ s1 = []).
Proof.
  intros Hinv Hfr Hfp.
  destruct (free_list_ s) as [|f0 rest] eqn:Efl.
  - right.
    destruct (LRUReplacer.lru_list_ (replacer_ s)) as [|b l _] eqn:El using rev_ind.
    { rewrite FindPage_exhausted in Hfp by (done || apply Hinv). done. }
    rewrite (FindPage_victim s d l b) in Hfp by (done || apply Hinv).
    injection Hfp as <- <- <-. simpl. rewrite last_snoc, removelast_last. done.
  - left. rewrite (FindPage_free s d f0 rest Efl) in Hfp. injection Hfp as <- <- <-.
    simpl. split; [done|]. split; [|done].
    apply (inv_blank s Hfr). rewrite Efl. left.
Qed.

(** X11. [FetchPgImp] on a page that is not resident, in a reachable state.
    It answers [None] exactly when the free list is empty and the replacer
    has no victim, and then changes nothing. Otherwise the frame it answers
    had pin count 0; afterwards the frame holds the page with pin count 1 and
    a clean dirty bit, is the page-table entry of the page, is not tracked by
    the replacer, and its buffer is what the disk manager returns for the
    page. A clean frame costs one read; a dirty victim is first written back
    under its old page id, twice (once by [FindPage] and once by
    [FetchPgImp]), and the read comes after. *)
Theorem FetchPage_miss (page_id : page_id_t) (s : Instance) (d : DiskManager) :
  reachable s d →
  page_table_ s !! page_id = None →
  let r := FetchPgImp page_id s d in
  (r.1.1 = None ↔
     free_list_ s = [] ∧ (LRUReplacer.Victim (replacer_ s)).1 = None) ∧
  (r.1.1 = None → r = (None, s, d)) ∧
  (∀ f, r.1.1 = Some f →
     let old := page_at s f in
     pin_count_ old = 0 ∧
     page_table_ r.1.2 !! page_id = Some f ∧
     ¬ in_replacer r.1.2 f ∧
     (is_dirty_ old = false →
        pages_ r.1.2 !! f
          = Some (mkPage page_id 1 false (default zero_data (disk_pages d !! page_id))) ∧
        r.2 = mkDisk (disk_pages d) (EvReadPage page_id :: disk_log d)) ∧
     (is_dirty_ old = true →
        let written := <[page_id_ old := data_ old]> (disk_pages d) in
        pages_ r.1.2 !! f
          = Some (mkPage page_id 1 false (default zero_data (written !! page_id))) ∧
        r.2 = mkDisk written
                (EvReadPage page_id :: EvWritePage (page_id_ old) (data_ old)
                   :: EvWritePage (page_id_ old) (data_ old) :: disk_log d))).
Proof.
  intros Hreach Ept. apply reachable_inv in Hreach as Hinv.
  apply reachable_inv_frames in Hreach as Hfr. intros r. subst r.
  unfold FetchPgImp. rewrite Ept.
  destruct (FindPage s d) as [[[f|] s1] d1] eqn:Efp; simpl.
  - pose proof (FindPage_pick s d f s1 d1 Hinv Hfr Efp) as Hpick.
    apply FindPage_Some in Efp
      as (Hinv1 & Hlt & Hpin & Hres & Hfree & Hpages & Hps & _); [|done].
    assert (length (pages_ s1) = pool_size_ s1) as Hlen by apply Hinv1.
    assert (page_at s1 f = page_at s f) as Hsame by (unfold page_at; by rewrite Hpages).
    rewrite Hsame in *.
    split; [|split; [done|]].
    { split; [done|]. intros [Hfl Hv]. unfold FindPage in *.
      destruct Hpick as [(Hh & _)|(_ & Hl & _)].
      - by rewrite Hfl in Hh.
      - unfold LRUReplacer.Victim in Hv. case_decide as He.
        + apply (wf_empty_iff _ (inv_replacer_wf s Hinv)) in He.
          by rewrite He in Hl.
        + by rewrite Hl in Hv. }
    intros f' [= <-]. simpl. split; [done|]. split; [apply lookup_insert_eq|].
    split; [unfold in_replacer; simpl; apply Pin_absent, Hinv1|].
    split.
    + intros Hclean. rewrite Hclean.
      assert (d1 = d) as ->.
      { destruct Hpick as [(_ & _ & -> & _)|(_ & _ & -> & _)]; [done|].
        by rewrite Hclean. }
      split; [|done]. rewrite Hpin. simpl. apply list_lookup_insert_eq. lia.
    + intros Hdirty. rewrite Hdirty.
      destruct Hpick as [(_ & Hblank & _)|(_ & _ & -> & _)].
      { rewrite Hblank in Hdirty. done. }
      rewrite Hdirty. simpl. rewrite insert_insert_eq.
      split; [|done]. rewrite Hpin. simpl. apply list_lookup_insert_eq. lia.
  - apply FindPage_None in Efp as (-> & -> & Hfl & Hv).
    split; [|split; done]. done.
Qed.

Lemma FetchPage_miss_witness :
  let sd := run [OpNewPage; OpWriteData 0%nat (replicate PAGE_SIZE "A"%byte);
                 OpUnpinPage 0 true] one_frame in
  let r := FetchPgImp 5 sd.1 sd.2 in
  r.1.1 = Some 0%nat ∧
  pages_ r.1.2 !! 0%nat = Some (mkPage 5 1 false zero_data) ∧
  disk_pages r.2 !! 0 = Some (replicate PAGE_SIZE "A"%byte).
Proof.
  set (sd := run [OpNewPage; OpWriteData 0%nat (replicate PAGE_SIZE "A"%byte);
                  OpUnpinPage 0 true] one_frame).
  assert ((FetchPgImp 5 sd.1 sd.2).1.1 = Some 0%nat) as Hret by (vm_compute; reflexivity).
  destruct (FetchPage_miss 5 sd.1 sd.2) as (_ & _ & Hsome).
  - apply reachable_run; lia.
  - vm_compute. reflexivity.
  - destruct (Hsome 0%nat Hret) as (_ & _ & _ & _ & Hdirty).
    destruct Hdirty as [Hpage Hdisk]; [vm_compute; reflexivity|].
    cbv zeta. split; [exact Hret|]. split.
    + rewrite Hpage. vm_compute. reflexivity.
    + rewrite Hdisk. vm_compute. reflexivity.
Defined.

(** X12. A pinned frame is never reused: in a reachable state, [NewPgImp] and
    a [FetchPgImp] of a page that is not resident never answer a frame with a
    positive pin count, and leave every such frame (page id, pin count, dirty
    bit and buffer) as it was. *)
Theorem pinned_frames_are_not_reused (g : frame_id_t) (s : Instance) (d : DiskManager) :
  reachable s d →
  0 < pin_count_ (page_at s g) →
  (∀ page_id f, (NewPgImp s d).1.1 = Some (page_id, f) → f ≠ g) ∧
  pages_ (NewPgImp s d).1.2 !! g = pages_ s !! g ∧
  (∀ page_id, page_table_ s !! page_id = None →
     (FetchPgImp page_id s d).1.1 ≠ Some g ∧
     pages_ (FetchPgImp page_id s d).1.2 !! g = pages_ s !! g).
Proof.
  intros Hreach Hpin. apply reachable_inv in Hreach as Hinv.
  split; [|split].
  - intros pid f. unfold NewPgImp.
    destruct (FindPage s d) as [[[f0|] s1] d1] eqn:Efp; simpl; [|done].
    apply FindPage_Some in Efp as (_ & _ & Hz & _ & _ & Hpages & _); [|done].
    intros [= _ <-] ->. unfold page_at in *. rewrite Hpages in Hz. lia.
  - unfold NewPgImp.
    destruct (FindPage s d) as [[[f0|] s1] d1] eqn:Efp; simpl.
    + apply FindPage_Some in Efp as (_ & _ & Hz & _ & _ & Hpages & _); [|done].
      rewrite Hpages. apply list_lookup_insert_ne. intros ->.
      unfold page_at in *. rewrite Hpages in Hz. lia.
    + by apply FindPage_None in Efp as (-> & _).
  - intros pid Ept. unfold FetchPgImp. rewrite Ept.
    destruct (FindPage s d) as [[[f0|] s1] d1] eqn:Efp; simpl.
    + apply FindPage_Some in Efp as (_ & _ & Hz & _ & _ & Hpages & _); [|done].
      assert (f0 ≠ g) as Hne.
      { intros ->. unfold page_at in *. rewrite Hpages in Hz. lia. }
      split; [congruence|]. rewrite Hpages. by apply list_lookup_insert_ne.
    + by apply FindPage_None in Efp as (-> & _).
Qed.

Lemma pinned_frames_are_not_reused_witness :
  let sd := run [OpNewPage; OpNewPage; OpUnpinPage 1 false]
                (BufferPoolManagerInstance 2 1 0, empty_disk) in
  (NewPgImp sd.1 sd.2).1.1 = Some (2, 1%nat) ∧
  pages_ (NewPgImp sd.1 sd.2).1.2 !! 0%nat = pages_ sd.1 !! 0%nat.
Proof.
  split; [vm_compute; reflexivity|].
  refine (proj1 (proj2 (pinned_frames_are_not_reused 0%nat _
             (run [OpNewPage; OpNewPage; OpUnpinPage 1 false]
                  (BufferPoolManagerInstance 2 1 0, empty_disk)).2 _ _))).
  - apply reachable_run; lia.
  - vm_compute. reflexivity.
Defined.

Lemma Pin_untracked f r : f ∉ LRUReplacer.lru_map_ r → LRUReplacer.Pin f r = r.
Proof. intros Hf. unfold LRUReplacer.Pin. by case_decide. Qed.



(** The victim may hold the very id that is handed out: on a one-frame
    instance that fetched page 0, wrote to it and unpinned it dirty, the
    first [NewPage] answers id 0 again, keeps the entry of id 0 and leaves
    zeroes on disk under it. *)
Example NewPage_evicts_frame_holding_the_new_id :
  let sd := run [OpFetchPage 0; OpWriteData 0%nat (replicate PAGE_SIZE "B"%byte);
                 OpUnpinPage 0 true]
                (BufferPoolManagerInstance 1 1 0, empty_disk) in
  page_id_ (page_at sd.1 0%nat) = 0 ∧
  is_dirty_ (page_at sd.1 0%nat) = true ∧
  (NewPgImp sd.1 sd.2).1.1 = Some (0, 0%nat) ∧
  page_table_ (NewPgImp sd.1 sd.2).1.2 !! 0 = Some 0%nat ∧
  disk_pages (NewPgImp sd.1 sd.2).2 !! 0 = Some zero_data.
Proof. vm_compute. repeat split; reflexivity. Qed.

(** X14. Round trip through the disk: in a reachable state, deleting a
    resident, unpinned, dirty page writes its buffer back, and fetching the
    page right afterwards succeeds and hands out a frame that holds the same
    bytes, with pin count 1 and a clean dirty bit. *)
Theorem DeletePage_then_FetchPage_restores_bytes (page_id : page_id_t)
    (f : frame_id_t) (s : Instance) (d : DiskManager) :
  reachable s d →
  page_table_ s !! page_id = Some f →
  pin_count_ (page_at s f) = 0 →
  is_dirty_ (page_at s f) = true →
  let r1 := DeletePgImp page_id s d in
  let r2 := FetchPgImp page_id r1.1.2 r1.2 in
  r1.1.1 = true ∧
  ∃ g, r2.1.1 = Some g ∧
       pages_ r2.1.2 !! g = Some (mkPage page_id 1 false (data_ (page_at s f))).
Proof.
  intros Hreach Ept Hpin Hdirty. apply reachable_inv in Hreach as Hinv.
  apply reachable_inv_frames in Hreach as Hfr. intros r1 r2.
  pose proof (inv_DeletePgImp page_id s d Hinv) as Hinv1.
  pose proof (inv_frames_DeletePgImp page_id s d Hinv Hfr) as Hfr1.
  fold r1 in Hinv1, Hfr1.
  assert (r1.1.1 = true ∧
          page_table_ r1.1.2 !! page_id = None ∧
          free_list_ r1.1.2 = free_list_ s ++ [f] ∧
          disk_pages r1.2 !! page_id = Some (data_ (page_at s f))) as (Hret & Hgone & Hfl & Hdisk).
  { unfold r1, DeletePgImp. rewrite Ept. case_decide; [lia|]. simpl.
    split; [done|]. split; [apply lookup_delete_eq|]. split; [done|].
    rewrite Hdirty. simpl. apply lookup_insert_eq. }
  split; [done|]. subst r2. clearbody r1. destruct r1 as [[ret s1] d1]. simpl in *.
  destruct (free_list_ s1) as [|g rest] eqn:Efree.
  { destruct (free_list_ s); done. }
  assert (g ∈ free_list_ s1) as Hg by (rewrite Efree; left).
  destruct (inv_free _ Hinv1 g Hg) as (Hlt & _ & _).
  pose proof (inv_blank _ Hfr1 g Hg) as Hblank.
  assert (length (pages_ s1) = pool_size_ s1) as Hlen by apply Hinv1.
  exists g. unfold FetchPgImp.
  rewrite Hgone, (FindPage_free _ _ g rest Efree).
  replace (page_at (set_free_list rest s1) g) with blank_page by (by rewrite <- Hblank).
  simpl. rewrite Hdisk. simpl. split; [done|]. apply list_lookup_insert_eq. lia.
Qed.

Lemma DeletePage_then_FetchPage_restores_bytes_witness :
  let sd := run [OpNewPage; OpWriteData 0%nat (replicate PAGE_SIZE "C"%byte);
                 OpUnpinPage 0 true]
                (BufferPoolManagerInstance 2 1 0, empty_disk) in
  let r1 := DeletePgImp 0 sd.1 sd.2 in
  let r2 := FetchPgImp 0 r1.1.2 r1.2 in
  ∃ g, r2.1.1 = Some g ∧
       pages_ r2.1.2 !! g = Some (mkPage 0 1 false (replicate PAGE_SIZE "C"%byte)).
Proof.
  set (sd := run [OpNewPage; OpWriteData 0%nat (replicate PAGE_SIZE "C"%byte);
                  OpUnpinPage 0 true]
                 (BufferPoolManagerInstance 2 1 0, empty_disk)).
  destruct (DeletePage_then_FetchPage_restores_bytes 0 0%nat sd.1 sd.2)
    as (_ & g & Hret & Hpage).
  - apply reachable_run; lia.
  - vm_compute. reflexivity.
  - vm_compute. reflexivity.
  - vm_compute. reflexivity.
  - cbv zeta. exists g. split; [exact Hret|]. rewrite Hpage.
    vm_compute. reflexivity.
Defined.

(** The loop of [FlushAllPgsImp] over a list of entries with distinct page
    ids that point inside the frame array. *)
Lemma flush_fold_spec l : ∀ s d,
  NoDup l.*1 →
  (∀ q f, (q, f) ∈ l → (f < length (pages_ s))%nat) →
  let r := foldl (λ '(s1, d1) '(page_id, frame_id),
                    (store_page frame_id (set_is_dirty false (page_at s1 frame_id)) s1,
                     WritePage page_id (data_ (page_at s1 frame_id)) d1))
                 (s, d) l in
  page_table_ r.1 = page_table_ s ∧ free_list_ r.1 = free_list_ s ∧
  replacer_ r.1 = replacer_ s ∧ next_page_id_ r.1 = next_page_id_ s ∧
  length (pages_ r.1) = length (pages_ s) ∧
  (∀ g, page_at r.1 g = if decide (g ∈ l.*2)
                        then set_is_dirty false (page_at s g) else page_at s g) ∧
  (∀ q f, (q, f) ∈ l → disk_pages r.2 !! q = Some (data_ (page_at s f))) ∧
  (∀ q, q ∉ l.*1 → disk_pages r.2 !! q = disk_pages d !! q).
Proof.
  induction l as [|[q0 f0] l IH]; intros s d Hnd Hrange; cbn [foldl].
  { split; [done|]. split; [done|]. split; [done|]. split; [done|]. split; [done|].
    split; [|split].
    - intros g. rewrite decide_False; [done|]. apply not_elem_of_nil.
    - intros q f Hin. by apply not_elem_of_nil in Hin.
    - done. }
  rewrite !fmap_cons in *. cbn [fst snd] in *.
  apply NoDup_cons in Hnd as [Hq0 Hnd].
  assert (f0 < length (pages_ s))%nat as Hf0 by (apply (Hrange q0); left).
  set (s1 := store_page f0 (set_is_dirty false (page_at s f0)) s).
  set (d1 := WritePage q0 (data_ (page_at s f0)) d).
  assert (∀ g, page_at s1 g = if decide (g = f0)
                              then set_is_dirty false (page_at s f0) else page_at s g)
    as Hpage1.
  { intros g. unfold s1. rewrite page_at_store. repeat case_decide; naive_solver. }
  destruct (IH s1 d1 Hnd) as (Hpt & Hfl & Hrep & Hnx & Hlen & Hpage & Hdisk & Hother).
  { intros q f Hin. unfold s1. simpl. rewrite length_insert. apply (Hrange q). by right. }
  split; [done|]. split; [done|]. split; [done|]. split; [done|].
  split; [rewrite Hlen; unfold s1; simpl; by rewrite length_insert|].
  split; [|split].
  - intros g. rewrite Hpage, Hpage1.
    destruct (decide (g ∈ f0 :: l.*2)) as [Hc|Hc], (decide (g ∈ l.*2)) as [Hg|Hg],
             (decide (g = f0)) as [Hgf|Hgf]; try (subst; simpl; done); exfalso.
    all: try (apply elem_of_cons in Hc as [Hc|Hc]; done).
    all: try (apply Hc; by right).
    all: try (apply Hc; subst g; left).
  - intros q f Hin. apply elem_of_cons in Hin as [[= -> ->]|Hin].
    + rewrite Hother by done. unfold d1. simpl. apply lookup_insert_eq.
    + rewrite (Hdisk q f Hin), Hpage1. case_decide; subst; done.
  - intros q Hq. apply not_elem_of_cons in Hq as [Hne Hq].
    rewrite Hother by done. unfold d1. simpl. by rewrite lookup_insert_ne.
Qed.

(** X15. [FlushAllPgsImp] in a reachable state: afterwards every resident
    frame is clean and the disk holds, under each resident page id, the
    buffer of its frame; the disk contents of other pages, the frames that
    are not resident, every frame's page id, pin count and buffer, the page
    table, the free list, the replacer and the allocator are unchanged. *)
Theorem FlushAllPages_cleans_resident_frames (s : Instance) (d : DiskManager) :
  reachable s d →
  let r := FlushAllPgsImp s d in
  (∀ q f, page_table_ s !! q = Some f →
     is_dirty_ (page_at r.1 f) = false ∧
     disk_pages r.2 !! q = Some (data_ (page_at s f))) ∧
  (∀ q, page_table_ s !! q = None → disk_pages r.2 !! q = disk_pages d !! q) ∧
  (∀ g, page_id_ (page_at r.1 g) = page_id_ (page_at s g) ∧
        pin_count_ (page_at r.1 g) = pin_count_ (page_at s g) ∧
        data_ (page_at r.1 g) = data_ (page_at s g)) ∧
  (∀ g, ¬ resident s g → page_at r.1 g = page_at s g) ∧
  page_table_ r.1 = page_table_ s ∧ free_list_ r.1 = free_list_ s ∧
  replacer_ r.1 = replacer_ s ∧ next_page_id_ r.1 = next_page_id_ s.
Proof.
  intros Hreach. apply reachable_inv in Hreach as Hinv. intros r.
  assert (length (pages_ s) = pool_size_ s) as Hlen by apply Hinv.
  destruct (flush_fold_spec (map_to_list (page_table_ s)) s d)
    as (Hpt & Hfl & Hrep & Hnx & _ & Hpage & Hdisk & Hother).
  { apply NoDup_fst_map_to_list. }
  { intros q f Hin. apply elem_of_map_to_list in Hin.
    apply (inv_table s Hinv) in Hin as [Hlt _]. lia. }
  fold (FlushAllPgsImp s d) in Hpt, Hfl, Hrep, Hnx, Hpage, Hdisk, Hother.
  fold r in Hpt, Hfl, Hrep, Hnx, Hpage, Hdisk, Hother.
  assert (∀ g, g ∈ (map_to_list (page_table_ s)).*2 ↔ resident s g) as Hres.
  { intros g. rewrite list_elem_of_fmap. split.
    - intros ([q f] & -> & Hin). exists q. by apply elem_of_map_to_list.
    - intros [q Hq]. exists (q, g). split; [done|]. by apply elem_of_map_to_list. }
  split; [|split; [|split; [|split]]].
  - intros q f Hq. split.
    + rewrite Hpage. rewrite decide_True; [done|]. apply Hres. by exists q.
    + apply Hdisk. by apply elem_of_map_to_list.
  - intros q Hq. apply Hother. rewrite list_elem_of_fmap.
    intros ([q' f] & -> & Hin). apply elem_of_map_to_list in Hin. simpl in Hq. congruence.
  - intros g. rewrite Hpage. by case_decide.
  - intros g Hg. rewrite Hpage. rewrite decide_False; [done|]. by rewrite Hres.
  - done.
Qed.

Lemma FlushAllPages_cleans_resident_frames_witness :
  let sd := run [OpNewPage; OpNewPage; OpWriteData 1%nat (replicate PAGE_SIZE "D"%byte);
                 OpUnpinPage 1 true]
                (BufferPoolManagerInstance 2 1 0, empty_disk) in
  let r := FlushAllPgsImp sd.1 sd.2 in
  is_dirty_ (page_at sd.1 1%nat) = true ∧
  is_dirty_ (page_at r.1 1%nat) = false ∧
  disk_pages r.2 !! 1 = Some (replicate PAGE_SIZE "D"%byte).
Proof.
  set (sd := run [OpNewPage; OpNewPage; OpWriteData 1%nat (replicate PAGE_SIZE "D"%byte);
                  OpUnpinPage 1 true]
                 (BufferPoolManagerInstance 2 1 0, empty_disk)).
  destruct (FlushAllPages_cleans_resident_frames sd.1 sd.2) as (Hflush & _).
  - apply reachable_run; lia.
  - destruct (Hflush 1 1%nat) as [Hclean Hdisk]; [vm_compute; reflexivity|].
    cbv zeta. split; [vm_compute; reflexivity|]. split; [exact Hclean|].
    rewrite Hdisk. vm_compute. reflexivity.
Defined.

Lemma fill_answers m : ∀ (k : nat) s d,
  free_list_ s = seq k m →
  LRUReplacer.lru_map_ (replacer_ s) = ∅ →
  0 ≤ num_instances_ s →
  - 2 ^ 31 ≤ next_page_id_ s →
  next_page_id_ s + Z.of_nat m * num_instances_ s < 2 ^ 31 →
  answers (replicate (S m) OpNewPage) (s, d)
  = ((λ j : nat, RetNewPage (Some (next_page_id_ s + Z.of_nat j * num_instances_ s,
                                   (k + j)%nat))) <$> seq 0 m)
    ++ [RetNewPage None].
Proof.
  induction m as [|m IH]; intros k s d Hfl Hmap Hn Hlo Hhi.
  - simpl. f_equal. f_equal. apply NewPgImp_None_iff. split; [done|].
    unfold LRUReplacer.Victim. by case_decide.
  - change (replicate (S (S m)) OpNewPage) with (OpNewPage :: replicate (S m) OpNewPage).
    cbn [answers answer step]. simpl in Hfl.
    rewrite Nat2Z.inj_succ in Hhi.
    assert (0 ≤ Z.of_nat m * num_instances_ s) as Hm by nia.
    assert (NewPgImp s d
            = (Some (next_page_id_ s, k),
               set_replacer (replacer_ s)
                 (set_page_table (<[next_page_id_ s := k]> (page_table_ s))
                    (store_page k (mkPage (next_page_id_ s) (pin_count_ (page_at s k) + 1)
                                          false zero_data)
                       (set_next_page_id (next_page_id_ s + num_instances_ s)
                          (set_free_list (seq (S k) m) s)))),
               WritePage (next_page_id_ s) zero_data d)) as Hnew.
    { unfold NewPgImp. rewrite (FindPage_free s d k (seq (S k) m) Hfl).
      unfold AllocatePage. cbn [set_free_list next_page_id_ num_instances_].
      rewrite wrap_page_id_small by lia. simpl.
      rewrite Pin_untracked; [done|]. simpl. rewrite Hmap. set_solver. }
    rewrite Hnew. cbn [fst snd].
    rewrite IH with (k := S k); [|done|done|simpl; lia|simpl; lia|simpl; lia]. simpl.
    f_equal; [do 3 f_equal; [lia|lia]|]. f_equal.
    rewrite <- fmap_S_seq, <- list_fmap_compose.
    apply list_fmap_ext. intros _ j _. simpl. do 3 f_equal; lia.
Qed.

(** X16. A freshly constructed instance hands out its frames in index order.
    For constructor arguments that pass the constructor's assertions
    ([0 < num_instances], [instance_index < num_instances]) and a pool small
    enough that [instance_index + pool_size * num_instances] is below [2^31],
    the first [pool_size] calls of [NewPage] succeed, the [k]-th one
    (counting from 0) with page id [instance_index + k * num_instances] in
    frame [k], and the next call fails because every frame is pinned. *)
Theorem fresh_instance_fills_in_frame_order
    (pool_size : nat) (num_instances instance_index : Z) (d : DiskManager) :
  0 < num_instances → 0 ≤ instance_index < num_instances →
  instance_index + Z.of_nat pool_size * num_instances < 2 ^ 31 →
  answers (replicate (S pool_size) OpNewPage)
          (BufferPoolManagerInstance pool_size num_instances instance_index, d)
  = ((λ k : nat, RetNewPage (Some (instance_index + Z.of_nat k * num_instances, k)))
       <$> seq 0 pool_size)
    ++ [RetNewPage None].
Proof.
  intros Hn Hi Hbound.
  assert (- 2 ^ 31 ≤ 0) as Hneg by done.
  assert (wrap_page_id instance_index = instance_index) as Hx0.
  { apply wrap_page_id_small. nia. }
  rewrite (fill_answers pool_size 0); simpl; rewrite ?Hx0; (done || lia).
Qed.

Lemma fresh_instance_fills_in_frame_order_witness :
  answers (replicate 4 OpNewPage) (BufferPoolManagerInstance 3 4 1, empty_disk)
  = [RetNewPage (Some (1, 0%nat)); RetNewPage (Some (5, 1%nat));
     RetNewPage (Some (9, 2%nat)); RetNewPage None].
Proof.
  refine (fresh_instance_fills_in_frame_order 3 4 1 empty_disk _ _ _).
  - reflexivity.
  - split; [discriminate|reflexivity].
  - reflexivity.
Defined.

(** ** The pool *)

Lemma NewPgImp_None_unchanged s d :
  (NewPgImp s d).1.1 = None → NewPgImp s d = (None, s, d).
Proof.
  unfold NewPgImp. destruct (FindPage s d) as [[[f|] s1] d1] eqn:Efp; [done|].
  intros _. by apply FindPage_None in Efp as (-> & -> & _).
Qed.

Lemma FindPage_pool_size s d : pool_size_ (FindPage s d).1.2 = pool_size_ s.
Proof.
  unfold FindPage. destruct (free_list_ s); [|done].
  by destruct (LRUReplacer.Victim (replacer_ s)) as [[v|] r].
Qed.

Lemma step_pool_size sd o : pool_size_ (step sd o).1 = pool_size_ sd.1.
Proof.
  destruct sd as [s d]. destruct o; simpl.
  - unfold NewPgImp. pose proof (FindPage_pool_size s d) as Hp.
    by destruct (FindPage s d) as [[[f|] s1] d1].
  - unfold FetchPgImp. destruct (page_table_ s !! page_id); [done|].
    pose proof (FindPage_pool_size s d) as Hp.
    by destruct (FindPage s d) as [[[f|] s1] d1].
  - unfold UnpinPgImp. destruct (page_table_ s !! page_id); [|done].
    repeat case_decide; done.
  - unfold FlushPgImp. destruct (page_table_ s !! page_id); [|done].
    by case_decide.
  - unfold FlushAllPgsImp. generalize (map_to_list (page_table_ s)). intros l.
    revert s d. induction l as [|[q f] l IH]; intros s d; simpl; [done|].
    by rewrite IH.
  - unfold DeletePgImp. destruct (page_table_ s !! page_id); [|done].
    by case_decide.
  - by case_decide.
Qed.

Lemma step_same_config sd o : same_config sd.1 (step sd o).1.
Proof.
  destruct (step_allocator sd o) as (Hn & Hi & Hx).
  split; [apply step_pool_size|]. split; [done|]. split; [done|].
  rewrite Hx. destruct o; try by left.
  destruct ((NewPgImp sd.1 sd.2).1.1); [by right|by left].
Qed.

Lemma same_config_NewPgImp b d : same_config b (NewPgImp b d).1.2.
Proof.
  pose proof (step_same_config (b, d) OpNewPage) as H. simpl in H.
  by destruct (NewPgImp b d) as [[? ?] ?].
Qed.

Lemma same_config_FetchPgImp q b d : same_config b (FetchPgImp q b d).1.2.
Proof.
  pose proof (step_same_config (b, d) (OpFetchPage q)) as H. simpl in H.
  by destruct (FetchPgImp q b d) as [[? ?] ?].
Qed.

Lemma same_config_UnpinPgImp q x b d : same_config b (UnpinPgImp q x b d).1.2.
Proof.
  pose proof (step_same_config (b, d) (OpUnpinPage q x)) as H. simpl in H.
  by destruct (UnpinPgImp q x b d) as [[? ?] ?].
Qed.

Lemma same_config_FlushPgImp q b d : same_config b (FlushPgImp q b d).1.2.
Proof.
  pose proof (step_same_config (b, d) (OpFlushPage q)) as H. simpl in H.
  by destruct (FlushPgImp q b d) as [[? ?] ?].
Qed.

Lemma same_config_DeletePgImp q b d : same_config b (DeletePgImp q b d).1.2.
Proof.
  pose proof (step_same_config (b, d) (OpDeletePage q)) as H. simpl in H.
  by destruct (DeletePgImp q b d) as [[? ?] ?].
Qed.

Lemma same_config_FlushAllPgsImp b d : same_config b (FlushAllPgsImp b d).1.
Proof. apply (step_same_config (b, d) OpFlushAllPages). Qed.

Section pool_facts.
Import ParallelBufferPoolManager.

Lemma configured_new n ps d : configured n ps (new n ps d).
Proof.
  split; simpl.
  - by rewrite length_fmap, length_seq.
  - intros i b Hb. apply list_lookup_fmap_Some in Hb as (j & -> & Hj).
    apply lookup_seq in Hj as [-> Hlt]. simpl. done.
Qed.

Lemma GetBufferPoolManager_lt page_id p :
  buffers_ p ≠ [] → (GetBufferPoolManager page_id p < length (buffers_ p))%nat.
Proof.
  intros Hne. unfold GetBufferPoolManager.
  assert (0 < Z.of_nat (length (buffers_ p))).
  { destruct (buffers_ p); [done|simpl; lia]. }
  pose proof (Z.mod_pos_bound (page_id `mod` 2 ^ 64) (Z.of_nat (length (buffers_ p)))).
  lia.
Qed.

End pool_facts.

(** The sweep of the pool's [NewPgImp]: the instances it probes fail one
    after the other without changing anything, until one succeeds or the
    sweep ends. *)
Lemma probe_spec k : ∀ i p,
  ParallelBufferPoolManager.buffers_ p ≠ [] →
  let n := length (ParallelBufferPoolManager.buffers_ p) in
  let cursor := ((ParallelBufferPoolManager.last_alloc_index_ p + 1) `mod` n)%nat in
  let failed (m : nat) :=
    ∃ b, ParallelBufferPoolManager.buffers_ p !! ((i + m) `mod` n)%nat = Some b ∧
         (NewPgImp b (ParallelBufferPoolManager.disk_manager p)).1.1 = None in
  match (ParallelBufferPoolManager.probe k i p).1 with
  | None =>
      (ParallelBufferPoolManager.probe k i p).2
      = ParallelBufferPoolManager.mk (ParallelBufferPoolManager.buffers_ p) cursor
          (ParallelBufferPoolManager.disk_manager p) ∧
      ∀ m, (m < k)%nat → failed m
  | Some (page_id, (j, f)) =>
      ∃ m b b1 d1,
        (m < k)%nat ∧ j = ((i + m) `mod` n)%nat ∧
        ParallelBufferPoolManager.buffers_ p !! j = Some b ∧
        NewPgImp b (ParallelBufferPoolManager.disk_manager p) = (Some (page_id, f), b1, d1) ∧
        (ParallelBufferPoolManager.probe k i p).2
        = ParallelBufferPoolManager.mk
            (<[j := b1]> (ParallelBufferPoolManager.buffers_ p)) cursor d1 ∧
        ∀ m', (m' < m)%nat → failed m'
  end.
Proof.
  induction k as [|k IH]; intros i p Hne n cursor failed.
  { simpl. split; [done|]. intros m Hm. lia. }
  assert (n ≠ 0)%nat as Hn.
  { unfold n. destruct (ParallelBufferPoolManager.buffers_ p); [done|simpl; lia]. }
  destruct (lookup_lt_is_Some_2 (ParallelBufferPoolManager.buffers_ p) (i `mod` n)%nat)
    as [b Hb].
  { apply Nat.mod_upper_bound. done. }
  cbn [ParallelBufferPoolManager.probe]. fold n. rewrite Hb.
  destruct (NewPgImp b (ParallelBufferPoolManager.disk_manager p))
    as [[[[page_id frame_id]|] b1] d1] eqn:Enew.
  - cbn [fst snd]. exists 0%nat, b, b1, d1. rewrite Nat.add_0_r.
    split; [lia|]. split; [done|]. split; [done|]. split; [done|]. split; [done|].
    intros m' Hm'. lia.
  - assert (b1 = b ∧ d1 = ParallelBufferPoolManager.disk_manager p) as [-> ->].
    { pose proof (NewPgImp_None_unchanged b (ParallelBufferPoolManager.disk_manager p))
        as Hsame. rewrite Enew in Hsame. specialize (Hsame eq_refl). by injection Hsame. }
    rewrite list_insert_id by done.
    assert (ParallelBufferPoolManager.mk (ParallelBufferPoolManager.buffers_ p)
              (ParallelBufferPoolManager.last_alloc_index_ p)
              (ParallelBufferPoolManager.disk_manager p) = p) as -> by (by destruct p).
    assert (failed 0%nat) as Hf0.
    { exists b. rewrite Nat.add_0_r. split; [done|]. by rewrite Enew. }
    assert (∀ m, failed (S m) ↔
                 ∃ b', ParallelBufferPoolManager.buffers_ p !! ((S i + m) `mod` n)%nat
                       = Some b' ∧
                       (NewPgImp b' (ParallelBufferPoolManager.disk_manager p)).1.1 = None)
      as Hshift.
    { intros m. unfold failed. by replace (i + S m)%nat with (S i + m)%nat by lia. }
    specialize (IH (S i) p Hne). cbv zeta in IH. fold n cursor in IH.
    destruct (ParallelBufferPoolManager.probe k (S i) p) as [[[x [j f]]|] p'].
    + cbn [fst snd] in *. destruct IH as (m & b' & b1 & d1 & Hm & -> & Hj & Hnew & -> & Hfail).
      exists (S m), b', b1, d1.
      replace (i + S m)%nat with (S i + m)%nat by lia.
      split; [lia|]. split; [done|]. split; [done|]. split; [done|]. split; [done|].
      intros [|m'] Hm'; [done|]. apply Hshift, Hfail. lia.
    + cbn [fst snd] in *. destruct IH as [-> Hfail]. split; [done|].
      intros [|m] Hm; [done|]. apply Hshift, Hfail. lia.
Qed.

(** Every index is probed by a full sweep, whatever the cursor. *)
Lemma sweep_covers (n i j : nat) :
  (j < n)%nat → ∃ m, (m < n)%nat ∧ ((i + m) `mod` n)%nat = j.
Proof.
  intros Hj. exists ((j + n - i `mod` n) `mod` n)%nat.
  assert (i `mod` n < n)%nat by (apply Nat.mod_upper_bound; lia).
  split; [apply Nat.mod_upper_bound; lia|].
  rewrite Nat.Div0.add_mod_idemp_r.
  rewrite <- Nat.Div0.add_mod_idemp_l.
  replace (i `mod` n + (j + n - i `mod` n))%nat with (j + 1 * n)%nat by lia.
  rewrite Nat.Div0.mod_add. apply Nat.mod_small. done.
Qed.

(** X17. The pool's [NewPgImp] answers [None] exactly when every instance's
    [NewPgImp] answers [None] in the current state; a failed sweep changes
    nothing but the cursor: the instances and the disk are as before. *)
Theorem Pool_NewPage_fails_iff_every_instance_fails (p : ParallelBufferPoolManager.t) :
  ParallelBufferPoolManager.buffers_ p ≠ [] →
  let r := ParallelBufferPoolManager.NewPgImp p in
  (r.1 = None ↔
     ∀ b, b ∈ ParallelBufferPoolManager.buffers_ p →
          (NewPgImp b (ParallelBufferPoolManager.disk_manager p)).1.1 = None) ∧
  (r.1 = None →
     ParallelBufferPoolManager.buffers_ r.2 = ParallelBufferPoolManager.buffers_ p ∧
     ParallelBufferPoolManager.disk_manager r.2 = ParallelBufferPoolManager.disk_manager p).
Proof.
  intros Hne r. subst r. unfold ParallelBufferPoolManager.NewPgImp.
  pose proof (probe_spec (length (ParallelBufferPoolManager.buffers_ p))
                (ParallelBufferPoolManager.last_alloc_index_ p) p Hne) as Hspec.
  cbv zeta in Hspec.
  destruct (ParallelBufferPoolManager.probe _ _ p) as [[[x [j f]]|] p'];
    cbn [fst snd] in *.
  - split; [|done]. split; [done|]. intros Hall.
    destruct Hspec as (m & b & b1 & d1 & _ & _ & Hb & Hnew & _).
    specialize (Hall b). rewrite Hnew in Hall.
    assert (@None (page_id_t * frame_id_t) = Some (x, f)) as Habs; [|done].
    symmetry. apply Hall. by eapply list_elem_of_lookup_2.
  - destruct Hspec as [-> Hfail]. split; [|done]. split; [|done].
    intros _ b Hb. apply list_elem_of_lookup in Hb as [j Hj].
    destruct (sweep_covers (length (ParallelBufferPoolManager.buffers_ p))
                (ParallelBufferPoolManager.last_alloc_index_ p) j) as (m & Hm & Hcov).
    { by eapply lookup_lt_Some. }
    destruct (Hfail m Hm) as (b' & Hb' & Hnone). rewrite Hcov, Hj in Hb'.
    by injection Hb' as <-.
Qed.

Lemma Pool_NewPage_fails_iff_every_instance_fails_witness :
  let p := ParallelBufferPoolManager.run
             [ParallelBufferPoolManager.OpNewPage; ParallelBufferPoolManager.OpNewPage]
             (ParallelBufferPoolManager.new 2 1 empty_disk) in
  (ParallelBufferPoolManager.NewPgImp p).1 = None ∧
  ParallelBufferPoolManager.buffers_ (ParallelBufferPoolManager.NewPgImp p).2
  = ParallelBufferPoolManager.buffers_ p.
Proof.
  set (p := ParallelBufferPoolManager.run
              [ParallelBufferPoolManager.OpNewPage; ParallelBufferPoolManager.OpNewPage]
              (ParallelBufferPoolManager.new 2 1 empty_disk)).
  assert ((ParallelBufferPoolManager.NewPgImp p).1 = None) as Hnone
    by (vm_compute; reflexivity).
  destruct (Pool_NewPage_fails_iff_every_instance_fails p) as [_ Hsame].
  - vm_compute. discriminate.
  - cbv zeta. split; [exact Hnone|]. apply (Hsame Hnone).
Defined.

(** X18. A successful sweep of the pool's [NewPgImp] takes the first instance,
    counting round-robin from the cursor, whose own [NewPgImp] succeeds: the
    instances probed before it failed, the page id and frame are the ones
    that instance handed out, only that instance and the disk change, and
    every other instance is left as it was. *)
Theorem Pool_NewPage_takes_first_instance_that_succeeds
    (p : ParallelBufferPoolManager.t) (page_id : page_id_t) (j : nat) (f : frame_id_t) :
  ParallelBufferPoolManager.buffers_ p ≠ [] →
  (ParallelBufferPoolManager.NewPgImp p).1 = Some (page_id, (j, f)) →
  let n := length (ParallelBufferPoolManager.buffers_ p) in
  let start := ParallelBufferPoolManager.last_alloc_index_ p in
  let d := ParallelBufferPoolManager.disk_manager p in
  let p' := (ParallelBufferPoolManager.NewPgImp p).2 in
  ∃ m b,
    (m < n)%nat ∧ j = ((start + m) `mod` n)%nat ∧
    ParallelBufferPoolManager.buffers_ p !! j = Some b ∧
    (NewPgImp b d).1.1 = Some (page_id, f) ∧
    ParallelBufferPoolManager.buffers_ p' !! j = Some (NewPgImp b d).1.2 ∧
    ParallelBufferPoolManager.disk_manager p' = (NewPgImp b d).2 ∧
    (∀ j', j' ≠ j →
       ParallelBufferPoolManager.buffers_ p' !! j'
       = ParallelBufferPoolManager.buffers_ p !! j') ∧
    (∀ m', (m' < m)%nat →
       ∃ b', ParallelBufferPoolManager.buffers_ p !! ((start + m') `mod` n)%nat = Some b' ∧
             (NewPgImp b' d).1.1 = None).
Proof.
  intros Hne Hret n start d p'. subst p'.
  unfold ParallelBufferPoolManager.NewPgImp in *.
  pose proof (probe_spec (length (ParallelBufferPoolManager.buffers_ p))
                (ParallelBufferPoolManager.last_alloc_index_ p) p Hne) as Hspec.
  cbv zeta in Hspec. rewrite Hret in Hspec.
  destruct Hspec as (m & b & b1 & d1 & Hm & Hj & Hb & Hnew & Hp' & Hfail).
  exists m, b. rewrite Hp'. fold d in Hnew. rewrite Hnew. cbn [fst snd]. simpl.
  split; [done|]. split; [done|]. split; [done|]. split; [done|].
  split; [apply list_lookup_insert_eq; by eapply lookup_lt_Some|].
  split; [done|]. split; [|done].
  intros j' Hj'. by apply list_lookup_insert_ne.
Qed.

Lemma Pool_NewPage_takes_first_instance_that_succeeds_witness :
  let p := ParallelBufferPoolManager.run
             [ParallelBufferPoolManager.OpNewPage; ParallelBufferPoolManager.OpNewPage;
              ParallelBufferPoolManager.OpUnpinPage 1 false]
             (ParallelBufferPoolManager.new 2 1 empty_disk) in
  ParallelBufferPoolManager.last_alloc_index_ p = 0%nat ∧
  (ParallelBufferPoolManager.NewPgImp p).1 = Some (3, (1%nat, 0%nat)) ∧
  ∃ m b, (m < 2)%nat ∧ 1%nat = ((0 + m) `mod` 2)%nat ∧
         ParallelBufferPoolManager.buffers_ p !! 1%nat = Some b.
Proof.
  set (p := ParallelBufferPoolManager.run
              [ParallelBufferPoolManager.OpNewPage; ParallelBufferPoolManager.OpNewPage;
               ParallelBufferPoolManager.OpUnpinPage 1 false]
              (ParallelBufferPoolManager.new 2 1 empty_disk)).
  assert ((ParallelBufferPoolManager.NewPgImp p).1 = Some (3, (1%nat, 0%nat))) as Hret
    by (vm_compute; reflexivity).
  destruct (Pool_NewPage_takes_first_instance_that_succeeds p 3 1%nat 0%nat)
    as (m & b & Hm & Hj & Hb & _).
  - vm_compute. discriminate.
  - exact Hret.
  - cbv zeta. split; [vm_compute; reflexivity|]. split; [exact Hret|].
    exists m, b. split; [exact Hm|]. split; [exact Hj|]. exact Hb.
Defined.

Lemma same_config_refl b : same_config b b.
Proof. split; [done|]. split; [done|]. split; [done|]. by left. Qed.

Lemma Forall2_same_config_refl bs : Forall2 same_config bs bs.
Proof. induction bs; constructor; [apply same_config_refl|done]. Qed.

Lemma Forall2_same_config_insert bs j b b1 :
  bs !! j = Some b → same_config b b1 → Forall2 same_config bs (<[j := b1]> bs).
Proof.
  intros Hb Hcfg. rewrite <- (list_insert_id bs j b Hb) at 1.
  apply Forall2_insert; [apply Forall2_same_config_refl|done].
Qed.

Lemma flush_each_same_config bs : ∀ d,
  Forall2 same_config bs (ParallelBufferPoolManager.flush_each bs d).1.
Proof.
  induction bs as [|b bs IH]; intros d; simpl; [constructor|].
  pose proof (same_config_FlushAllPgsImp b d) as Hb.
  destruct (FlushAllPgsImp b d) as [b1 d1].
  specialize (IH d1). destruct (ParallelBufferPoolManager.flush_each bs d1) as [bs1 d2].
  by constructor.
Qed.

(** A public call on the pool leaves every instance with its configuration;
    only allocators move, and only forward. *)
Lemma pool_step_same_config p o :
  ParallelBufferPoolManager.buffers_ p ≠ [] →
  Forall2 same_config (ParallelBufferPoolManager.buffers_ p)
          (ParallelBufferPoolManager.buffers_ (ParallelBufferPoolManager.step p o)).
Proof.
  intros Hne.
  pose proof (λ q, lookup_lt_is_Some_2 _ _
                     (GetBufferPoolManager_lt q p Hne)) as Hidx.
  destruct o as [|q|q x|q| |q]; simpl.
  - unfold ParallelBufferPoolManager.NewPgImp.
    pose proof (probe_spec (length (ParallelBufferPoolManager.buffers_ p))
                  (ParallelBufferPoolManager.last_alloc_index_ p) p Hne) as Hspec.
    cbv zeta in Hspec.
    destruct (ParallelBufferPoolManager.probe _ _ p) as [[[y [j f]]|] p'];
      cbn [fst snd] in *.
    + destruct Hspec as (m & b & b1 & d1 & _ & _ & Hb & Hnew & -> & _). simpl.
      apply (Forall2_same_config_insert _ j b b1 Hb).
      pose proof (same_config_NewPgImp b (ParallelBufferPoolManager.disk_manager p)) as H.
      by rewrite Hnew in H.
    + destruct Hspec as [-> _]. apply Forall2_same_config_refl.
  - unfold ParallelBufferPoolManager.FetchPgImp. destruct (Hidx q) as [b Hb]. rewrite Hb.
    pose proof (same_config_FetchPgImp q b (ParallelBufferPoolManager.disk_manager p)) as H.
    destruct (FetchPgImp q b _) as [[r b1] d1]. simpl in *.
    by apply (Forall2_same_config_insert _ _ b b1).
  - unfold ParallelBufferPoolManager.UnpinPgImp. destruct (Hidx q) as [b Hb]. rewrite Hb.
    pose proof (same_config_UnpinPgImp q x b (ParallelBufferPoolManager.disk_manager p)) as H.
    destruct (UnpinPgImp q x b _) as [[r b1] d1]. simpl in *.
    by apply (Forall2_same_config_insert _ _ b b1).
  - unfold ParallelBufferPoolManager.FlushPgImp. destruct (Hidx q) as [b Hb]. rewrite Hb.
    pose proof (same_config_FlushPgImp q b (ParallelBufferPoolManager.disk_manager p)) as H.
    destruct (FlushPgImp q b _) as [[r b1] d1]. simpl in *.
    by apply (Forall2_same_config_insert _ _ b b1).
  - unfold ParallelBufferPoolManager.FlushAllPgsImp.
    pose proof (flush_each_same_config (ParallelBufferPoolManager.buffers_ p)
                  (ParallelBufferPoolManager.disk_manager p)) as H.
    by destruct (ParallelBufferPoolManager.flush_each _ _) as [bs d].
  - unfold ParallelBufferPoolManager.DeletePgImp. destruct (Hidx q) as [b Hb]. rewrite Hb.
    pose proof (same_config_DeletePgImp q b (ParallelBufferPoolManager.disk_manager p)) as H.
    destruct (DeletePgImp q b _) as [[r b1] d1]. simpl in *.
    by apply (Forall2_same_config_insert _ _ b b1).
Qed.

Lemma configured_Forall2 n ps p p' :
  ParallelBufferPoolManager.configured n ps p →
  Forall2 same_config (ParallelBufferPoolManager.buffers_ p)
          (ParallelBufferPoolManager.buffers_ p') →
  ParallelBufferPoolManager.configured n ps p'.
Proof.
  intros [Hlen Hcfg] Hall. split.
  - by rewrite <- (Forall2_length _ _ _ Hall).
  - intros i b1 Hb1.
    destruct (Forall2_lookup_r _ _ _ _ _ Hall Hb1) as (b & Hb & Hps & Hn & Hi & Hx).
    destruct (Hcfg i b Hb) as (Hps' & Hn' & Hi').
    by rewrite Hps, Hn, Hi.
Qed.

Lemma configured_nonempty n ps p :
  (0 < n)%nat → ParallelBufferPoolManager.configured n ps p →
  ParallelBufferPoolManager.buffers_ p ≠ [].
Proof. intros Hn [Hlen _] Hnil. rewrite Hnil in Hlen. simpl in Hlen. lia. Qed.

Lemma configured_step n ps p o :
  (0 < n)%nat → ParallelBufferPoolManager.configured n ps p →
  ParallelBufferPoolManager.configured n ps (ParallelBufferPoolManager.step p o).
Proof.
  intros Hn Hcfg. apply (configured_Forall2 n ps p); [done|].
  apply pool_step_same_config. by apply (configured_nonempty n ps).
Qed.

Lemma configured_run n ps ops : ∀ p,
  (0 < n)%nat → ParallelBufferPoolManager.configured n ps p →
  ParallelBufferPoolManager.configured n ps (ParallelBufferPoolManager.run ops p).
Proof.
  induction ops as [|o ops IH]; intros p Hn Hcfg; simpl; [done|].
  apply IH; [done|]. by apply configured_step.
Qed.

(** X19. A pool built by the constructor with at least one instance keeps its
    shape under every run of public calls: the number of instances, and for
    instance [i] its pool size, [num_instances_] and [instance_index_ = i];
    [GetPoolSize] answers [num_instances * pool_size] throughout. *)
Theorem Pool_keeps_its_configuration (num_instances pool_size : nat) (d : DiskManager)
    (ops : list ParallelBufferPoolManager.op) :
  (0 < num_instances)%nat →
  let p := ParallelBufferPoolManager.run ops
             (ParallelBufferPoolManager.new num_instances pool_size d) in
  length (ParallelBufferPoolManager.buffers_ p) = num_instances ∧
  (∀ (i : nat) b, ParallelBufferPoolManager.buffers_ p !! i = Some b →
     pool_size_ b = pool_size ∧
     num_instances_ b = Z.of_nat num_instances ∧
     instance_index_ b = Z.of_nat i) ∧
  ParallelBufferPoolManager.GetPoolSize p = (num_instances * pool_size)%nat.
Proof.
  intros Hn p.
  destruct (configured_run num_instances pool_size ops
              (ParallelBufferPoolManager.new num_instances pool_size d) Hn
              (configured_new num_instances pool_size d)) as [Hlen Hcfg].
  fold p in Hlen, Hcfg. split; [done|]. split.
  - intros i b Hb. by apply Hcfg.
  - unfold ParallelBufferPoolManager.GetPoolSize. rewrite Hlen.
    destruct (lookup_lt_is_Some_2 (ParallelBufferPoolManager.buffers_ p) 0%nat)
      as [b Hb]; [lia|].
    rewrite (list_lookup_total_correct _ _ _ Hb).
    by destruct (Hcfg 0%nat b Hb) as (-> & _).
Qed.

Lemma Pool_keeps_its_configuration_witness :
  ParallelBufferPoolManager.GetPoolSize
    (ParallelBufferPoolManager.run
       [ParallelBufferPoolManager.OpNewPage; ParallelBufferPoolManager.OpFetchPage 7;
        ParallelBufferPoolManager.OpFlushAllPages; ParallelBufferPoolManager.OpDeletePage 0]
       (ParallelBufferPoolManager.new 3 2 empty_disk))
  = (3 * 2)%nat.
Proof.
  refine (proj2 (proj2 (Pool_keeps_its_configuration 3 2 empty_disk
     [ParallelBufferPoolManager.OpNewPage; ParallelBufferPoolManager.OpFetchPage 7;
      ParallelBufferPoolManager.OpFlushAllPages; ParallelBufferPoolManager.OpDeletePage 0]
     _))).
  lia.
Defined.

Lemma NewPgImp_success_next b d page_id f b1 d1 :
  NewPgImp b d = (Some (page_id, f), b1, d1) →
  page_id = next_page_id_ b ∧
  next_page_id_ b1 = wrap_page_id (next_page_id_ b + num_instances_ b).
Proof.
  intros Hnew. split; [by eapply NewPgImp_page_id|].
  destruct (step_allocator (b, d) OpNewPage) as (_ & _ & Hx).
  simpl in Hx. by rewrite Hnew in Hx.
Qed.

Lemma pool_NewPgImp_success p x j f :
  ParallelBufferPoolManager.buffers_ p ≠ [] →
  (ParallelBufferPoolManager.NewPgImp p).1 = Some (x, (j, f)) →
  ∃ b b1,
    ParallelBufferPoolManager.buffers_ p !! j = Some b ∧
    x = next_page_id_ b ∧
    next_page_id_ b1 = wrap_page_id (next_page_id_ b + num_instances_ b) ∧
    ParallelBufferPoolManager.buffers_ (ParallelBufferPoolManager.NewPgImp p).2 !! j
    = Some b1.
Proof.
  intros Hne Hret. unfold ParallelBufferPoolManager.NewPgImp in *.
  pose proof (probe_spec (length (ParallelBufferPoolManager.buffers_ p))
                (ParallelBufferPoolManager.last_alloc_index_ p) p Hne) as Hspec.
  cbv zeta in Hspec. rewrite Hret in Hspec.
  destruct Hspec as (m & b & b1 & d1 & _ & _ & Hb & Hnew & -> & _).
  apply NewPgImp_success_next in Hnew as [-> Hnext].
  exists b, b1. split; [done|]. split; [done|]. split; [done|].
  simpl. apply list_lookup_insert_eq. by eapply lookup_lt_Some.
Qed.

(** The allocators of a new pool can serve [calls] calls without wrapping
    when [num_instances * (calls + 1)] does not exceed [2^31]. *)
Lemma within_budget_new n ps d calls :
  Z.of_nat n * (Z.of_nat calls + 1) ≤ 2 ^ 31 →
  ParallelBufferPoolManager.within_budget n calls (ParallelBufferPoolManager.new n ps d).
Proof.
  intros Hbound i b Hb. simpl in Hb.
  apply list_lookup_fmap_Some in Hb as (j & -> & Hj).
  apply lookup_seq in Hj as [-> Hlt]. simpl.
  rewrite wrap_page_id_small by (assert (- 2 ^ 31 ≤ 0) by done; nia).
  split; [lia|]. split; [apply Z.mod_small; lia|]. nia.
Qed.

(** One allocator over one call, inside the budget: it stays or advances by
    [num_instances], without wrapping. *)
Lemma budget_advance n calls b b1 :
  (0 < n)%nat → num_instances_ b = Z.of_nat n →
  0 ≤ next_page_id_ b →
  next_page_id_ b + Z.of_nat (S calls) * Z.of_nat n < 2 ^ 31 →
  same_config b b1 →
  next_page_id_ b1 = next_page_id_ b ∨ next_page_id_ b1 = next_page_id_ b + Z.of_nat n.
Proof.
  intros Hn Hnb Hpos Hhi (_ & _ & _ & Hx).
  destruct Hx as [Hx|Hx]; [by left|right].
  rewrite Hx, Hnb. apply wrap_page_id_small.
  assert (- 2 ^ 31 ≤ 0) by done. nia.
Qed.

Lemma within_budget_step n ps calls p o :
  (0 < n)%nat → ParallelBufferPoolManager.configured n ps p →
  ParallelBufferPoolManager.within_budget n (S calls) p →
  ParallelBufferPoolManager.within_budget n calls (ParallelBufferPoolManager.step p o).
Proof.
  intros Hn Hcfg Hbud i b1 Hb1.
  pose proof (pool_step_same_config p o (configured_nonempty n ps p Hn Hcfg)) as Hall.
  destruct (Forall2_lookup_r _ _ _ _ _ Hall Hb1) as (b & Hb & Hsame).
  destruct (proj2 Hcfg i b Hb) as (_ & Hnb & _).
  destruct (Hbud i b Hb) as (Hpos & Hmod & Hhi).
  destruct (budget_advance n calls b b1 Hn Hnb Hpos Hhi Hsame) as [->| ->].
  - split; [done|]. split; [done|]. nia.
  - split; [lia|]. split; [|nia].
    replace (next_page_id_ b + Z.of_nat n) with (next_page_id_ b + 1 * Z.of_nat n)
      by lia.
    by rewrite Z_mod_plus_full.
Qed.

(** Inside the budget, the ids a pool hands out along a run lie at or above
    the allocator of the instance that produced them, below [2^31], in that
    instance's residue class, and are pairwise distinct. *)
Lemma pool_allocated_fresh n ps ops : ∀ p,
  (0 < n)%nat → ParallelBufferPoolManager.configured n ps p →
  ParallelBufferPoolManager.within_budget n (length ops) p →
  let ids := ParallelBufferPoolManager.allocated ops p in
  NoDup ids.*1 ∧
  ∀ x (i : nat), (x, i) ∈ ids →
    x `mod` Z.of_nat n = Z.of_nat i ∧ x < 2 ^ 31 ∧
    ∃ b, ParallelBufferPoolManager.buffers_ p !! i = Some b ∧ next_page_id_ b ≤ x.
Proof.
  induction ops as [|o ops IH]; intros p Hn Hcfg Hbud.
  { split; [constructor|]. intros x i Hin. by apply not_elem_of_nil in Hin. }
  cbn [length] in Hbud.
  pose proof (configured_nonempty n ps p Hn Hcfg) as Hne.
  pose proof (configured_step n ps p o Hn Hcfg) as Hcfg'.
  pose proof (within_budget_step n ps (length ops) p o Hn Hcfg Hbud) as Hbud'.
  pose proof (pool_step_same_config p o Hne) as Hall.
  destruct (IH (ParallelBufferPoolManager.step p o) Hn Hcfg' Hbud') as [Hnd Hids].
  (* an allocator seen before and after the call *)
  assert (∀ (i : nat) b1,
            ParallelBufferPoolManager.buffers_ (ParallelBufferPoolManager.step p o) !! i
            = Some b1 →
            ∃ b, ParallelBufferPoolManager.buffers_ p !! i = Some b ∧
                 next_page_id_ b ≤ next_page_id_ b1) as Hmono.
  { intros i b1 Hb1.
    destruct (Forall2_lookup_r _ _ _ _ _ Hall Hb1) as (b & Hb & Hsame).
    destruct (proj2 Hcfg i b Hb) as (_ & Hnb & _).
    destruct (Hbud i b Hb) as (Hpos & _ & Hhi).
    exists b. split; [done|].
    destruct (budget_advance n (length ops) b b1 Hn Hnb Hpos Hhi Hsame) as [->| ->]; lia. }
  (* an id of the rest of the run, seen from the state before the call *)
  assert (∀ x (i : nat),
            (x, i) ∈ ParallelBufferPoolManager.allocated ops
                       (ParallelBufferPoolManager.step p o) →
            x `mod` Z.of_nat n = Z.of_nat i ∧ x < 2 ^ 31 ∧
            ∃ b, ParallelBufferPoolManager.buffers_ p !! i = Some b ∧
                 next_page_id_ b ≤ x) as Hback.
  { intros x i Hin. destruct (Hids x i Hin) as (Hmod & Hlt & b1 & Hb1 & Hle).
    split; [done|]. split; [done|].
    destruct (Hmono i b1 Hb1) as (b & Hb & Hle'). exists b. split; [done|lia]. }
  cbn [ParallelBufferPoolManager.allocated].
  destruct o as [|q|q y|q| |q]; try (split; [exact Hnd|exact Hback]).
  destruct (ParallelBufferPoolManager.NewPgImp p).1 as [[x [j f]]|] eqn:Eret;
    [|split; [exact Hnd|exact Hback]].
  destruct (pool_NewPgImp_success p x j f Hne Eret) as (b & b1 & Hb & Hx & Hnext & Hb1).
  destruct (proj2 Hcfg j b Hb) as (_ & Hnb & _).
  destruct (Hbud j b Hb) as (Hpos & Hmodb & Hhi).
  assert (next_page_id_ b1 = next_page_id_ b + Z.of_nat n) as Hnext'.
  { rewrite Hnext, Hnb. apply wrap_page_id_small.
    assert (- 2 ^ 31 ≤ 0) by done. nia. }
  split.
  - rewrite fmap_cons. cbn [fst]. constructor; [|exact Hnd].
    intros Hin. apply list_elem_of_fmap in Hin as ([x' i] & Hx' & Hin).
    cbn [fst] in Hx'. subst x'.
    destruct (Hids x i Hin) as (Hmod & _ & b' & Hb' & Hle).
    assert (i = j) as -> by (apply Nat2Z.inj; congruence).
    simpl in Hb'. rewrite Hb1 in Hb'. injection Hb' as <-. lia.
  - intros x' i Hin. apply elem_of_cons in Hin as [[= -> ->]|Hin].
    + split; [congruence|]. split; [nia|]. exists b. split; [done|]. lia.
    + by apply Hback.
Qed.

(** X20. Sharding: take a pool built by the constructor with at least one
    instance and a run of public calls short enough that no allocator can
    wrap ([num_instances * (calls + 1) ≤ 2^31]). Every page id that [NewPage]
    hands out along the run is non-negative, below [2^31] and congruent,
    modulo the number of instances, to the index of the instance that
    produced it; so [GetBufferPoolManager] routes the id back to that very
    instance. *)
Theorem Pool_page_ids_route_to_their_instance
    (num_instances pool_size : nat) (d : DiskManager)
    (ops : list ParallelBufferPoolManager.op) (page_id : page_id_t) (i : nat) :
  (0 < num_instances)%nat →
  Z.of_nat num_instances * (Z.of_nat (length ops) + 1) ≤ 2 ^ 31 →
  let p0 := ParallelBufferPoolManager.new num_instances pool_size d in
  (page_id, i) ∈ ParallelBufferPoolManager.allocated ops p0 →
  0 ≤ page_id < 2 ^ 31 ∧
  (i < num_instances)%nat ∧
  page_id `mod` Z.of_nat num_instances = Z.of_nat i ∧
  ParallelBufferPoolManager.GetBufferPoolManager page_id
    (ParallelBufferPoolManager.run ops p0) = i.
Proof.
  intros Hn Hbound p0 Hin.
  destruct (pool_allocated_fresh num_instances pool_size ops p0 Hn
              (configured_new num_instances pool_size d)
              (within_budget_new num_instances pool_size d (length ops) Hbound))
    as [_ Hids].
  destruct (Hids page_id i Hin) as (Hmod & Hlt & b & Hb & Hle).
  destruct (within_budget_new num_instances pool_size d (length ops) Hbound i b Hb)
    as (Hpos & _).
  destruct (configured_new num_instances pool_size d) as [Hlen0 _].
  assert (i < num_instances)%nat as Hi.
  { apply lookup_lt_Some in Hb. fold p0 in Hlen0. unfold p0 in *. lia. }
  split; [lia|]. split; [done|]. split; [done|].
  unfold ParallelBufferPoolManager.GetBufferPoolManager.
  destruct (configured_run num_instances pool_size ops p0 Hn
              (configured_new num_instances pool_size d)) as [-> _].
  rewrite (Z.mod_small page_id).
  - rewrite Hmod. apply Nat2Z.id.
  - assert (2 ^ 31 < 2 ^ 64) by done. lia.
Qed.

Lemma Pool_page_ids_route_to_their_instance_witness :
  let ops := [ParallelBufferPoolManager.OpNewPage; ParallelBufferPoolManager.OpNewPage;
              ParallelBufferPoolManager.OpNewPage; ParallelBufferPoolManager.OpNewPage] in
  let p0 := ParallelBufferPoolManager.new 3 2 empty_disk in
  ParallelBufferPoolManager.allocated ops p0
  = [(0, 0%nat); (1, 1%nat); (2, 2%nat); (3, 0%nat)] ∧
  ParallelBufferPoolManager.GetBufferPoolManager 3 (ParallelBufferPoolManager.run ops p0)
  = 0%nat.
Proof.
  set (ops := [ParallelBufferPoolManager.OpNewPage; ParallelBufferPoolManager.OpNewPage;
               ParallelBufferPoolManager.OpNewPage; ParallelBufferPoolManager.OpNewPage]).
  assert (ParallelBufferPoolManager.allocated ops
            (ParallelBufferPoolManager.new 3 2 empty_disk)
          = [(0, 0%nat); (1, 1%nat); (2, 2%nat); (3, 0%nat)]) as Hids
    by (vm_compute; reflexivity).
  cbv zeta. split; [exact Hids|].
  refine (proj2 (proj2 (proj2
            (Pool_page_ids_route_to_their_instance 3 2 empty_disk ops 3 0%nat _ _ _)))).
  - lia.
  - vm_compute. discriminate.
  - rewrite Hids. right. right. right. left.
Defined.

(** X21. A pool does not hand out the same page id twice before an
    allocator wraps: along any run of public calls on a pool built by the
    constructor with at least one instance, short enough that
    [num_instances * (calls + 1) ≤ 2^31], the ids answered by the successful
    [NewPage] calls are pairwise distinct, across all instances. *)
Theorem Pool_never_hands_out_a_page_id_twice
    (num_instances pool_size : nat) (d : DiskManager)
    (ops : list ParallelBufferPoolManager.op) :
  (0 < num_instances)%nat →
  Z.of_nat num_instances * (Z.of_nat (length ops) + 1) ≤ 2 ^ 31 →
  NoDup (ParallelBufferPoolManager.allocated ops
           (ParallelBufferPoolManager.new num_instances pool_size d)).*1.
Proof.
  intros Hn Hbound.
  apply (pool_allocated_fresh num_instances pool_size ops
           (ParallelBufferPoolManager.new num_instances pool_size d) Hn
           (configured_new num_instances pool_size d)
           (within_budget_new num_instances pool_size d (length ops) Hbound)).
Qed.

Lemma Pool_never_hands_out_a_page_id_twice_witness :
  NoDup (ParallelBufferPoolManager.allocated
           [ParallelBufferPoolManager.OpNewPage; ParallelBufferPoolManager.OpNewPage;
            ParallelBufferPoolManager.OpUnpinPage 0 false;
            ParallelBufferPoolManager.OpDeletePage 0;
            ParallelBufferPoolManager.OpNewPage; ParallelBufferPoolManager.OpNewPage]
           (ParallelBufferPoolManager.new 2 1 empty_disk)).*1.
Proof.
  apply (Pool_never_hands_out_a_page_id_twice 2 1 empty_disk).
  - lia.
  - vm_compute. discriminate.
Defined.

Example pool_ids_after_delete :
  (ParallelBufferPoolManager.allocated
     [ParallelBufferPoolManager.OpNewPage; ParallelBufferPoolManager.OpNewPage;
      ParallelBufferPoolManager.OpUnpinPage 0 false;
      ParallelBufferPoolManager.OpDeletePage 0;
      ParallelBufferPoolManager.OpNewPage; ParallelBufferPoolManager.OpNewPage]
     (ParallelBufferPoolManager.new 2 1 empty_disk)).*1 = [0; 1; 2].
Proof. vm_compute. reflexivity. Qed.

Lemma flush_each_Forall (P : Instance → Prop) bs :
  (∀ b d, P b → P (FlushAllPgsImp b d).1) →
  ∀ d, Forall P bs → Forall P (ParallelBufferPoolManager.flush_each bs d).1.
Proof.
  intros HP. induction bs as [|b bs IH]; intros d Hall; simpl; [constructor|].
  apply Forall_cons in Hall as [Hb Hall].
  pose proof (HP b d Hb) as Hb1.
  destruct (FlushAllPgsImp b d) as [b1 d1].
  specialize (IH d1 Hall). destruct (ParallelBufferPoolManager.flush_each bs d1) as [bs1 d2].
  by constructor.
Qed.

Lemma pool_step_bookkeeping p o :
  ParallelBufferPoolManager.buffers_ p ≠ [] →
  Forall (λ b, inv b ∧ inv_frames b) (ParallelBufferPoolManager.buffers_ p) →
  Forall (λ b, inv b ∧ inv_frames b)
         (ParallelBufferPoolManager.buffers_ (ParallelBufferPoolManager.step p o)).
Proof.
  intros Hne Hall.
  pose proof (λ q, lookup_lt_is_Some_2 _ _
                     (GetBufferPoolManager_lt q p Hne)) as Hidx.
  assert (∀ j b, ParallelBufferPoolManager.buffers_ p !! j = Some b →
                 inv b ∧ inv_frames b) as Hget.
  { intros j b Hb. by apply (Forall_lookup_1 _ _ _ _ Hall Hb). }
  destruct o as [|q|q x|q| |q]; simpl.
  - unfold ParallelBufferPoolManager.NewPgImp.
    pose proof (probe_spec (length (ParallelBufferPoolManager.buffers_ p))
                  (ParallelBufferPoolManager.last_alloc_index_ p) p Hne) as Hspec.
    cbv zeta in Hspec.
    destruct (ParallelBufferPoolManager.probe _ _ p) as [[[y [j f]]|] p'];
      cbn [fst snd] in *.
    + destruct Hspec as (m & b & b1 & d1 & _ & _ & Hb & Hnew & -> & _). simpl.
      destruct (Hget j b Hb) as [Hinv Hfr].
      apply Forall_insert; [done|].
      pose proof (inv_NewPgImp b (ParallelBufferPoolManager.disk_manager p) Hinv) as H1.
      pose proof (inv_frames_NewPgImp b (ParallelBufferPoolManager.disk_manager p) Hinv Hfr)
        as H2.
      by rewrite Hnew in H1, H2.
    + by destruct Hspec as [-> _].
  - unfold ParallelBufferPoolManager.FetchPgImp. destruct (Hidx q) as [b Hb]. rewrite Hb.
    destruct (Hget _ b Hb) as [Hinv Hfr].
    pose proof (inv_FetchPgImp q b (ParallelBufferPoolManager.disk_manager p) Hinv) as H1.
    pose proof (inv_frames_FetchPgImp q b (ParallelBufferPoolManager.disk_manager p)
                  Hinv Hfr) as H2.
    destruct (FetchPgImp q b _) as [[r b1] d1]. simpl in *. by apply Forall_insert.
  - unfold ParallelBufferPoolManager.UnpinPgImp. destruct (Hidx q) as [b Hb]. rewrite Hb.
    destruct (Hget _ b Hb) as [Hinv Hfr].
    pose proof (inv_UnpinPgImp q x b (ParallelBufferPoolManager.disk_manager p) Hinv) as H1.
    pose proof (inv_frames_UnpinPgImp q x b (ParallelBufferPoolManager.disk_manager p)
                  Hinv Hfr) as H2.
    destruct (UnpinPgImp q x b _) as [[r b1] d1]. simpl in *. by apply Forall_insert.
  - unfold ParallelBufferPoolManager.FlushPgImp. destruct (Hidx q) as [b Hb]. rewrite Hb.
    destruct (Hget _ b Hb) as [Hinv Hfr].
    pose proof (inv_FlushPgImp q b (ParallelBufferPoolManager.disk_manager p) Hinv) as H1.
    pose proof (inv_frames_FlushPgImp q b (ParallelBufferPoolManager.disk_manager p)
                  Hinv Hfr) as H2.
    destruct (FlushPgImp q b _) as [[r b1] d1]. simpl in *. by apply Forall_insert.
  - unfold ParallelBufferPoolManager.FlushAllPgsImp.
    pose proof (flush_each_Forall (λ b, inv b ∧ inv_frames b)
                  (ParallelBufferPoolManager.buffers_ p)) as H.
    specialize (H (λ b d '(conj Hinv Hfr),
                     conj (inv_FlushAllPgsImp b d Hinv)
                          (inv_frames_FlushAllPgsImp b d Hinv Hfr))
                  (ParallelBufferPoolManager.disk_manager p) Hall).
    by destruct (ParallelBufferPoolManager.flush_each _ _) as [bs d].
  - unfold ParallelBufferPoolManager.DeletePgImp. destruct (Hidx q) as [b Hb]. rewrite Hb.
    destruct (Hget _ b Hb) as [Hinv Hfr].
    pose proof (inv_DeletePgImp q b (ParallelBufferPoolManager.disk_manager p) Hinv) as H1.
    pose proof (inv_frames_DeletePgImp q b (ParallelBufferPoolManager.disk_manager p)
                  Hinv Hfr) as H2.
    destruct (DeletePgImp q b _) as [[r b1] d1]. simpl in *. by apply Forall_insert.
Qed.

Lemma pool_run_bookkeeping n ps ops : ∀ p,
  (0 < n)%nat → ParallelBufferPoolManager.configured n ps p →
  Forall (λ b, inv b ∧ inv_frames b) (ParallelBufferPoolManager.buffers_ p) →
  Forall (λ b, inv b ∧ inv_frames b)
         (ParallelBufferPoolManager.buffers_ (ParallelBufferPoolManager.run ops p)).
Proof.
  induction ops as [|o ops IH]; intros p Hn Hcfg Hall; simpl; [done|].
  apply IH; [done|by apply configured_step|].
  apply pool_step_bookkeeping; [by apply (configured_nonempty n ps)|done].
Qed.

(** X22. Sharing one disk manager does not disturb the instances of a pool:
    after any run of public calls on a pool built by the constructor with at
    least one instance, in every instance pin counts are non-negative, the
    page table is injective and agrees with the frames' page ids, frames in
    the free list are blank and not resident, tracked frames have pin count
    0, and every resident frame with pin count 0 is tracked by the
    instance's replacer. *)
Theorem Pool_instances_keep_their_bookkeeping
    (num_instances pool_size : nat) (d : DiskManager)
    (ops : list ParallelBufferPoolManager.op) (i : nat) (b : Instance) :
  (0 < num_instances)%nat →
  ParallelBufferPoolManager.buffers_
    (ParallelBufferPoolManager.run ops
       (ParallelBufferPoolManager.new num_instances pool_size d)) !! i = Some b →
  (∀ pg, pg ∈ pages_ b → 0 ≤ pin_count_ pg) ∧
  (∀ q f, page_table_ b !! q = Some f →
          (f < pool_size)%nat ∧ page_id_ <$> pages_ b !! f = Some q) ∧
  (∀ q q' f, page_table_ b !! q = Some f → page_table_ b !! q' = Some f → q = q') ∧
  (∀ f, f ∈ free_list_ b → ¬ resident b f ∧ pages_ b !! f = Some blank_page) ∧
  (∀ f, in_replacer b f → pin_count_ (page_at b f) = 0) ∧
  (∀ f, resident b f → pin_count_ (page_at b f) = 0 → in_replacer b f).
Proof.
  intros Hn Hb.
  set (p0 := ParallelBufferPoolManager.new num_instances pool_size d) in *.
  assert (Forall (λ b, inv b ∧ inv_frames b) (ParallelBufferPoolManager.buffers_ p0))
    as Hall0.
  { unfold p0. simpl. apply Forall_fmap, Forall_forall. intros j _. simpl.
    split; [apply inv_fresh|apply inv_frames_fresh]. }
  pose proof (pool_run_bookkeeping num_instances pool_size ops p0 Hn
                (configured_new num_instances pool_size d) Hall0) as Hall.
  destruct (Forall_lookup_1 _ _ _ _ Hall Hb) as [Hinv Hfr].
  destruct (configured_run num_instances pool_size ops p0 Hn
              (configured_new num_instances pool_size d)) as [_ Hcfg].
  destruct (Hcfg i b Hb) as (Hps & _).
  assert (length (pages_ b) = pool_size_ b) as Hlen by apply Hinv.
  split; [|split; [|split; [|split; [|split]]]].
  - intros pg Hpg. apply list_elem_of_lookup in Hpg as [f Hf].
    rewrite <- (page_at_lookup b f pg Hf). apply Hfr.
  - intros q f Hq. destruct (inv_table b Hinv q f Hq) as [Hlt Hid].
    split; [lia|]. rewrite lookup_page_at by lia. simpl. by rewrite Hid.
  - intros q q' f Hq Hq'.
    apply (inv_table b Hinv) in Hq as [_ Hq], Hq' as [_ Hq']. congruence.
  - intros f Hf. destruct (inv_free b Hinv f Hf) as (Hlt & _ & Hres).
    split; [done|]. rewrite lookup_page_at by lia. by rewrite (inv_blank b Hfr f Hf).
  - intros f Hf. by apply (inv_replacer b Hinv).
  - apply Hfr.
Qed.

Lemma Pool_instances_keep_their_bookkeeping_witness :
  let p := ParallelBufferPoolManager.run
             [ParallelBufferPoolManager.OpNewPage; ParallelBufferPoolManager.OpNewPage;
              ParallelBufferPoolManager.OpUnpinPage 1 true;
              ParallelBufferPoolManager.OpFetchPage 3]
             (ParallelBufferPoolManager.new 2 1 empty_disk) in
  ∃ b, ParallelBufferPoolManager.buffers_ p !! 1%nat = Some b ∧
       ∀ pg, pg ∈ pages_ b → 0 ≤ pin_count_ pg.
Proof.
  set (p := ParallelBufferPoolManager.run
              [ParallelBufferPoolManager.OpNewPage; ParallelBufferPoolManager.OpNewPage;
               ParallelBufferPoolManager.OpUnpinPage 1 true;
               ParallelBufferPoolManager.OpFetchPage 3]
              (ParallelBufferPoolManager.new 2 1 empty_disk)).
  destruct (lookup_lt_is_Some_2 (ParallelBufferPoolManager.buffers_ p) 1%nat) as [b Hb].
  { vm_compute. lia. }
  exists b. split; [exact Hb|].
  refine (proj1 (Pool_instances_keep_their_bookkeeping 2 1 empty_disk _ 1%nat b _ Hb)).
  lia.
Defined.
